(** * The JMeter transaction-reconstruction core of unified-report-generator

    A shallow embedding of the parsing core of [src/generateUnifiedReport.js]:
    the CSV line tokenizer, the statistics calculator, the single-pass
    transaction reconstruction of [parseJMeterResults] and the concurrency
    inference of [extractUserConfiguration].

    Conventions of the embedding.
    - A JavaScript string is a [string]; every [ascii] stands for the UTF-16
      code unit of the same number (so the embedding covers strings whose
      code units are below 256).
    - A JavaScript number that the code uses as an integer (an elapsed time,
      a time stamp, a counter, an array index) is a [Z]; doubles are exact on
      integers of magnitude below 2^53, which is the range meant throughout.
      Where the code divides (the average of [calculateStatistics], the
      percentages printed by [toFixed(2)]) the sums, the quotients and the
      products are embedded with binary64 floats, rounding included.
    - [undefined] read from an array is [None]; a thrown exception is [None]
      in the result of the function that throws. *)

From Stdlib Require Import ZArith Ascii String List Lia Bool.
From Stdlib Require Import Sorting.Permutation Sorting.Sorted.
From Stdlib Require Import Floats DecimalString DecimalN.
From stdpp Require Import list strings numbers sorting gmap.

(** ** JavaScript string primitives *)

Definition DQUOTE : ascii := "034".
Definition COMMA : ascii := ",".
Definition LF : ascii := "010".

Definition str (c : ascii) : string := String c "".

(** White space as [String.prototype.trim], [parseInt] and the regular
    expression class [\s] see it: TAB, LF, VT, FF, CR, SP and NBSP. *)
Definition isWhiteSpace (c : ascii) : bool :=
  let n := N_of_ascii c in
  ((9 <=? n) && (n <=? 13) || (n =? 32) || (n =? 160))%N.

(** The regular expression class [\d]. *)
Definition isDigit (c : ascii) : bool :=
  let n := N_of_ascii c in ((48 <=? n) && (n <=? 57))%N.

Definition digitValue (c : ascii) : Z := Z.of_N (N_of_ascii c) - 48.

(** What [.] matches in a regular expression without the [s] flag. *)
Definition isLineTerminator (c : ascii) : bool :=
  let n := N_of_ascii c in ((n =? 10) || (n =? 13))%N.

Fixpoint trimStart (s : string) : string :=
  match s with
  | String c r => if isWhiteSpace c then trimStart r else s
  | EmptyString => EmptyString
  end.

Fixpoint trimEnd (s : string) : string :=
  match s with
  | String c r =>
      let r' := trimEnd r in
      if isWhiteSpace c && String.eqb r' "" then EmptyString else String c r'
  | EmptyString => EmptyString
  end.

Definition trim (s : string) : string := trimEnd (trimStart s).

(** [s.includes(sub)]. *)
Fixpoint includes (s sub : string) : bool :=
  String.prefix sub s
  || match s with
     | String _ r => includes r sub
     | EmptyString => false
     end.

(** [s.split('\n')]. *)
Fixpoint split_loop (s current : string) : list string :=
  match s with
  | String c r =>
      if Ascii.eqb c LF then current :: split_loop r ""
      else split_loop r (current +:+ str c)
  | EmptyString => [current]
  end.

Definition splitLines (s : string) : list string := split_loop s "".

(** [array.indexOf(x)] on an array of strings: the first index, or -1. *)
Fixpoint indexOf_from (l : list string) (x : string) (i : Z) : Z :=
  match l with
  | y :: l' => if String.eqb y x then i else indexOf_from l' x (i + 1)
  | [] => -1
  end.

Definition indexOf (l : list string) (x : string) : Z := indexOf_from l x 0.

(** [array[i]] for a number [i]: [undefined] below zero (the code reads
    [values[-1]] for a column the header lacks) and past the end. *)
Definition at_index {A} (l : list A) (i : Z) : option A :=
  if (i <? 0)%Z then None else l !! Z.to_nat i.

(** [x || ''] for [x] a string or [undefined]. *)
Definition orEmpty (x : option string) : string := default "" x.

(** *** parseInt *)

Definition isHexDigit (c : ascii) : bool :=
  let n := N_of_ascii c in
  (isDigit c || (65 <=? n) && (n <=? 70) || (97 <=? n) && (n <=? 102))%N.

Definition hexDigitValue (c : ascii) : Z :=
  let n := Z.of_N (N_of_ascii c) in
  if isDigit c then n - 48
  else if (n <=? 70)%Z then n - 55 else n - 87.

(** The longest prefix of digits of the radix, read as a number; [None]
    when there is no digit at all. *)
Fixpoint digits_loop (isD : ascii -> bool) (val : ascii -> Z) (radix : Z)
    (s : string) (acc : option Z) : option Z :=
  match s with
  | String c r =>
      if isD c then digits_loop isD val radix r (Some (default 0 acc * radix + val c)%Z)
      else acc
  | EmptyString => acc
  end.

Definition parseDigits (radix : Z) (s : string) : option Z :=
  if (radix =? 16)%Z then digits_loop isHexDigit hexDigitValue 16 s None
  else digits_loop isDigit digitValue 10 s None.

(** A leading sign, and the [0x] or [0X] that selects radix 16. *)
Definition stripSign (s : string) : bool * string :=
  match s with
  | String "-" r => (true, r)
  | String "+" r => (false, r)
  | _ => (false, s)
  end.

Definition stripRadix (s : string) : Z * string :=
  match s with
  | String "0" (String "x" r) => (16, r)
  | String "0" (String "X" r) => (16, r)
  | _ => (10, s)
  end%Z.

(** [parseInt(s)] without a radix: leading white space, a sign, an optional
    [0x]/[0X] prefix, then digits. [None] is [NaN]. *)
Definition parseInt (s : string) : option Z :=
  let '(negative, s) := stripSign (trimStart s) in
  let '(radix, s) := stripRadix s in
  (fun n => if negative : bool then (- n)%Z else n) <$> parseDigits radix s.

(** [parseInt(values[i]) || 0]: [parseInt(undefined)] is [NaN], and [NaN]
    and both zeros are falsy. *)
Definition parseIntOr0 (x : option string) : Z :=
  match x with
  | Some s => default 0%Z (parseInt s)
  | None => 0%Z
  end.

(** ** CSV line tokenizer: [parseCSVLine] *)

Fixpoint parseCSVLine_loop (line : string) (result : list string)
    (current : string) (inQuotes : bool) : list string :=
  match line with
  | String char rest =>
      if Ascii.eqb char DQUOTE then
        match inQuotes, rest with
        | true, String next rest' =>
            if Ascii.eqb next DQUOTE
            then parseCSVLine_loop rest' result (current +:+ str DQUOTE) inQuotes
            else parseCSVLine_loop rest result current (negb inQuotes)
        | _, _ => parseCSVLine_loop rest result current (negb inQuotes)
        end
      else if Ascii.eqb char COMMA && negb inQuotes
      then parseCSVLine_loop rest (result ++ [current]) "" inQuotes
      else parseCSVLine_loop rest result (current +:+ str char) inQuotes
  | EmptyString => result ++ [current]
  end.

Definition parseCSVLine (line : string) : list string :=
  parseCSVLine_loop line [] "" false.

(** *** Writing a CSV line: the inverse the tokenizer is checked against *)

(** A field as a CSV writer emits it: bare, or wrapped in double quotes with
    every double quote of the value doubled. *)
Inductive csvField :=
  | Bare (value : string)
  | Quoted (value : string).

Definition fieldValue (f : csvField) : string :=
  match f with Bare v | Quoted v => v end.

Fixpoint doubleQuotes (s : string) : string :=
  match s with
  | String c r =>
      if Ascii.eqb c DQUOTE then String DQUOTE (String DQUOTE (doubleQuotes r))
      else String c (doubleQuotes r)
  | EmptyString => EmptyString
  end.

Definition writeField (f : csvField) : string :=
  match f with
  | Bare v => v
  | Quoted v => String DQUOTE (doubleQuotes v +:+ str DQUOTE)
  end.

Fixpoint lacks (c : ascii) (s : string) : bool :=
  match s with
  | String d r => negb (Ascii.eqb d c) && lacks c r
  | EmptyString => true
  end.

(** A bare field cannot hold a comma or a double quote; a quoted field can
    hold anything. *)
Definition writable (f : csvField) : bool :=
  match f with
  | Bare v => lacks COMMA v && lacks DQUOTE v
  | Quoted _ => true
  end.

Definition writeLine (fields : list csvField) : string :=
  String.concat (str COMMA) (map writeField fields).

Definition startsWithQuote (s : string) : bool :=
  match s with
  | String c _ => Ascii.eqb c DQUOTE
  | EmptyString => false
  end.

(** A line whose last field opens a quote that is never closed. *)
Definition writeLineOpen (fields : list csvField) (v : string) : string :=
  String.concat (str COMMA) (map writeField fields ++ [String DQUOTE v]).

(** The scenario line of the specification: one quoted field holding
    [a,"b",c]. *)
Definition scenario_field : string :=
  "a," +:+ str DQUOTE +:+ "b" +:+ str DQUOTE +:+ ",c".

Definition scenario_line : string :=
  str DQUOTE +:+ "a," +:+ str DQUOTE +:+ str DQUOTE +:+ "b"
  +:+ str DQUOTE +:+ str DQUOTE +:+ ",c" +:+ str DQUOTE.

(** ** Statistics calculator: [calculateStatistics] and [percentile] *)

(** [values.slice().sort((a, b) => a - b)]: a stable ascending sort of a
    copy of the array. *)
Definition sortAscending (values : list Z) : list Z := merge_sort Z.le values.

(** The ceiling and the rounding of the exact quotient [a / b] of integers,
    [b > 0]: the least integer not below the quotient, and the integer
    nearest to it with a tie going up. In [percentile] the quotient is
    [(p / 100) * n] with [p] one of 90, 95 and 99: the doubles 0.95 and 0.99
    lie below their decimal value and 0.9 lies above it by a fifth of an
    ulp, so the double product is the exact integer whenever [p * n / 100]
    is one, and the ceiling is that of the exact quotient. *)
Definition ceilDiv (a b : Z) : Z := (- ((- a) / b))%Z.
Definition roundDiv (a b : Z) : Z := ((2 * a + b) / (2 * b))%Z.

(** The double nearest to an integer (the integer itself below 2^53). *)
Definition numberOf (z : Z) : spec_float := binary_normalize prec emax z 0 false.

(** [Math.round(x)]: the integer nearest to the double, the upper one of
    two; a double with an exponent of 0 or more is an integer already. A
    quotient that is not finite (it takes a sum beyond the range of the
    doubles) is read as 0. *)
Definition roundOf (x : spec_float) : Z :=
  match x with
  | S754_finite negative m e =>
      let n := if negative then Z.neg m else Z.pos m in
      if (0 <=? e)%Z then (n * 2 ^ e)%Z else roundDiv n (2 ^ (- e))
  | _ => 0%Z
  end.

Definition arrayLength {A} (l : list A) : Z := Z.of_nat (length l).

(** [percentile(sortedArray, p)]; [None] is the [undefined] of a read past
    the end of the array. *)
Definition percentile (sortedArray : list Z) (p : Z) : option Z :=
  if (arrayLength sortedArray =? 0)%Z then Some 0%Z
  else
    let index := (ceilDiv (p * arrayLength sortedArray) 100 - 1)%Z in
    at_index sortedArray (Z.max 0 index).

Module Stats.
Record t := mk {
  min : option Z;
  max : option Z;
  avg : Z;
  p90 : option Z;
  p95 : option Z;
  p99 : option Z
}.
End Stats.

(** The sum and the average are those of the doubles: [reduce] adds the
    sorted values one by one, each sum rounded to a double, and the quotient
    by the length is rounded to a double before [Math.round] reads it. *)
Definition calculateStatistics (values : list Z) : Stats.t :=
  if (arrayLength values =? 0)%Z then
    Stats.mk (Some 0%Z) (Some 0%Z) 0%Z (Some 0%Z) (Some 0%Z) (Some 0%Z)
  else
    let sorted := sortAscending values in
    let sum := fold_left (fun a b => SF64add a (numberOf b)) sorted (numberOf 0) in
    Stats.mk
      (at_index sorted 0)
      (at_index sorted (arrayLength sorted - 1))
      (roundOf (SF64div sum (numberOf (arrayLength sorted))))
      (percentile sorted 90)
      (percentile sorted 95)
      (percentile sorted 99).

(** *** The statistics as the specification words them *)

(** [k] is the ceiling of [a / b]. *)
Definition isCeiling (a b k : Z) : Prop := (b * (k - 1) < a <= b * k)%Z.

(** [field] is the element of [sorted] at index [ceil(p/100 * N) - 1],
    clamped to at least 0. *)
Definition isPercentileOf (sorted : list Z) (p : Z) (field : option Z) : Prop :=
  exists k v,
    isCeiling (p * arrayLength sorted) 100 k
    /\ sorted !! Z.to_nat (Z.max 0 (k - 1)) = Some v
    /\ field = Some v.

(** [avg] is the integer nearest to the arithmetic mean of [values], the
    upper one when the mean is half way between two integers. *)
Definition isRoundedMean (values : list Z) (avg : Z) : Prop :=
  let n := arrayLength values in
  let total := fold_right Z.add 0%Z values in
  (n * (2 * avg - 1) <= 2 * total < n * (2 * avg + 1))%Z.

(** The sum of the magnitudes of the values. *)
Fixpoint sumAbs (values : list Z) : Z :=
  match values with
  | x :: rest => (Z.abs x + sumAbs rest)%Z
  | [] => 0%Z
  end.

(** Values on which the doubles show: three whose sum is 2^53 - 1, nine
    near 2^49 whose sum is an eighth above 2^52, and five times the largest
    integer that the doubles hold exactly. *)
Definition wide_values : list Z :=
  [3002399751580330; 3002399751580330; 3002399751580331]%Z.

Definition narrow_values : list Z :=
  replicate 5 (2 ^ 49)%Z ++ replicate 4 (2 ^ 49 + 1)%Z.

Definition widest_values : list Z := replicate 5 (2 ^ 53 - 1)%Z.

(** ** Transaction reconstruction: [parseJMeterResults] *)

(** The object built for one CSV row. *)
Module Sample.
Record t := mk {
  label : string;
  elapsed : Z;
  success : bool;
  responseCode : string;
  responseMessage : string;
  dataType : string;
  threadName : string;
  failureMessage : string;
  latency : Z;
  connect : Z;
  bytes : Z;
  url : string;
  timestamp : Z
}.
End Sample.

(** The column of every field, as [headers.indexOf] gives it: -1 for a
    column the header does not have. *)
Module Columns.
Record t := mk {
  labelIndex : Z;
  elapsedIndex : Z;
  successIndex : Z;
  responseCodeIndex : Z;
  responseMessageIndex : Z;
  dataTypeIndex : Z;
  latencyIndex : Z;
  connectIndex : Z;
  bytesIndex : Z;
  urlIndex : Z;
  threadGroupIndex : Z;
  failureMessageIndex : Z;
  timestampIndex : Z
}.
End Columns.

Definition readColumns (headers : list string) : Columns.t :=
  Columns.mk
    (indexOf headers "label") (indexOf headers "elapsed")
    (indexOf headers "success") (indexOf headers "responseCode")
    (indexOf headers "responseMessage") (indexOf headers "dataType")
    (indexOf headers "Latency") (indexOf headers "Connect")
    (indexOf headers "bytes") (indexOf headers "URL")
    (indexOf headers "threadName") (indexOf headers "failureMessage")
    (indexOf headers "timeStamp").

(** [values[i] === 'true']. *)
Definition isTrue (x : option string) : bool :=
  match x with
  | Some s => String.eqb s "true"
  | None => false
  end.

Definition makeSample (cols : Columns.t) (values : list string) : Sample.t :=
  let field i := orEmpty (at_index values i) in
  let number i := parseIntOr0 (at_index values i) in
  Sample.mk
    (field (Columns.labelIndex cols))
    (number (Columns.elapsedIndex cols))
    (isTrue (at_index values (Columns.successIndex cols)))
    (field (Columns.responseCodeIndex cols))
    (field (Columns.responseMessageIndex cols))
    (field (Columns.dataTypeIndex cols))
    (field (Columns.threadGroupIndex cols))
    (field (Columns.failureMessageIndex cols))
    (number (Columns.latencyIndex cols))
    (number (Columns.connectIndex cols))
    (number (Columns.bytesIndex cols))
    (field (Columns.urlIndex cols))
    (number (Columns.timestampIndex cols)).

(** *** Row classification *)

Definition MARKER : string := "Number of samples in transaction".

(** A string in a condition: true unless it is empty. *)
Definition truthy (s : string) : bool := negb (String.eqb s "").

(** [isTransactionController] of the error tally (and of [isChildRequest]). *)
Definition isTransactionController (sample : Sample.t) : bool :=
  String.eqb (Sample.dataType sample) ""
  && truthy (Sample.responseMessage sample)
  && includes (Sample.responseMessage sample) MARKER.

(** The test of the branch that opens an execution: the same without the
    truthiness check. *)
Definition opensExecution (sample : Sample.t) : bool :=
  String.eqb (Sample.dataType sample) ""
  && includes (Sample.responseMessage sample) MARKER.

Definition isIndividualRequest (sample : Sample.t) : bool :=
  negb (String.eqb (Sample.dataType sample) "")
  || truthy (Sample.url sample)
     && negb (String.eqb (Sample.url sample) "null")
     && negb (String.eqb (Sample.url sample) "").

Definition isChildRequest (sample : Sample.t) : bool :=
  isIndividualRequest sample && negb (isTransactionController sample).

(** *** The expected child count *)

Fixpoint takeDigits (s : string) : string :=
  match s with
  | String c r => if isDigit c then String c (takeDigits r) else EmptyString
  | EmptyString => EmptyString
  end.

Fixpoint dropString (n : nat) (s : string) : string :=
  match n, s with
  | S n', String _ r => dropString n' r
  | _, _ => s
  end.

(** The rest of the pattern after the marker, tried at the start of [s]:
    white space, a colon, white space, then the digits that are captured.
    The three classes are disjoint, so the greedy match is the only one. *)
Definition matchCountTail (s : string) : option string :=
  match trimStart s with
  | String ":" r =>
      let digits := takeDigits (trimStart r) in
      if String.eqb digits "" then None else Some digits
  | _ => None
  end.

(** [responseMessage.match(/Number of samples in transaction\s*:\s*(\d+)/)]:
    the capture of the leftmost match. *)
Fixpoint countMatch (s : string) : option string :=
  let here :=
    if String.prefix MARKER s
    then matchCountTail (dropString (String.length MARKER) s)
    else None in
  match here with
  | Some digits => Some digits
  | None =>
      match s with
      | String _ r => countMatch r
      | EmptyString => None
      end
  end.

(** [countMatch ? parseInt(countMatch[1]) : 0]; the capture is a non-empty
    run of digits, on which [parseInt] is never [NaN]. *)
Definition expectedCount (sample : Sample.t) : Z :=
  match countMatch (Sample.responseMessage sample) with
  | Some digits => default 0%Z (parseInt digits)
  | None => 0%Z
  end.

(** *** Transactions *)

(** A JavaScript array that may have holes: [None] is a hole, which reads
    as [undefined]. *)
Definition get_hole {A} (a : list (option A)) (i : Z) : option A :=
  mjoin (at_index a i).

(** [a[i] = v]: an assignment past the end extends the array. *)
Definition set_hole {A} (a : list (option A)) (i : nat) (v : A) : list (option A) :=
  if (i <? length a)%nat then <[i := Some v]> a
  else a ++ replicate (i - length a) None ++ [Some v].

Module Transaction.
Record t := mk {
  name : string;
  samples : list Sample.t;
  totalSamples : Z;
  successCount : Z;
  errorCount : Z;
  childRequests : list Sample.t;
  childRequestsByExecution : list (option (list Sample.t))
}.
End Transaction.

(** The [transactions] object: its own properties in insertion order. *)
Definition Transactions := list (string * Transaction.t).

Fixpoint ownProperty (transactions : Transactions) (key : string)
    : option Transaction.t :=
  match transactions with
  | (k, t) :: rest => if String.eqb k key then Some t else ownProperty rest key
  | [] => None
  end.

(** [transactions[key] = t]: an existing property keeps its place. *)
Fixpoint setProperty (transactions : Transactions) (key : string)
    (t : Transaction.t) : Transactions :=
  match transactions with
  | (k, t') :: rest =>
      if String.eqb k key then (k, t) :: rest
      else (k, t') :: setProperty rest key t
  | [] => [(key, t)]
  end.

(** The properties that every object literal inherits from
    [Object.prototype]; each one holds a function or an object. *)
Definition objectPrototypeKeys : list string :=
  ["constructor"; "__defineGetter__"; "__defineSetter__"; "hasOwnProperty";
   "__lookupGetter__"; "__lookupSetter__"; "isPrototypeOf";
   "propertyIsEnumerable"; "toString"; "valueOf"; "__proto__";
   "toLocaleString"].

Inductive property :=
  | Own (t : Transaction.t)
  | Inherited
  | Missing.

(** [transactions[key]]. *)
Definition getProperty (transactions : Transactions) (key : string) : property :=
  match ownProperty transactions key with
  | Some t => Own t
  | None =>
      if existsb (String.eqb key) objectPrototypeKeys then Inherited else Missing
  end.

Module ErrorRecord.
Record t := mk {
  label : string;
  responseCode : string;
  responseMessage : string;
  failureMessage : string
}.
End ErrorRecord.

(** *** The state of the single pass *)

Module Scan.
Record t := mk {
  samples : list Sample.t;
  transactions : Transactions;
  allSamples : list Sample.t;
  errors : list ErrorRecord.t;
  (** [None] is the initial [Infinity]. *)
  minTimestamp : option Z;
  maxTimestamp : Z;
  totalSuccessCount : Z;
  totalErrorCount : Z;
  (** [None] is [null]. *)
  currentTransaction : option string;
  currentTransactionExecutionIndex : Z;
  expectedChildRequestCount : Z;
  collectedChildRequestCount : Z
}.
End Scan.

Definition initialScan : Scan.t :=
  Scan.mk [] [] [] [] None 0 0 0 None (-1) 0 0.

(** [allSamples.push(sample)] and the running minimum and maximum of the
    time stamps. *)
Definition recordSample (st : Scan.t) (sample : Sample.t) : Scan.t :=
  let timestamp := Sample.timestamp sample in
  let positive := (0 <? timestamp)%Z in
  Scan.mk
    (Scan.samples st) (Scan.transactions st)
    (Scan.allSamples st ++ [sample])
    (Scan.errors st)
    (if positive
     then Some (match Scan.minTimestamp st with
                | Some m => Z.min m timestamp
                | None => timestamp
                end)
     else Scan.minTimestamp st)
    (if positive
     then Z.max (Scan.maxTimestamp st) (timestamp + Sample.elapsed sample)
     else Scan.maxTimestamp st)
    (Scan.totalSuccessCount st) (Scan.totalErrorCount st)
    (Scan.currentTransaction st) (Scan.currentTransactionExecutionIndex st)
    (Scan.expectedChildRequestCount st) (Scan.collectedChildRequestCount st).

Definition errorOf (sample : Sample.t) : ErrorRecord.t :=
  ErrorRecord.mk (Sample.label sample) (Sample.responseCode sample)
    (Sample.responseMessage sample) (Sample.failureMessage sample).

(** The row counts as an error of the run. *)
Definition countsAsError (sample : Sample.t) : bool :=
  negb (Sample.success sample)
  && isIndividualRequest sample
  && negb (isTransactionController sample).

(** The pass and fail tallies. *)
Definition tally (st : Scan.t) (sample : Sample.t) : Scan.t :=
  let counted errors successes failures :=
    Scan.mk
      (Scan.samples st) (Scan.transactions st) (Scan.allSamples st)
      errors
      (Scan.minTimestamp st) (Scan.maxTimestamp st)
      successes failures
      (Scan.currentTransaction st) (Scan.currentTransactionExecutionIndex st)
      (Scan.expectedChildRequestCount st) (Scan.collectedChildRequestCount st) in
  if countsAsError sample then
    counted (Scan.errors st ++ [errorOf sample])
      (Scan.totalSuccessCount st) (Scan.totalErrorCount st + 1)%Z
  else if Sample.success sample then
    counted (Scan.errors st)
      (Scan.totalSuccessCount st + 1)%Z (Scan.totalErrorCount st)
  else st.

(** The state with another [transactions] object and another window. *)
Definition withWindow (st : Scan.t) (samples : list Sample.t)
    (transactions : Transactions) (current : option string)
    (index expected collected : Z) : Scan.t :=
  Scan.mk samples transactions
    (Scan.allSamples st) (Scan.errors st)
    (Scan.minTimestamp st) (Scan.maxTimestamp st)
    (Scan.totalSuccessCount st) (Scan.totalErrorCount st)
    current index expected collected.

(** The four assignments that close the window. *)
Definition closeWindow (st : Scan.t) : Scan.t :=
  withWindow st (Scan.samples st) (Scan.transactions st) None (-1) 0 0.

Definition newTransaction (transactionName : string) : Transaction.t :=
  Transaction.mk transactionName [] 0 0 0 [] [].

(** The transaction with one more execution, opened by the controller row
    [sample]: the row is pushed, the counters move, and the list of the
    children of the execution is created unless there is one already. *)
Definition withExecution (t : Transaction.t) (sample : Sample.t) : Transaction.t :=
  let executionIndex := arrayLength (Transaction.samples t) in
  Transaction.mk (Transaction.name t)
    (Transaction.samples t ++ [sample])
    (Transaction.totalSamples t + 1)%Z
    (if Sample.success sample
     then Transaction.successCount t + 1 else Transaction.successCount t)%Z
    (if Sample.success sample
     then Transaction.errorCount t else Transaction.errorCount t + 1)%Z
    (Transaction.childRequests t)
    (match get_hole (Transaction.childRequestsByExecution t) executionIndex with
     | Some _ => Transaction.childRequestsByExecution t
     | None =>
         set_hole (Transaction.childRequestsByExecution t)
           (Z.to_nat executionIndex) []
     end).

(** The branch of a transaction-controller row. Reading [samples.length]
    of an inherited property throws a [TypeError]. *)
Definition openExecution (st : Scan.t) (sample : Sample.t) : option Scan.t :=
  let expectedCount := expectedCount sample in
  let transactionName := Sample.label sample in
  let transactions :=
    match getProperty (Scan.transactions st) transactionName with
    | Missing =>
        setProperty (Scan.transactions st) transactionName
          (newTransaction transactionName)
    | Own _ | Inherited => Scan.transactions st
    end in
  match getProperty transactions transactionName with
  | Own t =>
      let executionIndex := arrayLength (Transaction.samples t) in
      Some (withWindow st (Scan.samples st ++ [sample])
              (setProperty transactions transactionName (withExecution t sample))
              (Some transactionName) executionIndex expectedCount 0)
  | Inherited | Missing => None
  end.

(** The property key that [transactions[currentTransaction]] reads. *)
Definition currentKey (st : Scan.t) : string :=
  default "null" (Scan.currentTransaction st).

Definition isDefined (p : property) : bool :=
  match p with Missing => false | Own _ | Inherited => true end.

(** The transaction [t] after [sample] is captured for its execution
    [index], whose children were [children]. *)
Definition withChild (t : Transaction.t) (index : Z) (children : list Sample.t)
    (sample : Sample.t) : Transaction.t :=
  Transaction.mk (Transaction.name t) (Transaction.samples t)
    (Transaction.totalSamples t) (Transaction.successCount t)
    (Transaction.errorCount t)
    (Transaction.childRequests t ++ [sample])
    (<[Z.to_nat index := Some (children ++ [sample])]>
       (Transaction.childRequestsByExecution t)).

(** The two [push]es that capture a child; a [push] on [undefined] throws. *)
Definition pushChild (st : Scan.t) (sample : Sample.t) : option Scan.t :=
  match getProperty (Scan.transactions st) (currentKey st) with
  | Own t =>
      let index := Scan.currentTransactionExecutionIndex st in
      match get_hole (Transaction.childRequestsByExecution t) index with
      | Some children =>
          Some (withWindow st (Scan.samples st)
                  (setProperty (Scan.transactions st) (currentKey st)
                     (withChild t index children sample))
                  (Scan.currentTransaction st) index
                  (Scan.expectedChildRequestCount st)
                  (Scan.collectedChildRequestCount st + 1)%Z)
      | None => None
      end
  | Inherited | Missing => None
  end.

(** The branch of a row that is no controller while a window is open. *)
Definition captureChild (st : Scan.t) (sample : Sample.t) : option Scan.t :=
  let st :=
    if (Scan.expectedChildRequestCount st <=? Scan.collectedChildRequestCount st)%Z
    then closeWindow st else st in
  if isChildRequest sample
     && isDefined (getProperty (Scan.transactions st) (currentKey st))
     && (Scan.collectedChildRequestCount st <? Scan.expectedChildRequestCount st)%Z
  then pushChild st sample
  else if isTransactionController sample then Some (closeWindow st)
  else Some st.

(** [currentTransaction && currentTransactionExecutionIndex >= 0]: the
    empty name is falsy like [null]. *)
Definition windowOpen (st : Scan.t) : bool :=
  match Scan.currentTransaction st with
  | Some transactionName =>
      truthy transactionName && (0 <=? Scan.currentTransactionExecutionIndex st)%Z
  | None => false
  end.

(** The body of the loop for one sample. *)
Definition processSample (st : Scan.t) (sample : Sample.t) : option Scan.t :=
  let st := tally (recordSample st sample) sample in
  if opensExecution sample then openExecution st sample
  else if windowOpen st then captureChild st sample
  else Some st.

(** A row is long enough to be read when it reaches both the label and the
    elapsed column. *)
Definition reachesColumns (cols : Columns.t) (values : list string) : bool :=
  (Z.max (Columns.labelIndex cols) (Columns.elapsedIndex cols)
   <? arrayLength values)%Z.

(** The body of the loop for one line: a row too short to reach the label
    and the elapsed column is passed over. *)
Definition processLine (cols : Columns.t) (st : Scan.t) (line : string)
    : option Scan.t :=
  let values := parseCSVLine line in
  if reachesColumns cols values
  then processSample st (makeSample cols values)
  else Some st.

Fixpoint scanLines (cols : Columns.t) (lines : list string) (st : Scan.t)
    : option Scan.t :=
  match lines with
  | line :: rest => st' ← processLine cols st line; scanLines cols rest st'
  | [] => Some st
  end.

(** *** Percentages: [((a / b) * 100).toFixed(2)] *)

(** [(a / b) * 100] in binary64 arithmetic. *)
Definition percentOf (a b : Z) : spec_float :=
  SF64mul (SF64div (numberOf a) (numberOf b)) (numberOf 100).

Definition decimal (n : Z) : string :=
  NilZero.string_of_uint (N.to_uint (Z.to_N n)).

Definition twoDigits (n : Z) : string :=
  if (n <? 10)%Z then String "0" (decimal n) else decimal n.

(** The integer [n] for which [n / 100] is nearest to [m * 2^e], the larger
    one of two. *)
Definition hundredths (m : positive) (e : Z) : Z :=
  if (0 <=? e)%Z then (Z.pos m * 2 ^ e * 100)%Z
  else roundDiv (Z.pos m * 100) (2 ^ (- e)).

(** [x.toFixed(2)] for a magnitude below 10^21, from where on JavaScript
    switches to the exponent notation; the percentages of the code stay
    below 2^62 (lemma [percentOf_bound]). *)
Definition toFixed2 (x : spec_float) : string :=
  match x with
  | S754_nan => "NaN"
  | S754_infinity negative => if negative then "-Infinity" else "Infinity"
  | S754_zero _ => "0.00"
  | S754_finite negative m e =>
      let n := hundredths m e in
      (if negative then "-" else "")
      +:+ decimal (n / 100) +:+ "." +:+ twoDigits (n mod 100)
  end.

(** *** The result *)

(** [uniqueChildRequests]: the first request of every label. *)
Fixpoint uniqueByLabel (requests : list Sample.t) (seenLabels : gset string)
    : list Sample.t :=
  match requests with
  | req :: rest =>
      if decide (Sample.label req ∈ seenLabels)
      then uniqueByLabel rest seenLabels
      else req :: uniqueByLabel rest ({[Sample.label req]} ∪ seenLabels)
  | [] => []
  end.

(** A transaction once the pass is over, with the three properties that
    are added to it. *)
Module Summary.
Record t := mk {
  transaction : Transaction.t;
  stats : Stats.t;
  errorRate : string;
  uniqueChildRequests : list Sample.t
}.
End Summary.

Definition summarize (transaction : Transaction.t) : Summary.t :=
  let responseTimes := map Sample.elapsed (Transaction.samples transaction) in
  Summary.mk transaction
    (calculateStatistics responseTimes)
    (toFixed2 (percentOf (Transaction.errorCount transaction)
                 (Transaction.totalSamples transaction)))
    (uniqueByLabel (Transaction.childRequests transaction) ∅).

(** [passPercentage] is a number in one case and a string in the other. *)
Inductive PassPercentage :=
  | PctNumber (n : Z)
  | PctString (s : string).

(** The object [parseJMeterResults] returns, without the fields that format
    dates and without [userConfig], whose counts are those of
    [countThreadInstances] below; [errors] is the list handed to
    [analyzeErrors]. *)
Module Result.
Record t := mk {
  totalSamples : Z;
  samples : list Sample.t;
  transactions : list (string * Summary.t);
  startTimestamp : option Z;
  endTimestamp : Z;
  passPercentage : PassPercentage;
  totalRequests : Z;
  totalSuccessCount : Z;
  totalErrorCount : Z;
  errors : list ErrorRecord.t
}.
End Result.

Definition buildResult (st : Scan.t) : Result.t :=
  let totalRequestCount := (Scan.totalSuccessCount st + Scan.totalErrorCount st)%Z in
  let passPercentage :=
    if (0 <? totalRequestCount)%Z
    then PctString (toFixed2 (percentOf (Scan.totalSuccessCount st) totalRequestCount))
    else PctNumber 100 in
  Result.mk
    (arrayLength (Scan.samples st))
    (Scan.samples st)
    (map (fun '(key, transaction) => (key, summarize transaction))
       (Scan.transactions st))
    (Scan.minTimestamp st) (Scan.maxTimestamp st)
    passPercentage totalRequestCount
    (Scan.totalSuccessCount st) (Scan.totalErrorCount st)
    (Scan.errors st).

(** The non-blank lines of the file, as the code filters them. *)
Definition csvLines (csvContent : string) : list string :=
  List.filter (fun line => truthy (trim line)) (splitLines csvContent).

(** [parseJMeterResults] from the content of the CSV file on, up to the
    fields of the result that the pass over the file decides; [None] is the
    [null] that the function returns on its early exits and from its
    [catch] block when the pass throws. After the pass the code still reads
    the JMX file and the configuration for [userConfig], inside the same
    [try]: where that throws the code returns [null] as well, so [Some r]
    gives the fields of the result whenever the code returns one, and
    [None] is a [null] of the code. *)
Definition parseJMeterResults (csvContent : string) : option Result.t :=
  let lines := csvLines csvContent in
  if (arrayLength lines <? 2)%Z then None
  else
    let headers := parseCSVLine (default "" (head lines)) in
    let cols := readColumns headers in
    if (Columns.labelIndex cols =? -1)%Z || (Columns.elapsedIndex cols =? -1)%Z
    then None
    else buildResult <$> scanLines cols (tail lines) initialScan.

(** *** Notions used to state the properties of the pass *)

(** The samples of the lines that are read, in the order of the file. *)
Definition readSamples (cols : Columns.t) (lines : list string) : list Sample.t :=
  map (makeSample cols)
    (List.filter (reachesColumns cols) (map parseCSVLine lines)).

(** The data lines of a file and the columns of its header. *)
Definition columnsOf (csvContent : string) : Columns.t :=
  readColumns (parseCSVLine (default "" (head (csvLines csvContent)))).

Definition samplesOf (csvContent : string) : list Sample.t :=
  readSamples (columnsOf csvContent) (tail (csvLines csvContent)).

(** The children captured for execution [i] of a transaction, and the
    controller row of that execution. *)
Definition childrenOf (t : Transaction.t) (i : nat) : option (list Sample.t) :=
  mjoin (Transaction.childRequestsByExecution t !! i).

Definition controllerOf (t : Transaction.t) (i : nat) : option Sample.t :=
  Transaction.samples t !! i.

(** Every execution has its list of children, and no more of them than its
    controller row announces. *)
Definition boundedChildren (t : Transaction.t) : Prop :=
  length (Transaction.childRequestsByExecution t) = length (Transaction.samples t)
  /\ forall i controller,
      controllerOf t i = Some controller ->
      exists children,
        childrenOf t i = Some children
        /\ (arrayLength children <= expectedCount controller)%Z.

(** The window of the state is the last execution of its transaction, with
    the count of that execution's controller and the number of children
    captured for it so far. *)
Definition windowTracksExecution (st : Scan.t) : Prop :=
  forall transactionName,
    Scan.currentTransaction st = Some transactionName ->
    exists t controller children,
      ownProperty (Scan.transactions st) transactionName = Some t
      /\ (0 <= Scan.currentTransactionExecutionIndex st)%Z
      /\ controllerOf t (Z.to_nat (Scan.currentTransactionExecutionIndex st))
         = Some controller
      /\ childrenOf t (Z.to_nat (Scan.currentTransactionExecutionIndex st))
         = Some children
      /\ Scan.expectedChildRequestCount st = expectedCount controller
      /\ Scan.collectedChildRequestCount st = arrayLength children.

Definition scanInvariant (st : Scan.t) : Prop :=
  (forall key t, (key, t) ∈ Scan.transactions st -> boundedChildren t)
  /\ windowTracksExecution st.

(** A state that the pass reaches on some file. *)
Definition reachable (st : Scan.t) : Prop :=
  exists cols lines, scanLines cols lines initialScan = Some st.

(** The steps that move the window leave the tallies alone. *)
Definition sameTallies (st st' : Scan.t) : Prop :=
  Scan.allSamples st' = Scan.allSamples st
  /\ Scan.errors st' = Scan.errors st
  /\ Scan.totalSuccessCount st' = Scan.totalSuccessCount st
  /\ Scan.totalErrorCount st' = Scan.totalErrorCount st.

Definition errorsOf (samples : list Sample.t) : list ErrorRecord.t :=
  map errorOf (List.filter countsAsError samples).

Definition countOf (test : Sample.t -> bool) (samples : list Sample.t) : Z :=
  arrayLength (List.filter test samples).

(** *** The pass as a state machine *)

(** The window of a state: the transaction and the execution that capture
    children, the expected and the collected count. *)
Definition windowOf (st : Scan.t)
    : option string * Z * Z * Z :=
  (Scan.currentTransaction st, Scan.currentTransactionExecutionIndex st,
   Scan.expectedChildRequestCount st, Scan.collectedChildRequestCount st).

(** The transaction that a controller row with this name adds an execution
    to: the one of that name, or a new one. *)
Definition transactionFor (transactions : Transactions) (transactionName : string)
    : option Transaction.t :=
  match getProperty transactions transactionName with
  | Own t => Some t
  | Missing => Some (newTransaction transactionName)
  | Inherited => None
  end.

(** What one sample does to the transactions and to the window. *)
Inductive windowStep (st : Scan.t) (sample : Sample.t) (st' : Scan.t) : Prop :=
  | step_open t :
      opensExecution sample = true ->
      transactionFor (Scan.transactions st) (Sample.label sample) = Some t ->
      Scan.transactions st'
      = setProperty (Scan.transactions st) (Sample.label sample)
          (withExecution t sample) ->
      windowOf st'
      = (Some (Sample.label sample), arrayLength (Transaction.samples t),
         expectedCount sample, 0%Z) ->
      windowStep st sample st'
  | step_pass :
      opensExecution sample = false ->
      Scan.transactions st' = Scan.transactions st ->
      windowOf st' = windowOf st \/ Scan.currentTransaction st' = None ->
      windowStep st sample st'
  | step_capture transactionName t children :
      opensExecution sample = false ->
      isChildRequest sample = true ->
      (Scan.collectedChildRequestCount st < Scan.expectedChildRequestCount st)%Z ->
      Scan.currentTransaction st = Some transactionName ->
      ownProperty (Scan.transactions st) transactionName = Some t ->
      get_hole (Transaction.childRequestsByExecution t)
        (Scan.currentTransactionExecutionIndex st) = Some children ->
      Scan.transactions st'
      = setProperty (Scan.transactions st) transactionName
          (withChild t (Scan.currentTransactionExecutionIndex st) children sample) ->
      windowOf st'
      = (Some transactionName, Scan.currentTransactionExecutionIndex st,
         Scan.expectedChildRequestCount st,
         (Scan.collectedChildRequestCount st + 1)%Z) ->
      windowStep st sample st'.

(** *** The scenario file of the specification *)

Definition scenario_header : string :=
  "label,elapsed,success,responseCode,responseMessage,dataType,threadName,timeStamp".

(** The controller row and the child row of the scenario; the specification
    leaves the response codes, the thread name of the controller, the
    response message of the child and the time stamps open. *)
Definition scenario_controller (responseCode threadName timeStamp : csvField)
    : list csvField :=
  [Bare "Login"; Bare "500"; Bare "true"; responseCode;
   Bare "Number of samples in transaction : 1"; Bare ""; threadName; timeStamp].

Definition scenario_child (responseCode responseMessage timeStamp : csvField)
    : list csvField :=
  [Bare "POST /login"; Bare "480"; Bare "true"; responseCode; responseMessage;
   Bare "text"; Bare "Login 1-1"; timeStamp].

Definition threeLines (line1 line2 line3 : string) : string :=
  line1 +:+ String LF (line2 +:+ String LF line3).

Definition scenario_csv : string :=
  threeLines scenario_header
    (writeLine (scenario_controller (Bare "200") (Bare "Login 1-1") (Bare "1700000000000")))
    (writeLine (scenario_child (Bare "200") (Bare "OK") (Bare "1700000000010"))).

(** A file with a failed controller row, a failed request and a successful
    request, and files that are rejected. *)
Definition tally_csv : string :=
  threeLines "label,elapsed,success,responseMessage,dataType"
    "Checkout,900,false,Number of samples in transaction : 2,"
    ("GET /cart,400,false,Internal Server Error,text" +:+ String LF
     "GET /pay,500,true,OK,text").

(** Three requests, of which two succeed. *)
Definition thirds_csv : string :=
  "label,elapsed,success,responseMessage,dataType" +:+ String LF
  ("GET /a,100,true,OK,text" +:+ String LF
   ("GET /b,100,true,OK,text" +:+ String LF
    "GET /c,100,false,Internal Server Error,text")).

Definition headless_csv : string :=
  "name,elapsed" +:+ String LF "Login,500".

(** *** The percentile index in binary64 *)

(** [Math.ceil] of a double that is not negative. *)
Definition ceilOf (x : spec_float) : option Z :=
  match x with
  | S754_zero _ => Some 0%Z
  | S754_finite false m e =>
      Some (if (0 <=? e)%Z then Z.pos m * 2 ^ e else ceilDiv (Z.pos m) (2 ^ (- e)))%Z
  | _ => None
  end.

(** [Math.ceil((p / 100) * n)] as the doubles compute it. *)
Definition ceilOfProduct (p n : Z) : option Z :=
  ceilOf (SF64mul (SF64div (numberOf p) (numberOf 100)) (numberOf n)).

(** *** The shape of a number printed with two decimals *)

Fixpoint allDigits (s : string) : bool :=
  match s with
  | String c r => isDigit c && allDigits r
  | EmptyString => true
  end.

(** At least one digit, a point and exactly two digits. *)
Definition hasTwoDecimals (s : string) : Prop :=
  exists whole d1 d2,
    s = whole +:+ "." +:+ String d1 (String d2 "")
    /\ whole <> "" /\ allDigits whole = true
    /\ isDigit d1 = true /\ isDigit d2 = true.

(** The double is a zero, or is positive and, with its exponent, below
    [2 ^ k]. *)
Definition magnitudeAtMost (x : spec_float) (k : Z) : Prop :=
  match x with
  | S754_zero _ => True
  | S754_finite negative m e =>
      negative = false /\ (Z.pos (digits2_pos m) + e <= k)%Z /\ (e <= k)%Z
  | S754_infinity _ | S754_nan => False
  end.

(** What the rounding of the doubles keeps of a quotient [N / D] that does
    not fit: its integer part, and on which side of the half its fraction
    lies. *)
Definition located (mrs : shr_record) (N D : Z) : Prop :=
  let R := (N - shr_m mrs * D)%Z in
  (0 <= R < D)%Z /\
  match shr_r mrs, shr_s mrs with
  | false, false => R = 0%Z
  | false, true => (0 < 2 * R < D)%Z
  | true, false => (2 * R = D)%Z
  | true, true => (D < 2 * R)%Z
  end.

(** A double that holds a positive integer below 2^53. *)
Definition normalInteger (x : spec_float) : Prop :=
  exists m e,
    x = S754_finite false m e
    /\ Z.pos (digits2_pos m) = 53%Z /\ (-52 <= e <= 0)%Z.

(** A file whose only data row is neither a success nor a counted error. *)
Definition headed_csv : string :=
  "label,elapsed,success" +:+ String LF "Idle,10,false".

(** A field that a line of a file can hold: writable, and without a line
    feed once written. *)
Definition plain (f : csvField) : bool :=
  writable f && lacks LF (writeField f).

(** The scenario file with the open fields filled in, with or without a
    line feed after the last row. *)
Definition scenario_file (controllerCode controllerThread controllerTime
    childCode childMessage childTime : csvField) (finalNewline : bool) : string :=
  threeLines scenario_header
    (writeLine (scenario_controller controllerCode controllerThread controllerTime))
    (writeLine (scenario_child childCode childMessage childTime)
     +:+ (if finalNewline then str LF else "")).

(** ** Concurrency inference: [countThreadInstances] *)

(** One entry of [userTypes]; [threadGroupPatterns] may be left out, and
    then the display name is the only pattern. *)
Module UserType.
Record t := mk {
  key : string;
  displayName : string;
  threadGroupPatterns : option (list string)
}.
End UserType.

(** [allSamples.filter(...)]: the samples with a thread name that contains
    one of the names. *)
Definition samplesMatching (names : list string) (allSamples : list Sample.t)
    : list Sample.t :=
  List.filter
    (fun s =>
       truthy (Sample.threadName s)
       && existsb (includes (Sample.threadName s)) names)
    allSamples.

(** The names that select the samples: the thread-group names of the JMX
    file when there are any, the configured patterns otherwise. *)
Definition selectingNames (userTypeConfig : UserType.t)
    (threadGroupNames : option (list string)) : list string :=
  match threadGroupNames with
  | Some (groupName :: groupNames) => groupName :: groupNames
  | Some [] | None =>
      default [UserType.displayName userTypeConfig]
        (UserType.threadGroupPatterns userTypeConfig)
  end.

(** [new Set(array)]: the distinct elements in the order of their first
    occurrence. *)
Fixpoint distinct_from (seen : list string) (names : list string) : list string :=
  match names with
  | x :: rest =>
      if existsb (String.eqb x) seen then distinct_from seen rest
      else x :: distinct_from (seen ++ [x]) rest
  | [] => []
  end.

Definition distinct (names : list string) : list string := distinct_from [] names.

Definition nonEmptyDigits (s : string) : bool := truthy s && allDigits s.

(** [name.match(/-(\d+)$/)]: the capture of the leftmost match, a dash
    followed by digits up to the end. *)
Fixpoint dashNumberMatch (s : string) : option string :=
  match s with
  | String c r =>
      if Ascii.eqb c "-" && nonEmptyDigits r then Some r else dashNumberMatch r
  | EmptyString => None
  end.

(** [name.match(/\s+(\d+)$/)]: white space, all of it, then digits up to the
    end. *)
Fixpoint spaceNumberMatch (s : string) : option string :=
  match s with
  | String c r =>
      if isWhiteSpace c && nonEmptyDigits (trimStart r) then Some (trimStart r)
      else spaceNumberMatch r
  | EmptyString => None
  end.

(** [parseInt(digits, 10)]. *)
Definition parseInt10 (s : string) : option Z :=
  let '(negative, s) := stripSign (trimStart s) in
  (fun n => if negative : bool then (- n)%Z else n) <$> parseDigits 10 s.

(** The number at the end of a thread name; [None] is the [null] of a name
    without one (the captures are runs of digits, which [parseInt] reads). *)
Definition threadNumber (name : string) : option Z :=
  match dashNumberMatch name with
  | Some digits => parseInt10 digits
  | None =>
      match spaceNumberMatch name with
      | Some digits => parseInt10 digits
      | None => None
      end
  end.

(** [\s*\d+-\d+$] tried at the start of [s]. *)
Definition numberPairTail (s : string) : bool :=
  let s := trimStart s in
  let digits := takeDigits s in
  truthy digits
  && match dropString (String.length digits) s with
     | String "-" r => nonEmptyDigits r
     | _ => false
     end.

(** [threadName.match(/^(.+?)\s*\d+-\d+$/)]: the shortest prefix, of one
    character at least and without a line terminator, that the number pair
    follows. *)
Fixpoint groupMatch_from (group s : string) : option string :=
  if numberPairTail s then Some group
  else
    match s with
    | String c r =>
        if isLineTerminator c then None else groupMatch_from (group +:+ str c) r
    | EmptyString => None
    end.

Definition groupMatch (threadName : string) : option string :=
  match threadName with
  | String c r => if isLineTerminator c then None else groupMatch_from (str c) r
  | EmptyString => None
  end.

(** The key under which a thread name is filed in [threadsByGroup]. *)
Definition groupOf (threadName : string) : string :=
  match groupMatch threadName with
  | Some group => trim group
  | None => threadName
  end.

(** [threadsByGroup]: a [Map] from the name of a group to the [Set] of its
    thread names, both in insertion order. *)
Fixpoint addThread (threadsByGroup : list (string * list string))
    (groupName threadName : string) : list (string * list string) :=
  match threadsByGroup with
  | (g, threads) :: rest =>
      if String.eqb g groupName
      then (g, if existsb (String.eqb threadName) threads
               then threads else threads ++ [threadName]) :: rest
      else (g, threads) :: addThread rest groupName threadName
  | [] => [(groupName, [threadName])]
  end.

Definition groupThreads (uniqueThreadNames : list string)
    : list (string * list string) :=
  fold_left (fun threadsByGroup threadName =>
               addThread threadsByGroup (groupOf threadName) threadName)
    uniqueThreadNames [].

(** [array.map(...).filter((num) => num !== null)]. *)
Definition threadNumbers (names : list string) : list Z :=
  omap threadNumber names.

(** [Math.max(...numbers)] of a non-empty array. *)
Definition maxOf (numbers : list Z) : Z :=
  match numbers with
  | n :: rest => fold_left Z.max rest n
  | [] => 0%Z
  end.

(** What one group adds to the total. *)
Definition groupCount (threads : list string) : Z :=
  match threadNumbers threads with
  | [] => arrayLength threads
  | numbers => maxOf numbers
  end.

(** [x || d] for a number. *)
Definition orNumber (x : option Z) (d : Z) : Z :=
  match x with
  | Some v => if (v =? 0)%Z then d else v
  | None => d
  end.

(** The time stamps at which an instance starts: the first one, and every
    one that follows its predecessor by more than the execution gap. *)
Fixpoint firstTimestamps (timestamps : list Z) (started : bool)
    (lastTimestamp executionGap : Z) : list Z :=
  match timestamps with
  | ts :: rest =>
      (if negb started || (executionGap <? ts - lastTimestamp)%Z then [ts] else [])
      ++ firstTimestamps rest true ts executionGap
  | [] => []
  end.

(** [new Set] of numbers. *)
Fixpoint distinctZ_from (seen : list Z) (l : list Z) : list Z :=
  match l with
  | x :: rest =>
      if existsb (Z.eqb x) seen then distinctZ_from seen rest
      else x :: distinctZ_from (seen ++ [x]) rest
  | [] => []
  end.

(** The order of [samples.sort((a, b) => a.timestamp - b.timestamp)]. *)
Definition byTimestamp (a b : Sample.t) : Prop :=
  (Sample.timestamp a <= Sample.timestamp b)%Z.

#[global] Instance byTimestamp_dec : RelDecision byTimestamp :=
  fun a b => Z.le_dec (Sample.timestamp a) (Sample.timestamp b).

(** The last resort: one thread name without a number; instances are told
    apart by the gaps between their samples. *)
Definition countByTiming (matchingSamples : list Sample.t)
    (uniqueThreadNames : list string) (rampUpWindowMs executionGapMs : Z) : Z :=
  let samples :=
    merge_sort byTimestamp matchingSamples in
  let firstSampleTimestamps :=
    firstTimestamps (map Sample.timestamp samples) false 0 executionGapMs in
  let timeWindows :=
    distinctZ_from [] (map (fun ts => (ts / rampUpWindowMs)%Z) firstSampleTimestamps) in
  Z.max (Z.max (arrayLength timeWindows) (arrayLength uniqueThreadNames)) 1.

(** The count once the distinct thread names are known: the sum over the
    groups when there are several, else the largest thread number, else the
    number of names, else the count by timing. *)
Definition countUnique (uniqueThreadNames : list string)
    (matchingSamples : list Sample.t) (rampUpWindowMs executionGapMs : Z) : Z :=
  let threadsByGroup := groupThreads uniqueThreadNames in
  if (1 <? arrayLength threadsByGroup)%Z then
    fold_left (fun totalCount group => (totalCount + groupCount group.2)%Z)
      threadsByGroup 0%Z
  else
    match threadNumbers uniqueThreadNames with
    | (_ :: _) as numbers => maxOf numbers
    | [] =>
        if (1 <? arrayLength uniqueThreadNames)%Z
        then arrayLength uniqueThreadNames
        else countByTiming matchingSamples uniqueThreadNames
               rampUpWindowMs executionGapMs
    end.

(** [countThreadInstances] once the matching samples are known. *)
Definition countInstances (matchingSamples : list Sample.t)
    (rampUpWindowMs executionGapMs : Z) : Z :=
  if (arrayLength matchingSamples =? 0)%Z then 0%Z
  else
    countUnique (distinct (map Sample.threadName matchingSamples))
      matchingSamples rampUpWindowMs executionGapMs.

Definition countThreadInstances (allSamples : list Sample.t)
    (rampUpWindowMs executionGapMs : Z) (userTypeConfig : UserType.t)
    (threadGroupNames : option (list string)) : Z :=
  countInstances
    (samplesMatching (selectingNames userTypeConfig threadGroupNames) allSamples)
    rampUpWindowMs executionGapMs.

(** *** The scenario of the three coordinators *)

Definition coordinators : list string :=
  ["District Coordinator 1-1"; "District Coordinator 1-2";
   "District Coordinator 1-3"].

(** The thread of number [k] of the first group of coordinators. *)
Definition coordinator (k : Z) : string :=
  "District Coordinator 1-" +:+ decimal k.

Definition coordinatorType : UserType.t :=
  UserType.mk "districtCoordinators" "District Coordinators"
    (Some ["District Coordinator"]).

(** A request of a thread at a time. *)
Definition requestOf (threadName : string) (timestamp : Z) : Sample.t :=
  Sample.mk "GET /home" 120 true "200" "OK" "text" threadName "" 0 0 0 ""
    timestamp.

Definition coordinator_samples : list Sample.t :=
  [requestOf "District Coordinator 1-2" 1700000000000;
   requestOf "School User 1-1" 1700000000100;
   requestOf "District Coordinator 1-1" 1700000000200;
   requestOf "District Coordinator 1-3" 1700000000300;
   requestOf "District Coordinator 1-2" 1700000000400].

(** Two coordinators whose thread numbers are not 1 and 2. *)
Definition sparse_coordinator_samples : list Sample.t :=
  [requestOf (coordinator 7) 1700000000000;
   requestOf "School User 1-9" 1700000000100;
   requestOf (coordinator 2) 1700000000200].

(** A thread name whose thread number is 0. *)
Definition numbered_zero : list Sample.t :=
  [requestOf "District Coordinator 1-0" 1700000000000].

(** A file whose controller row is named like a property that every object
    inherits. *)
Definition inherited_csv : string :=
  threeLines "label,elapsed,success,responseMessage,dataType"
    "constructor,900,true,Number of samples in transaction : 1,"
    "GET /cart,400,true,OK,text".

(** No controller row among the samples bears the name of an inherited
    property. *)
Definition plainNames (samples : list Sample.t) : Prop :=
  forall sample,
    sample ∈ samples -> opensExecution sample = true ->
    existsb (String.eqb (Sample.label sample)) objectPrototypeKeys = false.

(** * Further parts of the program

    The HTML and file-name utilities, the error analysis, the span and the
    duration of the test and the environment read off the URLs, all of
    [src/generateUnifiedReport.js], and the notions in which the properties
    of the whole reconstruction are stated. *)

(** ** Utilities: [escapeHtml] and [sanitizeFilename] *)

Definition APOSTROPHE : ascii := "039".

(** [map[m]] for one of the five characters that the pattern of the
    replacement matches (ampersand, the angle brackets, double quote and
    apostrophe); [None] for a character the pattern passes over. *)
Definition entityOf (c : ascii) : option string :=
  if Ascii.eqb c "&" then Some "&amp;"
  else if Ascii.eqb c "<" then Some "&lt;"
  else if Ascii.eqb c ">" then Some "&gt;"
  else if Ascii.eqb c DQUOTE then Some "&quot;"
  else if Ascii.eqb c APOSTROPHE then Some "&#039;"
  else None.

(** [escapeHtml(text)] for a string [text]. *)
Fixpoint escapeHtml (text : string) : string :=
  match text with
  | String c r => default (str c) (entityOf c) +:+ escapeHtml r
  | EmptyString => EmptyString
  end.

(** The five entities, and the strings in which every ampersand opens one
    of them. *)
Definition entities : list string :=
  ["&amp;"; "&lt;"; "&gt;"; "&quot;"; "&#039;"].

Fixpoint ampersandsOpenEntities (s : string) : bool :=
  match s with
  | String c r =>
      (negb (Ascii.eqb c "&") || existsb (fun e => String.prefix e s) entities)
      && ampersandsOpenEntities r
  | EmptyString => true
  end.

(** A text without any of the five characters. *)
Definition needsNoEscape (text : string) : bool :=
  lacks "&" text && lacks "<" text && lacks ">" text
  && lacks DQUOTE text && lacks APOSTROPHE text.

(** What [[a-z0-9]] matches under the [i] flag: the digits and the letters
    of both cases. *)
Definition isAlphanumeric (c : ascii) : bool :=
  let n := N_of_ascii c in
  (isDigit c || (65 <=? n) && (n <=? 90) || (97 <=? n) && (n <=? 122))%N.

(** [toLowerCase] on one code unit below 256: the capital letters and the
    capital letters of Latin-1 (all of 192..222 but the multiplication sign)
    move up by 32. *)
Definition toLowerCaseChar (c : ascii) : ascii :=
  let n := N_of_ascii c in
  if ((65 <=? n) && (n <=? 90)
      || (192 <=? n) && (n <=? 222) && negb (n =? 215))%N
  then ascii_of_N (n + 32) else c.

Fixpoint mapString (f : ascii -> ascii) (s : string) : string :=
  match s with
  | String c r => String (f c) (mapString f r)
  | EmptyString => EmptyString
  end.

Definition toLowerCase (s : string) : string := mapString toLowerCaseChar s.

(** [name.replace(/[^a-z0-9]/gi, '_').toLowerCase()]. *)
Definition sanitizeFilename (name : string) : string :=
  toLowerCase (mapString (fun c => if isAlphanumeric c then c else "_"%char) name).

Fixpoint allChars (test : ascii -> bool) (s : string) : bool :=
  match s with
  | String c r => test c && allChars test r
  | EmptyString => true
  end.

(** A small letter, a digit or the underscore. *)
Definition isFilenameChar (c : ascii) : bool :=
  let n := N_of_ascii c in
  (isDigit c || (97 <=? n) && (n <=? 122) || (n =? 95))%N.

(** Two characters that [sanitizeFilename] does not tell apart: the same
    letter in either case, the same digit, or any two other characters. *)
Definition sameFilenameChar (c d : ascii) : bool :=
  if isAlphanumeric c
  then isAlphanumeric d && Ascii.eqb (toLowerCaseChar c) (toLowerCaseChar d)
  else negb (isAlphanumeric d).

(** ** Notions used to state properties of the statistics *)

(** [v] is a value of the list at the rank of the percentage [p]: [p]
    percent of the values at least are not above it, and fewer than [p]
    percent are below it. *)
Definition atRank (values : list Z) (p v : Z) : Prop :=
  v ∈ values
  /\ (p * arrayLength values
      <= 100 * arrayLength (List.filter (fun x => x <=? v) values))%Z
  /\ (100 * arrayLength (List.filter (fun x => x <? v) values)
      < p * arrayLength values)%Z.

(** ** Notions used to state properties of the tokenizer *)

Definition CR : ascii := "013".

Fixpoint countChar (c : ascii) (s : string) : nat :=
  match s with
  | String d r => (if Ascii.eqb d c then 1 else 0) + countChar c r
  | EmptyString => 0
  end.

(** ** Error analysis: [analyzeErrors] *)

(** [x || d] for strings. *)
Definition orString (x d : string) : string := if truthy x then x else d.

(** An object literal used as a dictionary: its own properties in the order
    in which they were created. *)
Fixpoint lookupOwn {A} (object : list (string * A)) (key : string) : option A :=
  match object with
  | (k, v) :: rest => if String.eqb k key then Some v else lookupOwn rest key
  | [] => None
  end.

(** [object[key] = v]. *)
Fixpoint assign {A} (object : list (string * A)) (key : string) (v : A)
    : list (string * A) :=
  match object with
  | (k, v') :: rest =>
      if String.eqb k key then (k, v) :: rest
      else (k, v') :: assign rest key v
  | [] => [(key, v)]
  end.

(** The key names a property that the object inherits; the inherited value
    is a function or an object, hence truthy. *)
Definition isInherited (key : string) : bool :=
  existsb (String.eqb key) objectPrototypeKeys.

Module ErrorType.
Record t := mk {
  code : string;
  count : Z;
  message : string
}.
End ErrorType.

Module SamplerErrors.
Record t := mk {
  sampler : string;
  count : Z;
  errorType : string;
  message : string
}.
End SamplerErrors.

(** [error.responseCode || 'Unknown']. *)
Definition errorTypeOf (error : ErrorRecord.t) : string :=
  orString (ErrorRecord.responseCode error) "Unknown".

(** The two statements of the loop for [errorsByType]: the entry is created
    with a count of 0 unless [errorsByType[errorType]] is truthy, and its
    count goes up by one. Under an inherited name no entry is created, and
    the increment lands on the inherited value, which the result does not
    show. *)
Definition countErrorType (errorsByType : list (string * ErrorType.t))
    (error : ErrorRecord.t) : list (string * ErrorType.t) :=
  let errorType := errorTypeOf error in
  let errorsByType :=
    match lookupOwn errorsByType errorType with
    | Some _ => errorsByType
    | None =>
        if isInherited errorType then errorsByType
        else assign errorsByType errorType
               (ErrorType.mk errorType 0
                  (orString (ErrorRecord.responseMessage error) "No message"))
    end in
  match lookupOwn errorsByType errorType with
  | Some entry =>
      assign errorsByType errorType
        (ErrorType.mk (ErrorType.code entry) (ErrorType.count entry + 1)
           (ErrorType.message entry))
  | None => errorsByType
  end.

(** The same for [errorsBySampler], under the label of the error. *)
Definition countSampler (errorsBySampler : list (string * SamplerErrors.t))
    (error : ErrorRecord.t) : list (string * SamplerErrors.t) :=
  let sampler := ErrorRecord.label error in
  let errorsBySampler :=
    match lookupOwn errorsBySampler sampler with
    | Some _ => errorsBySampler
    | None =>
        if isInherited sampler then errorsBySampler
        else assign errorsBySampler sampler
               (SamplerErrors.mk sampler 0 (errorTypeOf error)
                  (orString (ErrorRecord.failureMessage error)
                     (orString (ErrorRecord.responseMessage error) "")))
    end in
  match lookupOwn errorsBySampler sampler with
  | Some entry =>
      assign errorsBySampler sampler
        (SamplerErrors.mk (SamplerErrors.sampler entry)
           (SamplerErrors.count entry + 1)
           (SamplerErrors.errorType entry) (SamplerErrors.message entry))
  | None => errorsBySampler
  end.

(** The keys that an object lists first, in ascending order: the canonical
    decimal numerals of the integers from 0 to 2^32 - 2. *)
Definition isArrayIndex (key : string) : bool :=
  match key with
  | EmptyString => false
  | String c rest =>
      allDigits key
      && (negb (Ascii.eqb c "0") || String.eqb rest "")
      && (default 0 (digits_loop isDigit digitValue 10 key None) <=? 4294967294)%Z
  end.

Definition indexOfKey (key : string) : Z :=
  default 0%Z (digits_loop isDigit digitValue 10 key None).

Definition byIndex {A} (a b : string * A) : Prop :=
  (indexOfKey a.1 <= indexOfKey b.1)%Z.

#[global] Instance byIndex_dec {A} : RelDecision (@byIndex A) :=
  fun a b => Z.le_dec (indexOfKey a.1) (indexOfKey b.1).

(** [Object.values(object)]: the values under the integer keys in ascending
    order of the keys, then the other values in the order of creation. *)
Definition objectValues {A} (object : list (string * A)) : list A :=
  map snd
    (merge_sort byIndex (List.filter (fun p => isArrayIndex p.1) object)
     ++ List.filter (fun p => negb (isArrayIndex p.1)) object).

(** [array.sort((a, b) => b.count - a.count)]: by descending count, the
    entries of the same count staying in their order (the sort is stable). *)
Fixpoint insertByCount (a : SamplerErrors.t) (sorted : list SamplerErrors.t)
    : list SamplerErrors.t :=
  match sorted with
  | b :: rest =>
      if (SamplerErrors.count b <=? SamplerErrors.count a)%Z
      then a :: sorted
      else b :: insertByCount a rest
  | [] => [a]
  end.

Definition sortByCount (entries : list SamplerErrors.t) : list SamplerErrors.t :=
  foldr insertByCount [] entries.

Module ErrorAnalysis.
Record t := mk {
  hasErrors : bool;
  totalErrors : Z;
  errorsByType : list (string * ErrorType.t);
  topErrorsBySampler : list SamplerErrors.t
}.
End ErrorAnalysis.

Definition analyzeErrors (errors : list ErrorRecord.t) : ErrorAnalysis.t :=
  if (arrayLength errors =? 0)%Z then ErrorAnalysis.mk false 0 [] []
  else
    let errorsByType := fold_left countErrorType errors [] in
    let errorsBySampler := fold_left countSampler errors [] in
    ErrorAnalysis.mk true (arrayLength errors) errorsByType
      (take 5 (sortByCount (objectValues errorsBySampler))).

(** The errors of a type, and those of a sampler. *)
Definition errorsOfType (code : string) (errors : list ErrorRecord.t)
    : list ErrorRecord.t :=
  List.filter (fun error => String.eqb (errorTypeOf error) code) errors.

Definition errorsOfSampler (sampler : string) (errors : list ErrorRecord.t)
    : list ErrorRecord.t :=
  List.filter (fun error => String.eqb (ErrorRecord.label error) sampler) errors.

(** The entry that the analysis holds for a sampler with these errors, the
    first of which is [first]. *)
Definition samplerEntry (sampler : string) (first : ErrorRecord.t)
    (errors : list ErrorRecord.t) : SamplerErrors.t :=
  SamplerErrors.mk sampler (arrayLength errors) (errorTypeOf first)
    (orString (ErrorRecord.failureMessage first)
       (orString (ErrorRecord.responseMessage first) "")).

(** The sum of the counts of the types. *)
Definition totalCount (errorsByType : list (string * ErrorType.t)) : Z :=
  foldr (fun p total => (ErrorType.count p.2 + total)%Z) 0%Z errorsByType.

(** Three errors of two samplers, one of them without a response code. *)
Definition three_errors : list ErrorRecord.t :=
  [ErrorRecord.mk "GET /cart" "500" "Internal Server Error" "";
   ErrorRecord.mk "GET /pay" "" "" "timed out";
   ErrorRecord.mk "GET /cart" "500" "Internal Server Error" ""].

(** ** Notions used to state the reconstruction as a whole *)

(** The rows of the file cut at the transaction-controller rows: every
    controller row with the rows that follow it up to the next controller
    row. A controller row starts a segment; any other row joins the last
    segment, if there is one. *)
Definition addRow (segs : list (Sample.t * list Sample.t)) (row : Sample.t)
    : list (Sample.t * list Sample.t) :=
  if opensExecution row then segs ++ [(row, [])]
  else alter (fun seg => (seg.1, seg.2 ++ [row])) (pred (length segs)) segs.

Definition segments (rows : list Sample.t) : list (Sample.t * list Sample.t) :=
  fold_left addRow rows [].

(** The children of the execution that [controller] opens, out of the rows
    that follow it: the first child requests, as many as the controller
    announces; none under the empty name, which opens no window. *)
Definition capturedOf (controller : Sample.t) (following : list Sample.t)
    : list Sample.t :=
  if truthy (Sample.label controller)
  then take (Z.to_nat (expectedCount controller))
         (List.filter isChildRequest following)
  else [].

(** The executions of the transaction of a name: its controller rows, each
    with its children. *)
Definition executionsIn (name : string) (segs : list (Sample.t * list Sample.t))
    : list (Sample.t * list Sample.t) :=
  map (fun seg => (seg.1, capturedOf seg.1 seg.2))
    (List.filter (fun seg => String.eqb (Sample.label seg.1) name) segs).

Definition executionsOf (name : string) (rows : list Sample.t)
    : list (Sample.t * list Sample.t) :=
  executionsIn name (segments rows).

(** The transaction that a list of executions amounts to. *)
Definition transactionOf (name : string)
    (executions : list (Sample.t * list Sample.t)) : Transaction.t :=
  let controllers := map fst executions in
  Transaction.mk name controllers
    (arrayLength controllers)
    (countOf Sample.success controllers)
    (countOf (fun sample => negb (Sample.success sample)) controllers)
    (concat (map snd executions))
    (map (fun execution => Some execution.2) executions).

(** What [transactions[name]] is to hold once the rows are read. *)
Definition transactionSpec (name : string) (rows : list Sample.t)
    : option Transaction.t :=
  match executionsOf name rows with
  | [] => None
  | executions => Some (transactionOf name executions)
  end.

(** The window once the rows are read: that of the last segment, still the
    one its controller row set up but for the children counted since, or
    closed for good after the quota was met. *)
Definition windowSpec (rows : list Sample.t) (st : Scan.t) : Prop :=
  match last (segments rows) with
  | None => Scan.currentTransaction st = None
  | Some (controller, following) =>
      windowOf st
      = (Some (Sample.label controller),
         (arrayLength (executionsOf (Sample.label controller) rows) - 1)%Z,
         expectedCount controller,
         arrayLength (capturedOf controller following))
      \/ Scan.currentTransaction st = None
         /\ (Z.to_nat (expectedCount controller)
             <= length (List.filter isChildRequest following))%nat
  end.

(** The state of the pass once the rows are read. *)
Definition reconstructs (rows : list Sample.t) (st : Scan.t) : Prop :=
  (forall name, ownProperty (Scan.transactions st) name = transactionSpec name rows)
  /\ windowSpec rows st
  /\ NoDup (map fst (Scan.transactions st))
  /\ Scan.samples st = List.filter opensExecution rows.

(** The sum of the [totalSamples] of the transactions of a result. *)
Definition totalExecutions (transactions : list (string * Summary.t)) : Z :=
  foldr (fun p total =>
           (Transaction.totalSamples (Summary.transaction p.2) + total)%Z)
    0%Z transactions.

(** ** The span of the test *)


(** A number that is an integer, [-Infinity] or [NaN]. *)
Inductive number :=
  | Num (n : Z)
  | NegInfinity
  | NotANumber.









(** ** Notions used to state properties of the concurrency inference *)

(** The groups of [threadsByGroup] read off the thread names: the groups
    in the order of their first thread, each with its threads in order. *)
Definition groupsOf (uniqueThreadNames : list string) : list (string * list string) :=
  map (fun group =>
         (group,
          List.filter (fun name => String.eqb (groupOf name) group)
            uniqueThreadNames))
    (distinct (map groupOf uniqueThreadNames)).

(** The number of the pauses longer than the gap between one time stamp
    and the next. *)
Fixpoint longPauses (executionGapMs : Z) (timestamps : list Z) : Z :=
  match timestamps with
  | a :: (b :: _) as rest =>
      ((if executionGapMs <? b - a then 1 else 0)
       + longPauses executionGapMs rest)%Z
  | _ => 0%Z
  end.

(** The samples of one thread, without a thread number, that pauses for a
    minute between two bursts. *)
Definition paused_samples : list Sample.t :=
  [requestOf "GT Admin" 1700000000000;
   requestOf "GT Admin" 1700000060500;
   requestOf "GT Admin" 1700000000400;
   requestOf "GT Admin" 1700000061000].

Definition adminType : UserType.t :=
  UserType.mk "gtAdmins" "GT Admins" (Some ["GT Admin"; "District GT Admin"]).

(** ** The environment of the test: the end of [extractUserConfiguration] *)

(** The class [\w]: letters, digits and the underscore. *)
Definition isWordChar (c : ascii) : bool :=
  isAlphanumeric c || Ascii.eqb c "_".

Fixpoint takeWord (s : string) : string :=
  match s with
  | String c r => if isWordChar c then String c (takeWord r) else EmptyString
  | EmptyString => EmptyString
  end.

(** [(\w+)\.azurewebsites\.net] tried at the start of [s]: the word is
    followed by a point, which is no word character, so that the greedy
    match is the only one. *)
Definition hostTail (s : string) : option string :=
  let word := takeWord s in
  if truthy word
     && String.prefix ".azurewebsites.net" (dropString (String.length word) s)
  then Some word else None.

(** The default pattern, [app-(?:ui-)?(\w+)\.azurewebsites\.net], tried at
    the start of [s]: first with the optional group, then without it. *)
Definition environmentAt (s : string) : option string :=
  if String.prefix "app-" s then
    let rest := dropString 4 s in
    match (if String.prefix "ui-" rest then hostTail (dropString 3 rest) else None) with
    | Some word => Some word
    | None => hostTail rest
    end
  else None.

(** [url.match(envRegex)]: the capture of the leftmost match. *)
Fixpoint environmentMatch (url : string) : option string :=
  match environmentAt url with
  | Some word => Some word
  | None =>
      match url with
      | String _ r => environmentMatch r
      | EmptyString => None
      end
  end.

(** [toUpperCase] on the characters of [\w], the only ones it is applied
    to: the small letters become capitals. *)
Definition toUpperCaseChar (c : ascii) : ascii :=
  let n := N_of_ascii c in
  if ((97 <=? n) && (n <=? 122))%N then ascii_of_N (n - 32) else c.

Definition toUpperCase (s : string) : string := mapString toUpperCaseChar s.

(** [config.environment] for a configuration without a pattern of its own:
    the capture, in capitals, of the first URL of an Azure web site that
    matches the default pattern. *)
Fixpoint environmentOf (allSamples : list Sample.t) : string :=
  match allSamples with
  | sample :: rest =>
      if truthy (Sample.url sample)
         && includes (Sample.url sample) "azurewebsites.net"
      then
        match environmentMatch (Sample.url sample) with
        | Some word => toUpperCase word
        | None => environmentOf rest
        end
      else environmentOf rest
  | [] => "Unknown"
  end.

(** A capital letter, a digit or the underscore. *)
Definition isUpperWordChar (c : ascii) : bool :=
  let n := N_of_ascii c in
  (isDigit c || (65 <=? n) && (n <=? 90) || (n =? 95))%N.

(** A request to a URL. *)
Definition requestTo (url : string) : Sample.t :=
  Sample.mk "GET /home" 120 true "200" "OK" "text" "GT Admin 1-1" "" 0 0 0 url 0.

(** * Properties *)

(** *** Lemmas on strings *)

Lemma append_cons c s t : String c s +:+ t = String c (s +:+ t).
Proof. reflexivity. Qed.

Lemma append_nil_l s : "" +:+ s = s.
Proof. reflexivity. Qed.

Lemma append_nil_r s : s +:+ "" = s.
Proof. induction s as [|c s IH]; [reflexivity|]. by rewrite append_cons, IH. Qed.

Lemma append_assoc s t u : (s +:+ t) +:+ u = s +:+ (t +:+ u).
Proof. induction s as [|c s IH]; [reflexivity|]. by rewrite !append_cons, IH. Qed.

Lemma append_snoc s c t : (s +:+ str c) +:+ t = s +:+ String c t.
Proof. by rewrite append_assoc. Qed.

(** *** The tokenizer on written fields *)

Lemma loop_bare v rest result current :
  lacks COMMA v = true -> lacks DQUOTE v = true ->
  parseCSVLine_loop (v +:+ rest) result current false
  = parseCSVLine_loop rest result (current +:+ v) false.
Proof.
  revert current. induction v as [|c v IH]; intros current Hc Hq.
  - by rewrite append_nil_l, append_nil_r.
  - cbn [lacks] in Hc, Hq. apply andb_prop in Hc as [Hc1 Hc2].
    apply andb_prop in Hq as [Hq1 Hq2].
    apply negb_true_iff in Hc1, Hq1.
    rewrite append_cons. cbn [parseCSVLine_loop].
    rewrite Hq1, Hc1. cbn [andb].
    rewrite IH by assumption. by rewrite append_snoc.
Qed.

Lemma loop_inside_quotes v rest result current :
  startsWithQuote rest = false ->
  parseCSVLine_loop (doubleQuotes v +:+ String DQUOTE rest) result current true
  = parseCSVLine_loop rest result (current +:+ v) false.
Proof.
  intros Hrest. revert current. induction v as [|c v IH]; intros current.
  - rewrite append_nil_r. cbn [doubleQuotes]. rewrite append_nil_l.
    cbn [parseCSVLine_loop]. rewrite Ascii.eqb_refl.
    destruct rest as [|d rest]; [reflexivity|].
    cbn [startsWithQuote] in Hrest. by rewrite Hrest.
  - cbn [doubleQuotes]. destruct (Ascii.eqb c DQUOTE) eqn:Hc.
    + apply Ascii.eqb_eq in Hc as ->.
      rewrite !append_cons. cbn [parseCSVLine_loop]. rewrite Ascii.eqb_refl.
      rewrite IH. by rewrite append_snoc.
    + rewrite append_cons. cbn [parseCSVLine_loop]. rewrite Hc.
      rewrite andb_false_r. rewrite IH. by rewrite append_snoc.
Qed.

Lemma loop_unterminated v result current :
  lacks DQUOTE v = true ->
  parseCSVLine_loop v result current true = result ++ [current +:+ v].
Proof.
  revert current. induction v as [|c v IH]; intros current Hq.
  - by rewrite append_nil_r.
  - cbn [lacks] in Hq. apply andb_prop in Hq as [Hq1 Hq2].
    apply negb_true_iff in Hq1.
    cbn [parseCSVLine_loop]. rewrite Hq1, andb_false_r.
    rewrite IH by assumption. by rewrite append_snoc.
Qed.

Lemma loop_field f rest result :
  writable f = true -> startsWithQuote rest = false ->
  parseCSVLine_loop (writeField f +:+ rest) result "" false
  = parseCSVLine_loop rest result (fieldValue f) false.
Proof.
  intros Hw Hrest. destruct f as [v|v]; cbn [writeField fieldValue].
  - cbn [writable] in Hw. apply andb_prop in Hw as [Hc Hq].
    by rewrite loop_bare.
  - rewrite append_cons. cbn [parseCSVLine_loop]. rewrite Ascii.eqb_refl.
    cbn [negb]. rewrite append_snoc.
    by rewrite loop_inside_quotes.
Qed.

Lemma writeLine_cons f g fields :
  writeLine (f :: g :: fields)
  = writeField f +:+ String COMMA (writeLine (g :: fields)).
Proof. reflexivity. Qed.

Lemma loop_comma rest result current :
  parseCSVLine_loop (String COMMA rest) result current false
  = parseCSVLine_loop rest (result ++ [current]) "" false.
Proof. reflexivity. Qed.

Lemma loop_fields f fields result :
  writable f = true -> forallb writable fields = true ->
  parseCSVLine_loop (writeLine (f :: fields)) result "" false
  = result ++ map fieldValue (f :: fields).
Proof.
  revert f result. induction fields as [|g fields IH]; intros f result Hf Hfs.
  - change (writeLine [f]) with (writeField f).
    rewrite <- (append_nil_r (writeField f)), loop_field by done.
    reflexivity.
  - cbn [forallb] in Hfs. apply andb_prop in Hfs as [Hg Hfs].
    rewrite writeLine_cons, loop_field, loop_comma by done.
    rewrite IH by assumption. cbn [map]. by rewrite <- app_assoc.
Qed.

Lemma writeLineOpen_cons f fields v :
  writeLineOpen (f :: fields) v
  = writeField f +:+ String COMMA (writeLineOpen fields v).
Proof.
  unfold writeLineOpen. cbn [map app String.concat].
  by destruct (map writeField fields ++ [String DQUOTE v]) eqn:E;
    [destruct (map writeField fields)|].
Qed.

Lemma loop_fields_unterminated fields v result :
  forallb writable fields = true -> lacks DQUOTE v = true ->
  parseCSVLine_loop (writeLineOpen fields v) result "" false
  = result ++ map fieldValue fields ++ [v].
Proof.
  revert result. induction fields as [|g fields IH]; intros result Hfs Hv.
  - unfold writeLineOpen. cbn [map app String.concat parseCSVLine_loop].
    rewrite Ascii.eqb_refl. cbn [negb]. by rewrite loop_unterminated.
  - cbn [forallb] in Hfs. apply andb_prop in Hfs as [Hg Hfs].
    rewrite writeLineOpen_cons, loop_field, loop_comma by done.
    rewrite IH by assumption. cbn [map]. by rewrite <- app_assoc.
Qed.

(** C7: [parseCSVLine] splits a line on the commas outside double quotes:
    written fields come back as their values, a quoted field keeps its
    commas and has every doubled double quote turned into one; a quote that
    is opened and never closed takes the rest of the line into the last
    field; the function is total, so nothing is raised; and the scenario line
    gives the single field [a,"b",c]. *)
Theorem parseCSVLine_tokenizes :
  (forall f fields,
      writable f = true -> forallb writable fields = true ->
      parseCSVLine (writeLine (f :: fields)) = map fieldValue (f :: fields))
  /\ (forall fields v,
      forallb writable fields = true -> lacks DQUOTE v = true ->
      parseCSVLine (writeLineOpen fields v) = map fieldValue fields ++ [v])
  /\ parseCSVLine scenario_line = [scenario_field].
Proof.
  split; [|split].
  - intros f fields Hf Hfs. unfold parseCSVLine. by rewrite loop_fields.
  - intros fields v Hfs Hv. unfold parseCSVLine.
    by rewrite loop_fields_unterminated.
  - reflexivity.
Qed.

Lemma parseCSVLine_tokenizes_witness :
  parseCSVLine (writeLine [Bare "x"; Quoted "y,z"; Quoted scenario_field])
  = ["x"; "y,z"; scenario_field]
  /\ parseCSVLine (writeLineOpen [Bare "x"] "y,z") = ["x"; "y,z"].
Proof.
  split.
  - apply (proj1 parseCSVLine_tokenizes); reflexivity.
  - apply (proj1 (proj2 parseCSVLine_tokenizes)); reflexivity.
Defined.

(** ** Integer quotients *)

Section quotients.
Local Open Scope Z_scope.

Lemma ceilDiv_spec a b : 0 < b -> b * (ceilDiv a b - 1) < a <= b * ceilDiv a b.
Proof.
  intros Hb. unfold ceilDiv.
  pose proof (Z.div_mod (- a) b ltac:(lia)).
  pose proof (Z.mod_pos_bound (- a) b Hb). lia.
Qed.

Lemma ceilDiv_mono a a' b : 0 < b -> a <= a' -> ceilDiv a b <= ceilDiv a' b.
Proof.
  intros Hb Ha. unfold ceilDiv.
  enough ((- a') / b <= (- a) / b) by lia.
  apply Z.div_le_mono; lia.
Qed.

Lemma roundDiv_spec a b :
  0 < b -> b * (2 * roundDiv a b - 1) <= 2 * a < b * (2 * roundDiv a b + 1).
Proof.
  intros Hb. unfold roundDiv.
  pose proof (Z.div_mod (2 * a + b) (2 * b) ltac:(lia)).
  pose proof (Z.mod_pos_bound (2 * a + b) (2 * b) ltac:(lia)). lia.
Qed.

Lemma roundDiv_between a b lo hi :
  0 < b -> b * lo <= a <= b * hi -> lo <= roundDiv a b <= hi.
Proof.
  intros Hb [Hlo Hhi]. pose proof (roundDiv_spec a b Hb). nia.
Qed.

End quotients.

(** ** Binary64 arithmetic: sums, quotients and products as the doubles
    round them *)

Section binary64.
Local Open Scope Z_scope.

Lemma digits2_pos_bounds p :
  2 ^ (Z.pos (digits2_pos p) - 1) <= Z.pos p < 2 ^ Z.pos (digits2_pos p).
Proof.
  induction p as [p IH|p IH|]; cbn [digits2_pos].
  - rewrite Pos2Z.inj_succ. replace (Z.succ (Z.pos (digits2_pos p)) - 1)
      with (Z.succ (Z.pos (digits2_pos p) - 1)) by lia.
    rewrite !Z.pow_succ_r by lia. lia.
  - rewrite Pos2Z.inj_succ. replace (Z.succ (Z.pos (digits2_pos p)) - 1)
      with (Z.succ (Z.pos (digits2_pos p) - 1)) by lia.
    rewrite !Z.pow_succ_r by lia. lia.
  - done.
Qed.

Lemma Zdigits2_bounds m : 0 < m -> 2 ^ (Zdigits2 m - 1) <= m < 2 ^ Zdigits2 m.
Proof. destruct m as [|p|p]; [lia| |lia]. intros _. apply digits2_pos_bounds. Qed.

Lemma Zdigits2_nonneg m : 0 <= Zdigits2 m.
Proof. by destruct m. Qed.

Lemma Zdigits2_le m k : 0 <= m -> 0 <= k -> m < 2 ^ k -> Zdigits2 m <= k.
Proof.
  intros Hm Hk Hlt. destruct (decide (m = 0)) as [->|Hne]; [done|].
  destruct (Zdigits2_bounds m ltac:(lia)) as [Hlo _].
  pose proof (Zdigits2_nonneg m).
  destruct (decide (Zdigits2 m <= k)) as [|Hgt]; [done|].
  assert (2 ^ k <= 2 ^ (Zdigits2 m - 1)) by (apply Z.pow_le_mono_r; lia). lia.
Qed.

Lemma shr_1_m mrs : 0 <= shr_m mrs -> shr_m (shr_1 mrs) = shr_m mrs / 2.
Proof.
  destruct mrs as [m r s]. cbn [shr_m shr_1]. intros Hm.
  rewrite <- Z.div2_div. by destruct m as [|[p|p|]|p].
Qed.

Lemma pow2_pos k : 0 < 2 ^ k \/ k < 0.
Proof. destruct (Z.lt_ge_cases k 0); [by right|left]. by apply Z.pow_pos_nonneg. Qed.

Lemma iter_shr_1_m p mrs :
  0 <= shr_m mrs ->
  shr_m (SpecFloat.iter_pos shr_1 p mrs) = shr_m mrs / 2 ^ Z.pos p.
Proof.
  assert (forall q, 0 < 2 ^ Z.pos q) as Hpow by (intros; by apply Z.pow_pos_nonneg).
  revert mrs. induction p as [p IH|p IH|]; intros mrs Hm; cbn [SpecFloat.iter_pos].
  - assert (0 <= shr_m (shr_1 mrs)) as H1.
    { rewrite shr_1_m by done. apply Z.div_pos; lia. }
    assert (0 <= shr_m (SpecFloat.iter_pos shr_1 p (shr_1 mrs))) as H2.
    { rewrite IH by done. apply Z.div_pos; [lia|apply Hpow]. }
    rewrite IH, IH, shr_1_m by done.
    pose proof (Hpow p).
    rewrite !Z.div_div by lia. f_equal.
    replace (Z.pos p~1) with (1 + Z.pos p + Z.pos p) by lia.
    rewrite !Z.pow_add_r by lia. lia.
  - assert (0 <= shr_m (SpecFloat.iter_pos shr_1 p mrs)) as H2.
    { rewrite IH by done. apply Z.div_pos; [lia|apply Hpow]. }
    rewrite IH, IH by done. pose proof (Hpow p).
    rewrite !Z.div_div by lia. f_equal.
    replace (Z.pos p~0) with (Z.pos p + Z.pos p) by lia.
    rewrite !Z.pow_add_r by lia. lia.
  - by apply shr_1_m.
Qed.

Lemma shr_spec mrs e n mrs' e' :
  shr mrs e n = (mrs', e') -> 0 <= shr_m mrs ->
  shr_m mrs' = shr_m mrs / 2 ^ Z.max 0 n /\ e' = e + Z.max 0 n.
Proof.
  unfold shr. intros H Hm. destruct n as [|p|p]; simplify_eq.
  - by rewrite Z.div_1_r, Z.add_0_r.
  - rewrite Z.max_r by lia. split; [by apply iter_shr_1_m|done].
  - rewrite Z.max_l by lia. by rewrite Z.div_1_r, Z.add_0_r.
Qed.

Lemma round_nearest_even_bounds m l :
  m <= round_nearest_even m l <= m + 1.
Proof. unfold round_nearest_even. repeat case_match; lia. Qed.

Lemma shr_record_of_loc_m m l : shr_m (shr_record_of_loc m l) = m.
Proof. by destruct l as [|[]]. Qed.

Lemma Zdigits2_div_pow2 m s :
  0 <= m -> 0 <= s -> 0 < m / 2 ^ s -> Zdigits2 (m / 2 ^ s) + s <= Zdigits2 m.
Proof.
  intros Hm Hs Hq.
  assert (0 < 2 ^ s) as Hpow by (by apply Z.pow_pos_nonneg).
  assert (0 < m) as Hmpos.
  { destruct (decide (m = 0)) as [->|]; [|lia]. by rewrite Z.div_0_l in Hq by lia. }
  destruct (Zdigits2_bounds _ Hq) as [Hlo _].
  destruct (Zdigits2_bounds _ Hmpos) as [_ Hhi].
  pose proof (Z.mul_div_le m (2 ^ s) Hpow) as Hle.
  pose proof (Zdigits2_nonneg (m / 2 ^ s)). pose proof (Zdigits2_nonneg m).
  assert (1 <= Zdigits2 (m / 2 ^ s)).
  { destruct (m / 2 ^ s) as [|q|q]; try lia. cbn. lia. }
  assert (2 ^ (Zdigits2 (m / 2 ^ s) - 1 + s) < 2 ^ Zdigits2 m) as Hlt.
  { rewrite Z.pow_add_r by lia. nia. }
  apply Z.pow_lt_mono_r_iff in Hlt; lia.
Qed.

Lemma Zdigits2_succ_round m m1 :
  0 <= m -> m <= m1 <= m + 1 -> Zdigits2 m1 <= Zdigits2 m + 1.
Proof.
  intros Hm Hm1. pose proof (Zdigits2_nonneg m).
  apply Zdigits2_le; [lia..|].
  destruct (decide (m = 0)) as [->|Hne].
  - cbn. lia.
  - destruct (Zdigits2_bounds m ltac:(lia)) as [_ Hhi].
    rewrite Z.pow_add_r, Z.pow_1_r by lia. lia.
Qed.

Lemma fexp_le k : fexp prec emax k = Z.max (k - 53) (-1074).
Proof. reflexivity. Qed.

Lemma binary_round_aux_bound mx ex lx K :
  0 <= mx -> Zdigits2 mx + ex <= K -> ex <= K -> -1000 <= K <= 970 ->
  magnitudeAtMost (binary_round_aux prec emax false mx ex lx) (K + 1).
Proof.
  intros Hmx Hmag Hex HK. unfold binary_round_aux, shr_fexp.
  rewrite !fexp_le.
  destruct (shr (shr_record_of_loc mx lx) ex _) as [r1 e1] eqn:H1.
  apply shr_spec in H1 as [Hm1 He1]; rewrite shr_record_of_loc_m in *; [|done].
  remember (Z.max 0 (Z.max (Zdigits2 mx + ex - 53) (-1074) - ex)) as s1 eqn:Hs1.
  set (m1 := round_nearest_even (shr_m r1) (loc_of_shr_record r1)).
  pose proof (round_nearest_even_bounds (shr_m r1) (loc_of_shr_record r1)) as Hround.
  fold m1 in Hround. clearbody m1.
  assert (0 < 2 ^ s1) as Hpow1 by (apply Z.pow_pos_nonneg; lia).
  assert (0 <= shr_m r1) as Hr1 by (rewrite Hm1; apply Z.div_pos; lia).
  pose proof (Zdigits2_nonneg mx) as Hdmx.
  assert (e1 <= K) as He1K by lia.
  assert (Zdigits2 m1 + e1 <= K + 1) as Hmag1.
  { pose proof (Zdigits2_succ_round _ _ Hr1 Hround) as Hsucc.
    destruct (decide (shr_m r1 = 0)) as [Hzero|Hpos].
    - rewrite Hzero in Hsucc. cbn in Hsucc. lia.
    - pose proof (Zdigits2_div_pow2 mx s1 Hmx ltac:(lia) ltac:(lia)) as Hdiv.
      rewrite <- Hm1 in Hdiv. lia. }
  destruct (shr (shr_record_of_loc m1 loc_Exact) e1 _) as [r2 e2] eqn:H2.
  apply shr_spec in H2 as [Hm2 He2]; rewrite shr_record_of_loc_m in *; [|lia].
  rewrite fexp_le in Hm2, He2.
  remember (Z.max 0 (Z.max (Zdigits2 m1 + e1 - 53) (-1074) - e1)) as s2 eqn:Hs2.
  assert (0 < 2 ^ s2) as Hpow2 by (apply Z.pow_pos_nonneg; lia).
  assert (0 <= shr_m r2) as Hr2 by (rewrite Hm2; apply Z.div_pos; lia).
  destruct (shr_m r2) as [|p|p] eqn:Hp; [done| |exfalso; lia].

  assert (e2 <= K) as He2K by lia.
  rewrite (proj2 (Z.leb_le e2 (emax - prec))) by (change (emax - prec) with 971; lia).
  cbn [magnitudeAtMost]. split; [done|]. split; [|lia].
  pose proof (Zdigits2_div_pow2 m1 s2 ltac:(lia) ltac:(lia) ltac:(lia)) as Hdiv.
  rewrite <- Hm2 in Hdiv. cbn [Zdigits2] in Hdiv. lia.
Qed.

Lemma digits2_pos_iter_xO p d :
  digits2_pos (Pos.iter xO p d) = (digits2_pos p + d)%positive.
Proof.
  induction d as [|d IH] using Pos.peano_ind.
  - cbn. lia.
  - rewrite Pos.iter_succ. cbn [digits2_pos]. rewrite IH. lia.
Qed.

Lemma binary_round_aux_canonical m e :
  Z.pos (digits2_pos m) = 53 -> -1074 <= e <= 971 ->
  binary_round_aux prec emax false (Z.pos m) e loc_Exact = S754_finite false m e.
Proof.
  intros Hd He. unfold binary_round_aux, shr_fexp.
  cbn [Zdigits2]. rewrite Hd, fexp_le.
  replace (Z.max (53 + e - 53) (-1074) - e) with 0 by lia.
  cbn [shr shr_record_of_loc shr_m loc_of_shr_record round_nearest_even Zdigits2].
  rewrite Hd, fexp_le.
  replace (Z.max (53 + e - 53) (-1074) - e) with 0 by lia.
  cbn [shr shr_record_of_loc shr_m].
  by rewrite (proj2 (Z.leb_le e (emax - prec))) by (change (emax - prec) with 971; lia).
Qed.

Lemma numberOf_normalInteger z : 0 < z < 2 ^ 53 -> normalInteger (numberOf z).
Proof.
  intros Hz. destruct z as [|p|p]; [lia| |lia].
  unfold numberOf, binary_normalize, binary_round, shl_align.
  rewrite fexp_le.
  pose proof (digits2_pos_bounds p) as [Hlo Hhi].
  assert (Z.pos (digits2_pos p) <= 53) as Hd.
  { apply (Zdigits2_le (Z.pos p)); lia. }
  rewrite Z.add_0_r, Z.sub_0_r.
  destruct (Z.max (Z.pos (digits2_pos p) - 53) (-1074)) as [|d|d] eqn:Hshift.
  - exists p, 0. rewrite binary_round_aux_canonical by lia. split; [done|]. lia.
  - lia.
  - assert (Z.pos (digits2_pos (Pos.iter xO p d)) = 53) as Hd'.
    { rewrite digits2_pos_iter_xO. lia. }
    exists (Pos.iter xO p d), (Z.neg d).
    rewrite binary_round_aux_canonical by lia. split; [done|]. lia.
Qed.

Lemma SF64div_bound x y :
  normalInteger x -> normalInteger y -> magnitudeAtMost (SF64div x y) 54.
Proof.
  intros (ma & ea & -> & Hda & Hea) (mb & eb & -> & Hdb & Heb).
  unfold SF64div, SFdiv, SFdiv_core_binary. cbn [Zdigits2 xorb].
  rewrite Hda, Hdb, fexp_le.
  replace (Z.min (Z.max (53 + ea - (53 + eb) - 53) (-1074)) (ea - eb))
    with (ea - eb - 53) by lia.
  replace (ea - eb - (ea - eb - 53)) with 53 by lia.
  rewrite Z.shiftl_mul_pow2 by lia.
  destruct (Z.div_eucl (Z.pos ma * 2 ^ 53) (Z.pos mb)) as [q r] eqn:Hdiv.
  assert (q = Z.pos ma * 2 ^ 53 / Z.pos mb) as Hq.
  { unfold Z.div. by rewrite Hdiv. }
  pose proof (digits2_pos_bounds ma) as [_ Hma].
  pose proof (digits2_pos_bounds mb) as [Hmb _].
  rewrite Hda in Hma. rewrite Hdb in Hmb.
  assert (0 <= q) as Hq0 by (rewrite Hq; apply Z.div_pos; lia).
  assert (q < 2 ^ 54) as Hq54.
  { rewrite Hq. apply Z.div_lt_upper_bound; [lia|].
    change (53 - 1) with 52 in Hmb.
    change (2 ^ 54) with (4 * 2 ^ 52). change (2 ^ 53) with (2 * 2 ^ 52) in *. nia. }
  pose proof (Zdigits2_le q 54 Hq0 ltac:(lia) Hq54).
  change 54 with (53 + 1). apply binary_round_aux_bound; lia.
Qed.

Lemma Zdigits2_mul m n :
  0 < m -> 0 < n -> Zdigits2 (m * n) <= Zdigits2 m + Zdigits2 n.
Proof.
  intros Hm Hn.
  destruct (Zdigits2_bounds m Hm) as [_ Hmhi].
  destruct (Zdigits2_bounds n Hn) as [_ Hnhi].
  pose proof (Zdigits2_nonneg m). pose proof (Zdigits2_nonneg n).
  apply Zdigits2_le; [nia|lia|]. rewrite Z.pow_add_r by lia. nia.
Qed.

Lemma SF64mul_hundred x :
  magnitudeAtMost x 54 -> magnitudeAtMost (SF64mul x (numberOf 100)) 62.
Proof.
  assert (numberOf 100 = S754_finite false 7036874417766400 (-46)) as ->
    by (vm_compute; reflexivity).
  destruct x as [s|s| |s m e]; cbn [magnitudeAtMost]; [done..|].
  intros (-> & Hmag & He).
  unfold SF64mul, SFmul. cbn [xorb].
  change 62 with (61 + 1). apply binary_round_aux_bound; [lia| |lia|lia].
  pose proof (Zdigits2_mul (Z.pos m) 7036874417766400 ltac:(lia) ltac:(lia)) as Hmul.
  change (Zdigits2 7036874417766400) with 53 in Hmul.
  cbn [Zdigits2] in Hmul. rewrite Pos2Z.inj_mul.
  change (Zdigits2 (Z.pos m * 7036874417766400))
    with (Zdigits2 (Z.pos m * Z.pos 7036874417766400)). 
  cbn [Zdigits2 Z.mul] in *. lia.
Qed.

Lemma percentOf_bound a b :
  0 <= a < 2 ^ 53 -> 0 < b < 2 ^ 53 -> magnitudeAtMost (percentOf a b) 62.
Proof.
  intros Ha Hb. unfold percentOf. apply SF64mul_hundred.
  destruct (numberOf_normalInteger b Hb) as (mb & eb & Hnb & Hdb & Heb).
  destruct (decide (a = 0)) as [->|Hne].
  - rewrite Hnb. done.
  - apply SF64div_bound; [apply numberOf_normalInteger; lia|].
    by exists mb, eb.
Qed.

(** *** Rounding to the nearest double *)

Lemma shr_1_located mrs N D :
  located mrs N D -> 0 <= shr_m mrs ->
  located (shr_1 mrs) N (2 * D) /\ 0 <= shr_m (shr_1 mrs).
Proof.
  destruct mrs as [m r s]. unfold located. cbn [shr_m shr_r shr_s].
  intros [HR Hloc] Hm.
  destruct m as [|[p|p|]|p]; [| | | |lia]; cbn [shr_1 shr_m shr_r shr_s];
    destruct r, s; cbn [orb]; lia.
Qed.

Lemma iter_shr_1_located p mrs N D :
  located mrs N D -> 0 <= shr_m mrs ->
  located (SpecFloat.iter_pos shr_1 p mrs) N (D * 2 ^ Z.pos p)
  /\ 0 <= shr_m (SpecFloat.iter_pos shr_1 p mrs).
Proof.
  revert mrs D. induction p as [p IH|p IH|]; intros mrs D Hloc Hm;
    cbn [SpecFloat.iter_pos].
  - destruct (shr_1_located _ _ _ Hloc Hm) as [H1 Hm1].
    destruct (IH _ _ H1 Hm1) as [H2 Hm2].
    destruct (IH _ _ H2 Hm2) as [H3 Hm3]. split; [|done].
    replace (D * 2 ^ Z.pos p~1) with (2 * D * 2 ^ Z.pos p * 2 ^ Z.pos p); [done|].
    replace (Z.pos p~1) with (1 + Z.pos p + Z.pos p) by lia.
    rewrite !Z.pow_add_r by lia. lia.
  - destruct (IH _ _ Hloc Hm) as [H2 Hm2].
    destruct (IH _ _ H2 Hm2) as [H3 Hm3]. split; [|done].
    replace (D * 2 ^ Z.pos p~0) with (D * 2 ^ Z.pos p * 2 ^ Z.pos p); [done|].
    replace (Z.pos p~0) with (Z.pos p + Z.pos p) by lia.
    rewrite !Z.pow_add_r by lia. lia.
  - destruct (shr_1_located _ _ _ Hloc Hm) as [H1 Hm1]. split; [|done].
    by replace (D * 2 ^ 1) with (2 * D) by lia.
Qed.

Lemma shr_located mrs e n mrs' e' N D :
  shr mrs e n = (mrs', e') -> located mrs N D -> 0 <= shr_m mrs ->
  located mrs' N (D * 2 ^ Z.max 0 n) /\ e' = e + Z.max 0 n /\ 0 <= shr_m mrs'.
Proof.
  unfold shr. intros H Hloc Hm. destruct n as [|p|p]; simplify_eq.
  - by rewrite Z.mul_1_r, Z.add_0_r.
  - rewrite Z.max_r by lia.
    destruct (iter_shr_1_located p _ _ _ Hloc Hm). done.
  - rewrite Z.max_l by lia. by rewrite Z.mul_1_r, Z.add_0_r.
Qed.

Lemma located_of_loc_Exact m : located (shr_record_of_loc m loc_Exact) m 1.
Proof. unfold located. cbn. lia. Qed.

Lemma located_m mrs N D : located mrs N D -> shr_m mrs = N / D.
Proof.
  intros [HR _]. cbv zeta in HR. apply Z.div_unique with (N - shr_m mrs * D); lia.
Qed.

Lemma round_nearest_even_located mrs N D :
  located mrs N D ->
  let m := round_nearest_even (shr_m mrs) (loc_of_shr_record mrs) in
  - D <= 2 * (m * D - N) <= D.
Proof.
  destruct mrs as [m r s]. unfold located. cbn [shr_m shr_r shr_s].
  intros [HR Hloc].
  destruct r, s; cbn [loc_of_shr_record round_nearest_even]; try lia.
  destruct (Z.even m); lia.
Qed.

Lemma located_exact mrs N D :
  located mrs N D -> (D | N) ->
  round_nearest_even (shr_m mrs) (loc_of_shr_record mrs) = shr_m mrs
  /\ shr_m mrs * D = N.
Proof.
  destruct mrs as [m r s]. unfold located. cbn [shr_m shr_r shr_s].
  intros [HR Hloc] [k Hk].
  assert (N - m * D = 0) as H0.
  { subst N. assert ((k - m) * D = k * D - m * D) as <- by lia.
    assert (0 <= (k - m) * D < D) as Hb by lia.
    assert (k - m = 0) by nia. nia. }
  split; [|lia].
  destruct r, s; cbn [loc_of_shr_record round_nearest_even]; lia.
Qed.

Lemma Zdigits2_eq m k : 2 ^ (k - 1) <= m < 2 ^ k -> 0 < k -> Zdigits2 m = k.
Proof.
  intros Hm Hk.
  assert (0 < 2 ^ (k - 1)) by (apply Z.pow_pos_nonneg; lia).
  destruct (Zdigits2_bounds m ltac:(lia)) as [Hlo Hhi].
  pose proof (Zdigits2_nonneg m).
  destruct (Z.lt_trichotomy (Zdigits2 m) k) as [Hlt|[->|Hgt]]; [|done|].
  - assert (2 ^ Zdigits2 m <= 2 ^ (k - 1)) by (apply Z.pow_le_mono_r; lia). lia.
  - assert (2 ^ k <= 2 ^ (Zdigits2 m - 1)) by (apply Z.pow_le_mono_r; lia). lia.
Qed.

Lemma Zdigits2_ge m k : 2 ^ (k - 1) <= m -> 0 < k -> k <= Zdigits2 m.
Proof.
  intros Hm Hk.
  assert (0 < 2 ^ (k - 1)) by (apply Z.pow_pos_nonneg; lia).
  destruct (Zdigits2_bounds m ltac:(lia)) as [_ Hhi].
  destruct (Z.lt_ge_cases (Zdigits2 m) k) as [Hlt|]; [|done].
  pose proof (Zdigits2_nonneg m).
  assert (2 ^ Zdigits2 m <= 2 ^ (k - 1)) by (apply Z.pow_le_mono_r; lia). lia.
Qed.

Lemma pow2_split a b : 0 <= a -> 0 <= b -> 2 ^ (a + b) = 2 ^ a * 2 ^ b.
Proof. intros. by rewrite Z.pow_add_r. Qed.

Lemma div_pow2_range q d s :
  2 ^ (d - 1) <= q < 2 ^ d -> 0 <= s -> s < d ->
  2 ^ (d - s - 1) <= q / 2 ^ s < 2 ^ (d - s).
Proof.
  intros Hq Hs Hd.
  assert (0 < 2 ^ s) by (apply Z.pow_pos_nonneg; lia).
  assert (2 ^ (d - 1) = 2 ^ (d - s - 1) * 2 ^ s) as E1.
  { rewrite <- Z.pow_add_r by lia. f_equal. lia. }
  assert (2 ^ d = 2 ^ (d - s) * 2 ^ s) as E2.
  { rewrite <- Z.pow_add_r by lia. f_equal. lia. }
  split.
  - apply Z.div_le_lower_bound; lia.
  - apply Z.div_lt_upper_bound; lia.
Qed.

(** Rounding a quotient N / D, whose integer part q and location are
    known, to 53 bits. *)
Lemma binary_round_aux_nearest sx q e loc N D :
  0 < D -> located (shr_record_of_loc q loc) N D ->
  2 ^ 52 <= q -> -1000 <= e -> Zdigits2 q + e <= 1000 ->
  exists m e',
    binary_round_aux prec emax sx q e loc = S754_finite sx m e'
    /\ 2 ^ 52 <= Z.pos m < 2 ^ 53
    /\ (e' = Zdigits2 q + e - 53
        \/ e' = Zdigits2 q + e - 52 /\ Z.pos m = 2 ^ 52
           /\ ~ (D * 2 ^ (Zdigits2 q - 53) | N))
    /\ - (D * 2 ^ (e' - e)) <= 2 * (Z.pos m * 2 ^ (e' - e) * D - N)
       <= D * 2 ^ (e' - e).
Proof.
  intros HD Hloc Hq He Hmag.
  destruct (Zdigits2_bounds q ltac:(lia)) as [Hqlo Hqhi].
  set (d := Zdigits2 q) in *.
  assert (53 <= d) as Hd.
  { destruct (Z.lt_ge_cases d 53) as [Hlt|]; [|done].
    assert (2 ^ d <= 2 ^ 52) by (apply Z.pow_le_mono_r; lia). lia. }
  unfold binary_round_aux, shr_fexp. fold d. rewrite !fexp_le.
  replace (Z.max (d + e - 53) (-1074) - e) with (d - 53) by lia.
  destruct (shr (shr_record_of_loc q loc) e (d - 53)) as [r1 e1] eqn:H1.
  assert (0 <= shr_m (shr_record_of_loc q loc)) as Hq0
    by (rewrite shr_record_of_loc_m; lia).
  pose proof (shr_spec _ _ _ _ _ H1 Hq0) as [Hm1 _].
  apply (shr_located _ _ _ _ _ N D) in H1 as (Hloc1 & He1 & Hr1); [|done..].
  rewrite shr_record_of_loc_m in Hm1. rewrite Z.max_r in * by lia.
  pose proof (div_pow2_range q d (d - 53) ltac:(lia) ltac:(lia) ltac:(lia)) as Hq1.
  replace (d - (d - 53) - 1) with 52 in Hq1 by lia.
  replace (d - (d - 53)) with 53 in Hq1 by lia.
  rewrite <- Hm1 in Hq1.
  pose proof (round_nearest_even_located _ _ _ Hloc1) as Hnear. cbv zeta in Hnear.
  pose proof (round_nearest_even_bounds (shr_m r1) (loc_of_shr_record r1)) as Hround.
  assert ((D * 2 ^ (d - 53) | N) ->
          round_nearest_even (shr_m r1) (loc_of_shr_record r1) < 2 ^ 53) as Hexact.
  { intros Hdiv. destruct (located_exact _ _ _ Hloc1 Hdiv) as [-> _]. lia. }
  set (m1 := round_nearest_even (shr_m r1) (loc_of_shr_record r1)) in *.
  clearbody m1.
  assert (0 < 2 ^ (d - 53)) as Hpow by (apply Z.pow_pos_nonneg; lia).
  destruct (decide (m1 < 2 ^ 53)) as [Hlt|Hge].
  - assert (Zdigits2 m1 = 53) as Hd1 by (apply Zdigits2_eq; lia).
    rewrite Hd1, fexp_le.
    replace (Z.max (53 + e1 - 53) (-1074) - e1) with 0 by lia.
    cbn [shr shr_record_of_loc shr_m].
    destruct m1 as [|m|m]; [lia| |lia]. cbv beta iota.
    rewrite (proj2 (Z.leb_le e1 (emax - prec))) by (change (emax - prec) with 971; lia).
    exists m, e1. split; [done|]. split; [lia|]. split; [left; lia|].
    replace (e1 - e) with (d - 53) by lia. nia.
  - assert (m1 = 2 ^ 53) as -> by lia.
    change (Zdigits2 (2 ^ 53)) with 54. rewrite fexp_le.
    replace (Z.max (54 + e1 - 53) (-1074) - e1) with 1 by lia.
    cbn [shr shr_record_of_loc shr_m SpecFloat.iter_pos shr_1].
    change (2 ^ 53) with 9007199254740992. cbn [shr_m].
    rewrite (proj2 (Z.leb_le (e1 + 1) (emax - prec)))
      by (change (emax - prec) with 971; lia).
    eexists _, (e1 + 1). split; [done|].
    split; [done|]. split; [right; split; [lia|split; [done|]]|].
    { intros Hdiv. specialize (Hexact Hdiv). lia. }
    replace (e1 + 1 - e) with (d - 53 + 1) by lia.
    rewrite pow2_split by lia. change (2 ^ 1) with 2.
    change (2 ^ 53) with 9007199254740992 in *. nia.
Qed.

(** A value that fits 53 bits is not changed. *)
Lemma binary_round_aux_exact sx M e m E :
  M = Z.pos m * 2 ^ (E - e) -> e <= E -> 2 ^ 52 <= Z.pos m < 2 ^ 53 ->
  -1000 <= e -> E <= 900 ->
  binary_round_aux prec emax sx M e loc_Exact = S754_finite sx m E.
Proof.
  intros HM He Hm Hlo Hhi.
  assert (0 < 2 ^ (E - e)) as Hpow by (apply Z.pow_pos_nonneg; lia).
  assert (Zdigits2 M = 53 + (E - e)) as Hd.
  { apply Zdigits2_eq; [|lia]. subst M.
    replace (53 + (E - e) - 1) with (52 + (E - e)) by lia.
    rewrite !pow2_split by lia. nia. }
  unfold binary_round_aux, shr_fexp. rewrite Hd, !fexp_le.
  replace (Z.max (53 + (E - e) + e - 53) (-1074) - e) with (E - e) by lia.
  destruct (shr (shr_record_of_loc M loc_Exact) e (E - e)) as [r1 e1] eqn:H1.
  apply (shr_located _ _ _ _ _ M 1) in H1 as (Hloc1 & He1 & Hr1);
    [|apply located_of_loc_Exact|cbn; lia].
  rewrite Z.max_r, Z.mul_1_l in * by lia.
  destruct (located_exact _ _ _ Hloc1) as [-> Hr].
  { exists (Z.pos m). lia. }
  assert (shr_m r1 = Z.pos m) as -> by nia.
  cbn [Zdigits2].
  assert (Z.pos (digits2_pos m) = 53) as ->.
  { change (Z.pos (digits2_pos m)) with (Zdigits2 (Z.pos m)). apply Zdigits2_eq; lia. }
  rewrite fexp_le.
  replace (Z.max (53 + e1 - 53) (-1074) - e1) with 0 by lia.
  cbn [shr shr_record_of_loc shr_m].
  rewrite (proj2 (Z.leb_le e1 (emax - prec))) by (change (emax - prec) with 971; lia).
  f_equal. lia.
Qed.

Lemma Pos_iter_xO p d : Z.pos (Pos.iter xO p d) = Z.pos p * 2 ^ Z.pos d.
Proof.
  induction d as [|d IH] using Pos.peano_ind.
  - cbn [Pos.iter]. lia.
  - rewrite Pos.iter_succ, Pos2Z.inj_xO, IH, Pos2Z.inj_succ, Z.pow_succ_r; lia.
Qed.

(** [binary_round] of a value [p * 2^e] that is [m * 2^E] with [m] of 53
    bits. *)
Lemma binary_round_exact sx p e m E :
  Z.pos p * 2 ^ Z.max 0 (e - E) = Z.pos m * 2 ^ Z.max 0 (E - e) ->
  2 ^ 52 <= Z.pos m < 2 ^ 53 -> -1000 <= e <= 900 -> -1000 <= E <= 900 ->
  binary_round prec emax sx p e = S754_finite sx m E.
Proof.
  intros Hv Hm He HE. unfold binary_round.
  assert (Z.pos (digits2_pos p) + e = 53 + E) as Hd.
  { change (Z.pos (digits2_pos p)) with (Zdigits2 (Z.pos p)).
    destruct (Z.le_ge_cases e E) as [Hle|Hge].
    - rewrite Z.max_l, Z.max_r, Z.pow_0_r, Z.mul_1_r in Hv by lia.
      assert (0 < 2 ^ (E - e)) by (apply Z.pow_pos_nonneg; lia).
      rewrite (Zdigits2_eq _ (53 + (E - e))); [lia| |lia]. rewrite Hv.
      replace (53 + (E - e) - 1) with (52 + (E - e)) by lia.
      rewrite !pow2_split by lia. nia.
    - rewrite Z.max_r, Z.max_l, Z.pow_0_r, Z.mul_1_r in Hv by lia.
      assert (0 < 2 ^ (e - E)) by (apply Z.pow_pos_nonneg; lia).
      rewrite (Zdigits2_eq _ (53 - (e - E))); [lia| |].
      + assert (2 ^ 52 = 2 ^ (53 - (e - E) - 1) * 2 ^ (e - E)) as E1.
        { rewrite <- Z.pow_add_r; [f_equal; lia| |lia].
          destruct (Z.lt_ge_cases (53 - (e - E) - 1) 0) as [Hneg|]; [|done].
          exfalso. assert (2 ^ 53 <= 2 ^ (e - E)) by (apply Z.pow_le_mono_r; lia).
          nia. }
        assert (2 ^ 53 = 2 ^ (53 - (e - E)) * 2 ^ (e - E)) as E2.
        { rewrite <- Z.pow_add_r; [f_equal; lia| |lia].
          destruct (Z.lt_ge_cases (53 - (e - E)) 0) as [Hneg|]; [|done].
          exfalso. assert (2 ^ 53 <= 2 ^ (e - E)) by (apply Z.pow_le_mono_r; lia).
          nia. }
        nia.
      + destruct (Z.lt_ge_cases 0 (53 - (e - E))) as [|Hneg]; [done|].
        exfalso. assert (2 ^ 53 <= 2 ^ (e - E)) by (apply Z.pow_le_mono_r; lia).
        nia. }
  rewrite Hd, fexp_le. replace (Z.max (53 + E - 53) (-1074)) with E by lia.
  unfold shl_align. destruct (E - e) as [|d|d] eqn:Hshift.
  - apply binary_round_aux_exact; try lia.
    rewrite Hshift. replace e with E in * by lia.
    rewrite Z.sub_diag, Z.max_l, Z.pow_0_r in Hv by lia. cbn. lia.
  - apply binary_round_aux_exact; try lia.
    rewrite Z.max_l, Z.max_r, Z.pow_0_r, Z.mul_1_r in Hv by lia.
    by rewrite Hshift in *. 
  - apply binary_round_aux_exact; try lia.
    rewrite Z.max_r, Z.max_l, Z.pow_0_r, Z.mul_1_r in Hv by lia.
    rewrite Z.sub_diag, Z.pow_0_r, Z.mul_1_r, Pos_iter_xO, <- Hv.
    f_equal. f_equal. lia.
Qed.

(** The double of an integer below 2^53: the integer, on 53 bits. *)
Lemma numberOf_finite z :
  0 < Z.abs z < 2 ^ 53 ->
  exists m e,
    numberOf z = S754_finite (z <? 0) m e
    /\ 2 ^ 52 <= Z.pos m < 2 ^ 53 /\ -52 <= e <= 0
    /\ Z.pos m = Z.abs z * 2 ^ (- e).
Proof.
  intros Hz.
  destruct (Zdigits2_bounds (Z.abs z) ltac:(lia)) as [Hlo Hhi].
  set (d := Zdigits2 (Z.abs z)) in *.
  assert (1 <= d <= 53) as Hd.
  { split.
    - destruct (Z.lt_ge_cases d 1) as [Hlt|]; [|done].
      pose proof (Zdigits2_nonneg (Z.abs z)). fold d in H.
      assert (d = 0) as Hd0 by lia. rewrite Hd0 in Hhi. cbn in Hhi. lia.
    - apply Zdigits2_le; lia. }
  assert (0 < 2 ^ (53 - d)) as Hpow by (apply Z.pow_pos_nonneg; lia).
  assert (2 ^ 52 = 2 ^ (d - 1) * 2 ^ (53 - d)) as E1.
  { rewrite <- Z.pow_add_r by lia. f_equal. lia. }
  assert (2 ^ 53 = 2 ^ d * 2 ^ (53 - d)) as E2.
  { rewrite <- Z.pow_add_r by lia. f_equal. lia. }
  exists (Z.to_pos (Z.abs z * 2 ^ (53 - d))), (d - 53).
  rewrite Z2Pos.id by nia.
  replace (- (d - 53)) with (53 - d) by lia.
  split; [|split; [nia|split; [lia|done]]].
  unfold numberOf, binary_normalize.
  destruct z as [|p|p]; [lia| |]; cbn [Z.abs] in *;
    [change (Z.pos p <? 0) with false|change (Z.neg p <? 0) with true];
    (apply binary_round_exact; [|rewrite Z2Pos.id by nia; nia|lia|lia]);
    rewrite Z2Pos.id by nia;
    rewrite Z.max_r, Z.max_l, Z.pow_0_r, Z.mul_1_r by lia;
    f_equal; f_equal; lia.
Qed.

Lemma numberOf_zero : numberOf 0 = S754_zero false.
Proof. reflexivity. Qed.

(** An integer below 2^53 is the same double however it is scaled. *)
Lemma binary_normalize_exact z t :
  Z.abs z < 2 ^ 53 -> 0 <= t <= 100 ->
  binary_normalize prec emax (z * 2 ^ t) (- t) false = numberOf z.
Proof.
  intros Hz Ht.
  assert (0 < 2 ^ t) as Hpow by (apply Z.pow_pos_nonneg; lia).
  destruct (decide (z = 0)) as [->|Hne]; [done|].
  destruct (numberOf_finite z ltac:(lia)) as (m & e & -> & Hm & He & Hv).
  assert (0 < 2 ^ (- e)) as Hpowe by (apply Z.pow_pos_nonneg; lia).
  assert (forall p, Z.pos p = Z.abs z * 2 ^ t ->
            Z.pos p * 2 ^ Z.max 0 (- t - e) = Z.pos m * 2 ^ Z.max 0 (e - - t)) as Hval.
  { intros p ->. rewrite Hv.
    destruct (Z.le_ge_cases (- t) e).
    - rewrite Z.max_l, Z.max_r, Z.pow_0_r, Z.mul_1_r by lia.
      rewrite <- Z.mul_assoc, <- Z.pow_add_r by lia. f_equal. f_equal. lia.
    - rewrite Z.max_r, Z.max_l, Z.pow_0_r, Z.mul_1_r by lia.
      rewrite <- Z.mul_assoc, <- Z.pow_add_r by lia. f_equal. f_equal. lia. }
  unfold binary_normalize.
  destruct (z * 2 ^ t) as [|p|p] eqn:Hp; [nia| |].
  - assert ((z <? 0) = false) as -> by (apply Z.ltb_ge; nia).
    apply binary_round_exact; [apply Hval; nia|lia..].
  - assert ((z <? 0) = true) as -> by (apply Z.ltb_lt; nia).
    apply binary_round_exact; [apply Hval; nia|lia..].
Qed.

(** Doubles add integers exactly as long as the sum stays below 2^53. *)
Lemma SF64add_exact a b :
  Z.abs a < 2 ^ 53 -> Z.abs b < 2 ^ 53 -> Z.abs (a + b) < 2 ^ 53 ->
  SF64add (numberOf a) (numberOf b) = numberOf (a + b).
Proof.
  intros Ha Hb Hab.
  destruct (decide (a = 0)) as [->|Hane].
  { rewrite numberOf_zero, Z.add_0_l.
    destruct (decide (b = 0)) as [->|Hbne]; [done|].
    by destruct (numberOf_finite b ltac:(lia)) as (m & e & -> & _). }
  destruct (decide (b = 0)) as [->|Hbne].
  { rewrite numberOf_zero, Z.add_0_r.
    by destruct (numberOf_finite a ltac:(lia)) as (m & e & -> & _). }
  destruct (numberOf_finite a ltac:(lia)) as (ma & ea & -> & Hma & Hea & Hva).
  destruct (numberOf_finite b ltac:(lia)) as (mb & eb & -> & Hmb & Heb & Hvb).
  unfold SF64add, SFadd.
  set (ez := Z.min ea eb).
  assert (forall (neg : bool) z m e, -52 <= e <= 0 -> ez <= e ->
            neg = (z <? 0) -> Z.pos m = Z.abs z * 2 ^ (- e) ->
            cond_Zopp neg (Z.pos (fst (shl_align m e ez))) = z * 2 ^ (- ez)) as Halign.
  { intros neg z m e He Hez -> Hv. unfold shl_align.
    assert (Z.pos (fst (match ez - e with
                        | Z.neg d => (Pos.iter xO m d, ez)
                        | _ => (m, e)
                        end)) = Z.abs z * 2 ^ (- ez)) as ->.
    { destruct (ez - e) as [|d|d] eqn:Hd; cbn [fst].
      - rewrite Hv. f_equal. f_equal. lia.
      - lia.
      - rewrite Pos_iter_xO, Hv, <- Z.mul_assoc, <- Z.pow_add_r by lia.
        f_equal. f_equal. lia. }
    unfold cond_Zopp. destruct (Z.ltb_spec z 0); lia. }
  rewrite (Halign _ a ma ea), (Halign _ b mb eb) by (done || lia).
  rewrite <- Z.mul_add_distr_r.
  replace ez with (- - ez) at 2 by lia.
  apply binary_normalize_exact; lia.
Qed.

Lemma cancel_bound x y z W :
  0 < W -> - (z * W) <= 2 * (x * W - y * W) <= z * W -> - z <= 2 * (x - y) <= z.
Proof.
  intros HW [H1 H2]. split; apply (Z.mul_le_mono_pos_r _ _ W HW); lia.
Qed.

(** The bound of a rounded quotient, freed of the scaling of the two
    mantissas. *)
Lemma div_scaled M n S C K V B :
  0 < C -> 0 < K -> V = B * (K * C) ->
  - (n * C * K) <= 2 * (M * K * (n * C) - S * V) <= n * C * K ->
  - n <= 2 * (M * n - S * B) <= n.
Proof.
  intros HC HK -> Hnear. apply (cancel_bound _ _ _ (K * C)); [lia|].
  replace (n * (K * C)) with (n * C * K) by ring.
  replace (M * n * (K * C)) with (M * K * (n * C)) by ring.
  replace (S * B * (K * C)) with (S * (B * (K * C))) by ring. done.
Qed.

Lemma div_exceeds M n S C K V E :
  0 < V -> 1 <= E -> K * C = E * V -> 0 < n -> 2 ^ 52 <= M ->
  2 * S < (2 ^ 53 - 1) * n ->
  - (n * C * K) <= 2 * (M * K * (n * C) - S * V) <= n * C * K ->
  False.
Proof.
  intros HV HE Hpows Hn HM Hsmall Hnear.
  assert (- (n * E) <= 2 * (M * n * E - S) <= n * E) as [_ Hhi].
  { apply (cancel_bound _ _ _ V); [done|].
    replace (n * E * V) with (n * C * K)
      by (transitivity (n * (K * C)); [ring|rewrite Hpows; ring]).
    replace (M * n * E * V) with (M * K * (n * C))
      by (transitivity (M * n * (K * C)); [ring|rewrite Hpows; ring]).
    done. }
  assert (n <= n * E) as HnE by (apply Z.le_mul_diag_r; lia).
  assert ((2 ^ 53 - 1) * (n * E) <= (2 * M - 1) * (n * E)) as Hmul
    by (apply Z.mul_le_mono_nonneg_r; lia).
  lia.
Qed.

Lemma new_location_located q r D N :
  0 < D -> N = q * D + r -> 0 <= r < D ->
  located (shr_record_of_loc q (new_location D r)) N D.
Proof.
  intros HD -> Hr. unfold located, new_location, new_location_even, new_location_odd.
  destruct (Z.even D) eqn:Heven.
  - destruct (Z.eqb_spec r 0) as [->|Hne].
    + cbn. lia.
    + destruct (Z.compare_spec (2 * r) D); cbn [shr_record_of_loc shr_m shr_r shr_s]; lia.
  - assert (Z.odd D = true) as [k Hk]%Z.odd_spec by (by rewrite <- Z.negb_even, Heven).
    destruct (Z.eqb_spec r 0) as [->|Hne].
    + cbn. lia.
    + destruct (Z.compare_spec (2 * r + 1) D); cbn [shr_record_of_loc shr_m shr_r shr_s]; lia.
Qed.

(** The quotient of two integers below 2^53, as the doubles give it: a
    double of 53 bits within half a unit in the last place of the exact
    quotient. *)
Lemma SF64div_nearest_wide s n :
  0 < Z.abs s < 2 ^ 53 -> 0 < n < 2 ^ 53 ->
  exists m e,
    SF64div (numberOf s) (numberOf n) = S754_finite (s <? 0) m e
    /\ 2 ^ 52 <= Z.pos m < 2 ^ 53 /\ -105 <= e <= 0
    /\ - n <= 2 * (Z.pos m * n - Z.abs s * 2 ^ (- e)) <= n.
Proof.
  intros Hs Hn.
  destruct (numberOf_finite s Hs) as (ms & es & -> & Hms & Hes & Hvs).
  destruct (numberOf_finite n ltac:(lia)) as (mn & en & -> & Hmn & Hen & Hvn).
  assert ((n <? 0) = false) as -> by (apply Z.ltb_ge; lia).
  rewrite Z.abs_eq in Hvn by lia.
  unfold SF64div, SFdiv, SFdiv_core_binary. rewrite xorb_false_r.
  assert (Zdigits2 (Z.pos ms) = 53) as -> by (apply Zdigits2_eq; lia).
  assert (Zdigits2 (Z.pos mn) = 53) as -> by (apply Zdigits2_eq; lia).
  rewrite fexp_le.
  replace (Z.min (Z.max (53 + es - (53 + en) - 53) (-1074)) (es - en))
    with (es - en - 53) by lia.
  replace (es - en - (es - en - 53)) with 53 by lia.
  rewrite Z.shiftl_mul_pow2 by lia.
  destruct (Z.div_eucl (Z.pos ms * 2 ^ 53) (Z.pos mn)) as [q r] eqn:Hdiv.
  pose proof (Z_div_mod (Z.pos ms * 2 ^ 53) (Z.pos mn) ltac:(lia)) as Heucl.
  rewrite Hdiv in Heucl. destruct Heucl as [Hq Hr].
  assert (2 ^ 52 <= q) as Hqlo.
  { change (2 ^ 53) with (2 * 2 ^ 52) in *. nia. }
  assert (q < 2 ^ 54) as Hqhi.
  { change (2 ^ 54) with (4 * 2 ^ 52). change (2 ^ 53) with (2 * 2 ^ 52) in *. nia. }
  assert (Zdigits2 q <= 54) as Hdq by (apply Zdigits2_le; lia).
  destruct (binary_round_aux_nearest (s <? 0) q (es - en - 53)
              (new_location (Z.pos mn) r) (Z.pos ms * 2 ^ 53) (Z.pos mn))
    as (m & e & -> & Hm & He & Hnear); [lia| |lia|lia|lia|].
  { apply new_location_located; lia. }
  exists m, e. split; [done|]. split; [done|].
  assert (53 <= Zdigits2 q) as Hdq' by (apply Zdigits2_ge; lia).
  set (a := - es) in *. set (c := - en) in *.
  assert (0 < 2 ^ a) as HA by (apply Z.pow_pos_nonneg; lia).
  assert (0 < 2 ^ c) as HC by (apply Z.pow_pos_nonneg; lia).
  assert (e <= 0) as Hneg.
  { destruct He as [->|(-> & _ & Hinexact)]; [lia|].
    destruct (Z.le_gt_cases (Zdigits2 q + (es - en - 53) - 52) 0) as [|Hpos]; [done|].
    exfalso.
    (* the divisor is 1 and the quotient is exact *)
    assert (Zdigits2 q = 54) as Hd54 by lia.
    assert (c = 52) as Hc52 by lia.
    assert (n = 1) as Hn1.
    { rewrite Hc52 in Hvn. change (2 ^ 53) with (2 * 2 ^ 52) in Hmn. nia. }
    apply Hinexact. rewrite Hd54, Hvn, Hn1, Hc52.
    exists (Z.pos ms). change (2 ^ (54 - 53)) with 2.
    change (2 ^ 53) with (1 * 2 ^ 52 * 2). done. }
  split; [lia|].
  set (k := e - (es - en - 53)) in *.
  assert (0 <= k) as Hk by (unfold k; lia).
  assert (0 < 2 ^ k) as HK by (apply Z.pow_pos_nonneg; lia).
  rewrite Hvs, Hvn in Hnear.
  assert (2 ^ a * 2 ^ 53 = 2 ^ (- e) * (2 ^ k * 2 ^ c)) as Hpows.
  { rewrite <- !Z.pow_add_r by lia. f_equal. unfold k, a, c. lia. }
  clear - Hnear Hpows HC HK.
  apply (div_scaled (Z.pos m) n (Z.abs s) (2 ^ c) (2 ^ k) (2 ^ a * 2 ^ 53));
    try done.
  by rewrite (Z.mul_assoc (Z.abs s)).
Qed.

(** When the quotient is below 2^52, its double has a fraction. *)
Lemma SF64div_nearest s n :
  0 < Z.abs s < 2 ^ 53 -> 0 < n < 2 ^ 53 ->
  2 * Z.abs s < (2 ^ 53 - 1) * n ->
  exists m e,
    SF64div (numberOf s) (numberOf n) = S754_finite (s <? 0) m e
    /\ 2 ^ 52 <= Z.pos m < 2 ^ 53 /\ -105 <= e < 0
    /\ - n <= 2 * (Z.pos m * n - Z.abs s * 2 ^ (- e)) <= n.
Proof.
  intros Hs Hn Hsmall.
  destruct (SF64div_nearest_wide s n Hs Hn) as (m & e & Hdiv & Hm & He & Hnear).
  exists m, e. split; [done|]. split; [done|]. split; [|done].
  destruct (decide (e = 0)) as [->|]; [exfalso|lia].
  change (2 ^ (- 0)) with 1 in Hnear. rewrite Z.mul_1_r in Hnear.
  assert ((2 ^ 53 - 1) * n <= (2 * Z.pos m - 1) * n)
    by (apply Z.mul_le_mono_nonneg_r; lia).
  lia.
Qed.

Lemma roundDiv_unique a b k :
  0 < b -> b * (2 * k - 1) <= 2 * a < b * (2 * k + 1) -> roundDiv a b = k.
Proof.
  intros Hb Hk. pose proof (roundDiv_spec a b Hb) as Hr.
  set (r := roundDiv a b) in *. clearbody r.
  destruct (Z.lt_trichotomy r k) as [Hlt|[->|Hgt]]; [exfalso|done|exfalso].
  - assert (b * (2 * r + 1) <= b * (2 * k - 1)) by (apply Z.mul_le_mono_nonneg_l; lia).
    lia.
  - assert (b * (2 * k + 1) <= b * (2 * r - 1)) by (apply Z.mul_le_mono_nonneg_l; lia).
    lia.
Qed.

(** Rounding to the nearest integer is not disturbed by an error of half
    a unit in the last place, when that unit is finer than [1 / n]. *)
Lemma round_of_nearest M S n B r :
  0 < n -> n < B -> Z.even B = true ->
  - n <= 2 * (M * n - S * B) <= n ->
  n * (2 * r - 1) <= 2 * S < n * (2 * r + 1) ->
  B * (2 * r - 1) <= 2 * M < B * (2 * r + 1).
Proof.
  intros Hn HB [h Hh]%Z.even_spec [Hlo Hhi] [Hrlo Hrhi].
  assert (0 < h) as Hhpos by lia.
  split.
  - (* n * (B * (2 r - 1)) <= n * (2 M) *)
    apply (Z.mul_le_mono_pos_l _ _ n Hn).
    destruct (decide (n * (2 * r - 1) = 2 * S)) as [Heq|Hne].
    + (* the mean is a half integer: the quotient is exact *)
      assert (2 * (M * n) - B * (n * (2 * r - 1)) = 2 * (M * n - S * B)) as Hd
        by (rewrite Heq; ring).
      assert (2 * (M * n) - B * (n * (2 * r - 1)) = n * (2 * (M - h * (2 * r - 1)))) as Hd'
        by (rewrite Hh; ring).
      rewrite Hd' in Hd.
      assert (- n <= n * (2 * (M - h * (2 * r - 1))) <= n) as Hb by (rewrite Hd; lia).
      assert (M - h * (2 * r - 1) = 0) as Hz.
      { destruct (Z.lt_trichotomy (M - h * (2 * r - 1)) 0) as [Hneg|[Hz|Hpos']]; [|done|].
        - assert (n * (2 * (M - h * (2 * r - 1))) <= n * (-2))
            by (apply Z.mul_le_mono_nonneg_l; lia). lia.
        - assert (n * 2 <= n * (2 * (M - h * (2 * r - 1))))
            by (apply Z.mul_le_mono_nonneg_l; lia). lia. }
      replace (n * (B * (2 * r - 1))) with (n * (2 * M) - n * (2 * (M - h * (2 * r - 1))))
        by (rewrite Hh; ring).
      rewrite Hz. lia.
    + assert (n * (2 * r - 1) + 1 <= 2 * S) as Hstep by lia.
      assert ((n * (2 * r - 1) + 1) * B <= 2 * S * B)
        by (apply Z.mul_le_mono_nonneg_r; lia).
      replace (n * (B * (2 * r - 1))) with ((n * (2 * r - 1) + 1) * B - B) by ring.
      replace (n * (2 * M)) with (2 * (M * n)) by ring. lia.
  - apply (Z.mul_lt_mono_pos_l n _ _ Hn).
    assert (2 * S + 1 <= n * (2 * r + 1)) as Hstep by lia.
    assert ((2 * S + 1) * B <= n * (2 * r + 1) * B)
      by (apply Z.mul_le_mono_nonneg_r; lia).
    replace (n * (B * (2 * r + 1))) with (n * (2 * r + 1) * B) by ring.
    replace (n * (2 * M)) with (2 * (M * n)) by ring. lia.
Qed.

(** [Math.round(s / n)] is the rounded exact quotient when [s] is below
    2^52. *)
Lemma round_quotient s n :
  Z.abs s < 2 ^ 52 -> 0 < n < 2 ^ 53 ->
  roundOf (SF64div (numberOf s) (numberOf n)) = roundDiv s n.
Proof.
  intros Hs Hn.
  destruct (decide (s = 0)) as [->|Hne].
  { rewrite numberOf_zero.
    destruct (numberOf_finite n ltac:(lia)) as (mn & en & -> & _).
    cbn. unfold roundDiv. rewrite Z.add_0_l.
    symmetry. apply Z.div_small. lia. }
  destruct (SF64div_nearest s n ltac:(lia) Hn ltac:(lia))
    as (m & e & -> & Hm & He & Hnear).
  unfold roundOf. rewrite (proj2 (Z.leb_gt 0 e)) by lia.
  assert (0 < 2 ^ (- e)) as HB by (apply Z.pow_pos_nonneg; lia).
  assert (Z.even (2 ^ (- e)) = true) as Heven.
  { replace (- e) with (Z.succ (- e - 1)) by lia.
    rewrite Z.pow_succ_r by lia. apply Z.even_mul. }
  assert (n < 2 ^ (- e)) as HnB.
  { (* (2 m - 1) n <= 2 |s| B and |s| < 2^52 <= m *)
    destruct Hnear as [_ Hhi].
    assert (2 * (Z.pos m * n) - n <= 2 * (Z.abs s * 2 ^ (- e))) as H1 by lia.
    assert ((2 ^ 53 - 1) * n <= (2 * Z.pos m - 1) * n) as H2
      by (apply Z.mul_le_mono_nonneg_r; lia).
    assert (2 * (Z.abs s * 2 ^ (- e)) <= (2 ^ 53 - 2) * 2 ^ (- e)) as H3.
    { replace (2 * (Z.abs s * 2 ^ (- e))) with (2 * Z.abs s * 2 ^ (- e)) by ring.
      apply Z.mul_le_mono_nonneg_r; lia. }
    assert ((2 ^ 53 - 1) * n <= (2 ^ 53 - 2) * 2 ^ (- e)) as H4 by lia.
    destruct (Z.lt_ge_cases n (2 ^ (- e))) as [|Hge]; [done|]. exfalso.
    assert ((2 ^ 53 - 2) * 2 ^ (- e) <= (2 ^ 53 - 2) * n)
      by (apply Z.mul_le_mono_nonneg_l; lia).
    lia. }
  apply roundDiv_unique; [done|].
  pose proof (roundDiv_spec s n ltac:(lia)) as Hr.
  destruct (Z.ltb_spec s 0) as [Hneg|Hpos].
  - rewrite Z.abs_neq in Hnear by lia.
    apply (round_of_nearest (Z.neg m) s n); [lia|done|done| |done].
    replace (Z.neg m) with (- Z.pos m) by lia. lia.
  - rewrite Z.abs_eq in Hnear by lia.
    by apply (round_of_nearest (Z.pos m) s n); [lia|done|done| |done].
Qed.

(** [Math.round(s / n)] stays between two integers that the exact
    quotient lies between. *)
Lemma round_quotient_between s n lo hi :
  Z.abs s < 2 ^ 53 -> 0 < n < 2 ^ 53 -> n * lo <= s <= n * hi ->
  lo <= roundOf (SF64div (numberOf s) (numberOf n)) <= hi.
Proof.
  intros Hs Hn [Hlo Hhi].
  destruct (decide (s = 0)) as [->|Hne].
  { rewrite numberOf_zero.
    destruct (numberOf_finite n ltac:(lia)) as (mn & en & -> & _).
    cbn [SF64div SFdiv roundOf]. nia. }
  destruct (SF64div_nearest_wide s n ltac:(lia) Hn)
    as (m & e & -> & Hm & He & Hnear).
  assert (0 < 2 ^ (- e)) as HB by (apply Z.pow_pos_nonneg; lia).
  set (B := 2 ^ (- e)) in *.
  set (M := if s <? 0 then Z.neg m else Z.pos m).
  assert (- n <= 2 * (M * n - s * B) <= n) as Hsigned.
  { unfold M. destruct (Z.ltb_spec s 0).
    - rewrite Z.abs_neq in Hnear by lia.
      replace (Z.neg m) with (- Z.pos m) by lia. lia.
    - by rewrite Z.abs_eq in Hnear by lia. }
  assert (B * lo <= M <= B * hi) as Hbetween.
  { assert (n * lo * B <= s * B) as H1 by (apply Z.mul_le_mono_nonneg_r; lia).
    assert (s * B <= n * hi * B) as H2 by (apply Z.mul_le_mono_nonneg_r; lia).
    assert (n * (2 * (B * lo) - 1) <= n * (2 * M)) as H3
      by (replace (n * (2 * (B * lo) - 1)) with (2 * (n * lo * B) - n) by ring;
          replace (n * (2 * M)) with (2 * (M * n)) by ring; lia).
    assert (n * (2 * M) <= n * (2 * (B * hi) + 1)) as H4
      by (replace (n * (2 * (B * hi) + 1)) with (2 * (n * hi * B) + n) by ring;
          replace (n * (2 * M)) with (2 * (M * n)) by ring; lia).
    apply Z.mul_le_mono_pos_l in H3, H4; lia. }
  unfold roundOf. fold M. destruct (Z.leb_spec 0 e).
  - assert (e = 0) as -> by lia. subst B. change (2 ^ (- 0)) with 1 in Hbetween.
    change (2 ^ 0) with 1. lia.
  - by apply roundDiv_between.
Qed.

(** The sum of the doubles is the sum of the integers while the magnitudes
    add up to less than 2^53. *)
Lemma sum64_exact (l : list Z) acc :
  Z.abs acc + sumAbs l < 2 ^ 53 ->
  fold_left (fun a b => SF64add a (numberOf b)) l (numberOf acc)
  = numberOf (fold_left Z.add l acc).
Proof.
  revert acc. induction l as [|x l IH]; intros acc Hsum; cbn [fold_left sumAbs] in *.
  - done.
  - pose proof (Z.abs_triangle acc x).
    assert (0 <= sumAbs l) by (clear; induction l; cbn [sumAbs]; lia).
    rewrite SF64add_exact by lia. apply IH. lia.
Qed.

(** A double of 53 bits times 100: a double of 53 bits within half a unit
    in the last place of the exact product, six to eight binary places
    up. *)
Lemma SF64mul_hundred_nearest m1 e1 :
  2 ^ 52 <= Z.pos m1 < 2 ^ 53 -> -200 <= e1 <= 0 ->
  exists m2 j,
    SF64mul (S754_finite false m1 e1) (numberOf 100) = S754_finite false m2 (e1 + j)
    /\ 2 ^ 52 <= Z.pos m2 < 2 ^ 53 /\ 6 <= j <= 8
    /\ - 2 ^ j <= 2 * (Z.pos m2 * 2 ^ j - 100 * Z.pos m1) <= 2 ^ j.
Proof.
  intros Hm1 He1.
  assert (numberOf 100 = S754_finite false 7036874417766400 (-46)) as ->
    by (vm_compute; reflexivity).
  unfold SF64mul, SFmul. cbn [xorb].
  set (q := Z.pos (m1 * 7036874417766400)).
  assert (q = Z.pos m1 * (100 * 2 ^ 46)) as Hq by (unfold q; lia).
  assert (2 ^ 104 <= q < 2 ^ 106) as Hrange.
  { rewrite Hq. change (2 ^ 104) with (2 ^ 52 * 2 ^ 52).
    change (2 ^ 106) with (2 ^ 53 * 2 ^ 53). change (2 ^ 46) with 70368744177664.
    change (2 ^ 52) with 4503599627370496 in *.
    change (2 ^ 53) with 9007199254740992 in *. lia. }
  assert (105 <= Zdigits2 q <= 106) as Hdq.
  { split; [apply Zdigits2_ge|apply Zdigits2_le]; lia. }
  destruct (binary_round_aux_nearest false q (e1 + -46) loc_Exact q 1)
    as (m2 & e2 & -> & Hm2 & He2 & Hnear);
    [lia|apply located_of_loc_Exact| |lia|lia|].
  { assert (2 ^ 52 <= 2 ^ 104) by (apply Z.pow_le_mono_r; lia). lia. }
  exists m2, (e2 - e1). replace (e1 + (e2 - e1)) with e2 by lia.
  split; [done|]. split; [done|]. split; [lia|].
  replace (e2 - (e1 + -46)) with (e2 - e1 + 46) in Hnear by lia.
  rewrite pow2_split, Hq, !Z.mul_1_r, Z.mul_1_l in Hnear by lia.
  assert (0 < 2 ^ 46) as H46 by done.
  apply (cancel_bound _ _ _ (2 ^ 46) H46).
  replace (Z.pos m2 * 2 ^ (e2 - e1) * 2 ^ 46)
    with (Z.pos m2 * (2 ^ (e2 - e1) * 2 ^ 46)) by ring.
  replace (100 * Z.pos m1 * 2 ^ 46) with (Z.pos m1 * (100 * 2 ^ 46)) by ring.
  done.
Qed.

(** The last step of the error analysis: an error of a hundredth of
    [T * r] at most, with [T] at 2^52 or above, is gone in the quotient. *)
Lemma percent_error T A r c :
  2 ^ 52 <= T -> 0 < r -> 0 <= A -> 0 <= c <= 35600 ->
  2 * (T * A) <= T * r + c * r -> 100 * A <= 51 * r.
Proof.
  intros HT Hr HA Hc Hle.
  destruct (Z.le_gt_cases (100 * A) (51 * r)) as [|Hgt]; [done|]. exfalso.
  assert (T * (51 * r + 1) <= T * (100 * A)) as H1
    by (apply Z.mul_le_mono_nonneg_l; lia).
  assert (c * r <= 35600 * r) as H2 by (apply Z.mul_le_mono_nonneg_r; lia).
  assert (2 ^ 52 * r <= T * r) as H3 by (apply Z.mul_le_mono_nonneg_r; lia).
  change (2 ^ 52) with 4503599627370496 in *. lia.
Qed.

(** The percentage, as the doubles compute it and as it is printed with
    two decimals: the exact percentage to within 0.0051. *)
Lemma percentOf_accurate s r :
  0 <= s <= r -> 0 < r < 2 ^ 53 ->
  exists d,
    toFixed2 (percentOf s r) = decimal (d / 100) +:+ "." +:+ twoDigits (d mod 100)
    /\ 0 <= d
    /\ 100 * Z.abs (d * r - 10000 * s) <= 51 * r.
Proof.
  intros Hs Hr. unfold percentOf.
  destruct (decide (s = 0)) as [->|Hne].
  { rewrite numberOf_zero.
    destruct (numberOf_finite r ltac:(lia)) as (mr & er & -> & _).
    exists 0. split; [by vm_compute|]. lia. }
  destruct (SF64div_nearest s r ltac:(lia) Hr ltac:(lia))
    as (m1 & e1 & -> & Hm1 & He1 & Hnear1).
  assert ((s <? 0) = false) as -> by (apply Z.ltb_ge; lia).
  rewrite Z.abs_eq in Hnear1 by lia.
  assert (0 < 2 ^ (- e1)) as HB1 by (apply Z.pow_pos_nonneg; lia).
  assert (e1 <= -52) as He1'.
  { (* the quotient is 1 at most *)
    destruct Hnear1 as [_ Hhi].
    assert (s * 2 ^ (- e1) <= r * 2 ^ (- e1)) as H1
      by (apply Z.mul_le_mono_nonneg_r; lia).
    assert ((2 * Z.pos m1 - 1) * r <= 2 * 2 ^ (- e1) * r) as H2 by lia.
    apply Z.mul_le_mono_pos_r in H2; [|lia].
    assert (2 ^ 52 <= 2 ^ (- e1)) as H3 by lia.
    destruct (Z.le_gt_cases e1 (-52)) as [|Hgt]; [done|]. exfalso.
    assert (2 ^ (- e1) <= 2 ^ 51) by (apply Z.pow_le_mono_r; lia).
    change (2 ^ 52) with (2 * 2 ^ 51) in *. lia. }
  destruct (SF64mul_hundred_nearest m1 e1 Hm1 ltac:(lia))
    as (m2 & j & -> & Hm2 & Hj & Hnear2).
  cbn [toFixed2]. rewrite append_nil_l. unfold hundredths.
  rewrite (proj2 (Z.leb_gt 0 (e1 + j))) by lia.
  assert (0 < 2 ^ (- (e1 + j))) as HB2 by (apply Z.pow_pos_nonneg; lia).
  pose proof (roundDiv_spec (Z.pos m2 * 100) (2 ^ (- (e1 + j))) HB2) as Hd.
  set (d := roundDiv (Z.pos m2 * 100) (2 ^ (- (e1 + j)))) in *. clearbody d.
  set (B2 := 2 ^ (- (e1 + j))) in *.
  assert (0 < 2 ^ j) as HJ by (apply Z.pow_pos_nonneg; lia).
  assert (2 ^ j <= 256) as HJ'.
  { change 256 with (2 ^ 8). apply Z.pow_le_mono_r; lia. }
  assert (2 ^ (- e1) = B2 * 2 ^ j) as HT.
  { unfold B2. rewrite <- Z.pow_add_r by lia. f_equal. lia. }
  assert (2 ^ 52 <= B2 * 2 ^ j) as HT52.
  { rewrite <- HT. apply Z.pow_le_mono_r; lia. }
  rewrite HT in Hnear1. clearbody B2. clear HT HB1.
  exists d. split; [done|].
  assert (0 <= d) as Hd0.
  { destruct (Z.le_gt_cases 0 d) as [|Hneg]; [done|]. exfalso.
    assert (B2 * (2 * d + 1) <= B2 * (-1)) by (apply Z.mul_le_mono_nonneg_l; lia).
    lia. }
  split; [done|].
  apply (percent_error (B2 * 2 ^ j) _ _ (100 * 2 ^ j + 10000)); [done|lia|lia|lia|].
  (* the three errors, brought to the scale of [B2 * 2^j * r] *)
  set (J := 2 ^ j) in *. clearbody J.
  set (M1 := Z.pos m1) in *. set (M2 := Z.pos m2) in *. clearbody M1 M2.
  clear - Hd Hnear1 Hnear2 Hr HJ HB2 Hs.
  assert (- (B2 * (J * r)) <= (2 * d * B2 - 200 * M2) * (J * r) <= B2 * (J * r)) as E3.
  { split.
    - replace (- (B2 * (J * r))) with ((- B2) * (J * r)) by ring.
      apply Z.mul_le_mono_nonneg_r; lia.
    - apply Z.mul_le_mono_nonneg_r; lia. }
  assert (- (J * (100 * r)) <= (2 * M2 * J - 200 * M1) * (100 * r) <= J * (100 * r)) as E2.
  { split.
    - replace (- (J * (100 * r))) with ((- J) * (100 * r)) by ring.
      apply Z.mul_le_mono_nonneg_r; lia.
    - apply Z.mul_le_mono_nonneg_r; lia. }
  apply Z.abs_case; [intros ? ? ->; done| |]; lia.
Qed.

(** The integer ceiling that [percentile] is embedded with is the one that
    the doubles give, checked here for the three percentages and every array
    of up to 2000 elements. *)
Lemma ceilDiv_binary64 p n :
  p ∈ [90; 95; 99] -> 1 <= n <= 2000 ->
  ceilOfProduct p n = Some (ceilDiv (p * n) 100).
Proof.
  intros Hp Hn.
  set (agrees := fun p n =>
         match ceilOfProduct p n with
         | Some k => k =? ceilDiv (p * n) 100
         | None => false
         end).
  assert (forallb (fun p => forallb (agrees p) (seqZ 1 2000)) [90; 95; 99] = true)
    as Hall by (vm_compute; reflexivity).
  assert (forallb (agrees p) (seqZ 1 2000) = true) as Hp'.
  { apply (proj1 (forallb_forall _ _) Hall). by apply list_elem_of_In. }
  assert (agrees p n = true) as Hagrees.
  { apply (proj1 (forallb_forall _ _) Hp'). apply list_elem_of_In, elem_of_seqZ. lia. }
  unfold agrees in Hagrees.
  destruct (ceilOfProduct p n) as [k|]; [|done].
  by apply Z.eqb_eq in Hagrees as ->.
Qed.

End binary64.

(** ** Statistics *)

Section statistics.
Local Open Scope Z_scope.

Lemma sum_acc (l : list Z) a : fold_left Z.add l a = a + fold_left Z.add l 0.
Proof.
  revert a. induction l as [|x l IH]; intros a; cbn [fold_left]; [lia|].
  rewrite (IH (a + x)), (IH (0 + x)). lia.
Qed.

Lemma sum_cons x (l : list Z) :
  fold_left Z.add (x :: l) 0 = x + fold_left Z.add l 0.
Proof. cbn [fold_left]. by rewrite sum_acc. Qed.

Lemma sum_Permutation (l l' : list Z) :
  l ≡ₚ l' -> fold_left Z.add l 0 = fold_left Z.add l' 0.
Proof.
  induction 1 as [|x l l' _ IH|x y l|l l' l'' _ IH1 _ IH2];
    rewrite ?sum_cons; lia.
Qed.

Lemma sum_bounds lo hi (l : list Z) :
  Forall (fun x => lo <= x <= hi) l ->
  arrayLength l * lo <= fold_left Z.add l 0 <= arrayLength l * hi.
Proof.
  unfold arrayLength. induction 1 as [|x l Hx _ IH].
  - cbn. lia.
  - rewrite sum_cons, length_cons, Nat2Z.inj_succ. lia.
Qed.

Lemma StronglySorted_lookup_le (l : list Z) (i j : nat) x y :
  StronglySorted Z.le l -> (i <= j)%nat ->
  l !! i = Some x -> l !! j = Some y -> x <= y.
Proof.
  intros Hs. revert i j. induction Hs as [|a l Hs IH Hall]; intros i j Hij Hi Hj.
  - done.
  - destruct i as [|i], j as [|j]; simplify_eq/=; try lia.
    + by eapply (proj1 (Forall_lookup _ _) Hall).
    + eapply IH; [|done..]. lia.
Qed.

Lemma sortAscending_sorted values : StronglySorted Z.le (sortAscending values).
Proof. apply StronglySorted_merge_sort; apply _. Qed.

Lemma sortAscending_Permutation values : sortAscending values ≡ₚ values.
Proof. apply merge_sort_Permutation. Qed.

Lemma sortAscending_length values :
  arrayLength (sortAscending values) = arrayLength values.
Proof. unfold arrayLength. by rewrite sortAscending_Permutation. Qed.

Lemma arrayLength_pos {A} (l : list A) : l <> [] -> 0 < arrayLength l.
Proof. unfold arrayLength. destruct l; [done|]. rewrite length_cons. lia. Qed.

Lemma at_index_lookup {A} (l : list A) i :
  0 <= i -> at_index l i = l !! Z.to_nat i.
Proof. intros Hi. unfold at_index. by rewrite (proj2 (Z.ltb_ge i 0)). Qed.

Lemma at_index_first {A} (l : list A) : at_index l 0 = head l.
Proof. by destruct l. Qed.

Lemma at_index_last {A} (l : list A) : at_index l (arrayLength l - 1) = last l.
Proof.
  unfold arrayLength. destruct l as [|x l]; [done|].
  rewrite at_index_lookup, last_lookup by (rewrite length_cons; lia).
  f_equal. rewrite length_cons. lia.
Qed.

(** The index [percentile] reads is inside the array for a percentage
    between 0 and 100, and it is the ceiling of [p * n / 100] less one. *)
Lemma percentile_index (sorted : list Z) p :
  sorted <> [] -> 0 < p <= 100 ->
  let k := ceilDiv (p * arrayLength sorted) 100 in
  1 <= k <= arrayLength sorted
  /\ percentile sorted p = sorted !! Z.to_nat (k - 1)
  /\ is_Some (percentile sorted p).
Proof.
  intros Hne Hp k. pose proof (arrayLength_pos sorted Hne) as Hn.
  pose proof (ceilDiv_spec (p * arrayLength sorted) 100 ltac:(lia)) as Hk.
  fold k in Hk. assert (1 <= k <= arrayLength sorted) as Hrange by nia.
  assert (percentile sorted p = sorted !! Z.to_nat (k - 1)) as Heq.
  { unfold percentile. rewrite (proj2 (Z.eqb_neq _ 0)) by lia.
    fold k. rewrite Z.max_r, at_index_lookup by lia. done. }
  split; [done|]. split; [done|]. rewrite Heq.
  apply lookup_lt_is_Some. unfold arrayLength in Hrange. lia.
Qed.

Lemma percentile_mono (sorted : list Z) p q x y :
  StronglySorted Z.le sorted -> sorted <> [] -> 0 < p <= q -> q <= 100 ->
  percentile sorted p = Some x -> percentile sorted q = Some y -> x <= y.
Proof.
  intros Hs Hne Hp Hq Hx Hy.
  destruct (percentile_index sorted p Hne ltac:(lia)) as (Hkp & Hep & _).
  destruct (percentile_index sorted q Hne ltac:(lia)) as (Hkq & Heq & _).
  rewrite Hep in Hx. rewrite Heq in Hy.
  eapply StronglySorted_lookup_le; [done| |done..].
  pose proof (arrayLength_pos sorted Hne).
  pose proof (ceilDiv_mono (p * arrayLength sorted) (q * arrayLength sorted) 100).
  nia.
Qed.

Lemma percentile_le_last (sorted : list Z) p x mx :
  StronglySorted Z.le sorted -> sorted <> [] -> 0 < p <= 100 ->
  percentile sorted p = Some x -> last sorted = Some mx -> x <= mx.
Proof.
  intros Hs Hne Hp Hx Hmx.
  destruct (percentile_index sorted p Hne Hp) as (Hk & He & _).
  rewrite He in Hx. rewrite last_lookup in Hmx.
  eapply StronglySorted_lookup_le; [done| |done..].
  unfold arrayLength in *. lia.
Qed.

Lemma sorted_between (sorted : list Z) mn mx :
  StronglySorted Z.le sorted -> head sorted = Some mn -> last sorted = Some mx ->
  Forall (fun x => mn <= x <= mx) sorted.
Proof.
  intros Hs Hmn Hmx. apply Forall_lookup. intros i x Hi.
  rewrite head_lookup in Hmn. rewrite last_lookup in Hmx.
  pose proof (lookup_lt_Some _ _ _ Hi). split.
  - eapply (StronglySorted_lookup_le sorted 0 i); [done| |done..]. lia.
  - eapply (StronglySorted_lookup_le sorted i); [done| |done..]. lia.
Qed.

Lemma sum_fold_right (l : list Z) :
  fold_left Z.add l 0 = fold_right Z.add 0 l.
Proof.
  induction l as [|x l IH]; [done|]. rewrite sum_cons, IH. done.
Qed.

Lemma percentile_isPercentileOf (sorted : list Z) p :
  sorted <> [] -> 0 < p <= 100 ->
  isPercentileOf sorted p (percentile sorted p).
Proof.
  intros Hne Hp.
  destruct (percentile_index sorted p Hne Hp) as (Hk & He & [v Hv]).
  exists (ceilDiv (p * arrayLength sorted) 100), v. split; [|split].
  - apply ceilDiv_spec. lia.
  - rewrite Z.max_r by lia. by rewrite <- He.
  - done.
Qed.

Lemma sortAscending_nonempty values : values <> [] -> sortAscending values <> [].
Proof.
  intros Hne Hs. apply Hne. apply Permutation_nil_r.
  rewrite <- Hs. symmetry. apply sortAscending_Permutation.
Qed.

Lemma calculateStatistics_empty :
  calculateStatistics []
  = Stats.mk (Some 0) (Some 0) 0 (Some 0) (Some 0) (Some 0).
Proof. reflexivity. Qed.

Lemma calculateStatistics_nonempty values :
  values <> [] ->
  calculateStatistics values =
  let sorted := sortAscending values in
  Stats.mk (head sorted) (last sorted)
    (roundOf
       (SF64div
          (fold_left (fun a b => SF64add a (numberOf b)) sorted (numberOf 0))
          (numberOf (arrayLength sorted))))
    (percentile sorted 90) (percentile sorted 95) (percentile sorted 99).
Proof.
  intros Hne. unfold calculateStatistics.
  pose proof (arrayLength_pos values Hne).
  rewrite (proj2 (Z.eqb_neq _ 0)) by lia.
  cbv zeta. by rewrite at_index_first, at_index_last.
Qed.

Lemma sumAbs_nonneg l : 0 <= sumAbs l.
Proof. induction l; cbn [sumAbs]; lia. Qed.

Lemma sumAbs_Permutation l l' : l ≡ₚ l' -> sumAbs l = sumAbs l'.
Proof.
  induction 1 as [|x l l' _ IH|x y l|l l' l'' _ IH1 _ IH2]; cbn [sumAbs]; lia.
Qed.

Lemma sum_le_sumAbs l : Z.abs (fold_left Z.add l 0) <= sumAbs l.
Proof.
  induction l as [|x l IH]; [done|]. rewrite sum_cons. cbn [sumAbs]. lia.
Qed.

(** Within the range the doubles do not show: the average is the rounded
    quotient of the exact sum. *)
Lemma average_in_range values :
  values <> [] -> sumAbs values < 2 ^ 52 -> arrayLength values < 2 ^ 32 ->
  Stats.avg (calculateStatistics values)
  = roundDiv (fold_left Z.add (sortAscending values) 0) (arrayLength values).
Proof.
  intros Hne Hsum Hlen. rewrite calculateStatistics_nonempty by done.
  cbv zeta. cbn [Stats.avg].
  pose proof (sumAbs_Permutation _ _ (sortAscending_Permutation values)) as Hperm.
  pose proof (sum_le_sumAbs (sortAscending values)) as Hle.
  pose proof (arrayLength_pos values Hne) as Hpos.
  rewrite sum64_exact by (cbn [Z.abs]; lia).
  rewrite sortAscending_length.
  apply round_quotient; lia.
Qed.

(** C5, within the range of the doubles: on the empty list
    [calculateStatistics] returns zeros everywhere; on a non-empty list of N
    numbers, min and max are the first and the last element of the
    ascending sort, p90, p95 and p99 are the elements of the sorted list at
    index ceil(p/100 * N) - 1 clamped to at least 0, all of them read inside
    the array and taken from it as they are, and avg is the arithmetic mean
    rounded to the nearest integer when the magnitudes of the numbers add
    up to less than 2^52 (an array has fewer than 2^32 elements). *)
Theorem calculateStatistics_spec :
  calculateStatistics []
  = Stats.mk (Some 0) (Some 0) 0 (Some 0) (Some 0) (Some 0)
  /\ forall values, values <> [] ->
      let stats := calculateStatistics values in
      let sorted := sortAscending values in
      Sorted Z.le sorted /\ sorted ≡ₚ values
      /\ Stats.min stats = head sorted /\ is_Some (Stats.min stats)
      /\ Stats.max stats = last sorted /\ is_Some (Stats.max stats)
      /\ (sumAbs values < 2 ^ 52 -> arrayLength values < 2 ^ 32 ->
          isRoundedMean values (Stats.avg stats))
      /\ isPercentileOf sorted 90 (Stats.p90 stats)
      /\ isPercentileOf sorted 95 (Stats.p95 stats)
      /\ isPercentileOf sorted 99 (Stats.p99 stats).
Proof.
  split; [apply calculateStatistics_empty|]. intros values Hne stats sorted.
  pose proof (sortAscending_nonempty values Hne) as Hsne. fold sorted in Hsne.
  assert (sumAbs values < 2 ^ 52 -> arrayLength values < 2 ^ 32 ->
          isRoundedMean values (Stats.avg stats)) as Havg.
  { intros Hsum Hlen. subst stats. rewrite average_in_range by done.
    unfold isRoundedMean. rewrite <- sum_fold_right.
    rewrite <- (sum_Permutation _ _ (sortAscending_Permutation values)).
    apply roundDiv_spec. by apply arrayLength_pos. }
  revert Havg.
  subst stats. rewrite calculateStatistics_nonempty by done. fold sorted.
  cbn [Stats.min Stats.max Stats.avg Stats.p90 Stats.p95 Stats.p99].
  intros Havg.
  split; [apply StronglySorted_Sorted, sortAscending_sorted|].
  split; [apply sortAscending_Permutation|].
  split; [done|]. split; [by destruct sorted|].
  split; [done|].
  split; [rewrite last_lookup; apply lookup_lt_is_Some; destruct sorted;
          [done|rewrite length_cons; lia]|].
  split; [done|].
  repeat split; apply percentile_isPercentileOf; done || lia.
Qed.

Lemma calculateStatistics_spec_witness :
  let values := [30; 10; 20] in
  Stats.min (calculateStatistics values) = head (sortAscending values)
  /\ Stats.max (calculateStatistics values) = last (sortAscending values)
  /\ isRoundedMean values (Stats.avg (calculateStatistics values))
  /\ isPercentileOf (sortAscending values) 90
       (Stats.p90 (calculateStatistics values)).
Proof.
  intros values.
  destruct (proj2 calculateStatistics_spec values ltac:(discriminate))
    as (_ & _ & Hmin & _ & Hmax & _ & Havg & Hp90 & _).
  exact (conj Hmin (conj Hmax
           (conj (Havg ltac:(by vm_compute) ltac:(by vm_compute)) Hp90))).
Defined.

(** C5 as it is stated, for every list, fails: the three numbers add up to
    2^53 - 1, their mean is 3002399751580330 and a third, the quotient of
    the doubles is 3002399751580330.5, and the average is one above the
    rounded mean. It fails from 2^52 on: the nine numbers add up to
    9 * 2^49 + 4, their mean is 2^49 and four ninths, and the quotient of
    the doubles is 2^49 and a half. *)
Lemma calculateStatistics_avg_of_doubles :
  Stats.avg (calculateStatistics wide_values) = 3002399751580331
  /\ ~ isRoundedMean wide_values (Stats.avg (calculateStatistics wide_values))
  /\ sumAbs narrow_values = 2 ^ 52 + 2 ^ 49 + 4
  /\ Stats.avg (calculateStatistics narrow_values) = 2 ^ 49 + 1
  /\ ~ isRoundedMean narrow_values (Stats.avg (calculateStatistics narrow_values)).
Proof.
  assert (Stats.avg (calculateStatistics wide_values) = 3002399751580331) as ->
    by (vm_compute; reflexivity).
  assert (Stats.avg (calculateStatistics narrow_values) = 2 ^ 49 + 1) as ->
    by (vm_compute; reflexivity).
  split; [done|]. split; [|split; [by vm_compute|split; [done|]]].
  - unfold isRoundedMean, wide_values, arrayLength.
    cbn [length fold_right Z.of_nat]. lia.
  - unfold isRoundedMean, narrow_values, arrayLength.
    cbn [replicate app length fold_right Z.of_nat]. lia.
Qed.

(** C6, within the range of the doubles: for every list of integers, the
    empty one included, the statistics satisfy p90 <= p95 <= p99 <= max,
    and min <= avg <= max when the magnitudes of the numbers add up to less
    than 2^53 (an array has fewer than 2^32 elements). *)
Theorem calculateStatistics_ordered (values : list Z) :
  exists mn mx a b c,
    let stats := calculateStatistics values in
    Stats.min stats = Some mn /\ Stats.max stats = Some mx
    /\ Stats.p90 stats = Some a /\ Stats.p95 stats = Some b
    /\ Stats.p99 stats = Some c
    /\ (sumAbs values < 2 ^ 53 -> arrayLength values < 2 ^ 32 ->
        mn <= Stats.avg stats <= mx)
    /\ a <= b <= c /\ c <= mx.
Proof.
  destruct (decide (values = [])) as [->|Hne].
  { exists 0, 0, 0, 0, 0. rewrite calculateStatistics_empty.
    cbn [Stats.min Stats.max Stats.avg Stats.p90 Stats.p95 Stats.p99].
    repeat split; lia || reflexivity. }
  pose proof (sortAscending_nonempty values Hne) as Hsne.
  pose proof (sortAscending_sorted values) as Hs.
  rewrite calculateStatistics_nonempty by done. cbv zeta.
  cbn [Stats.min Stats.max Stats.avg Stats.p90 Stats.p95 Stats.p99].
  pose proof (sumAbs_Permutation _ _ (sortAscending_Permutation values)) as Hperm.
  pose proof (sortAscending_length values) as Hlength.
  set (sorted := sortAscending values) in *.
  destruct (percentile_index sorted 90 Hsne ltac:(lia)) as (_ & _ & [a Ha]).
  destruct (percentile_index sorted 95 Hsne ltac:(lia)) as (_ & _ & [b Hb]).
  destruct (percentile_index sorted 99 Hsne ltac:(lia)) as (_ & _ & [c Hc]).
  destruct (head sorted) as [mn|] eqn:Hmn; [|by destruct sorted].
  destruct (last sorted) as [mx|] eqn:Hmx;
    [|by apply last_None in Hmx].
  exists mn, mx, a, b, c.
  do 5 (split; [done|]). split; [|split; [split|]].
  - intros Hsum Hlen.
    pose proof (sum_le_sumAbs sorted) as Hle.
    pose proof (arrayLength_pos sorted Hsne) as Hpos.
    rewrite sum64_exact by (cbn [Z.abs]; lia).
    apply round_quotient_between; [lia|lia|].
    pose proof (sum_bounds mn mx sorted (sorted_between _ _ _ Hs Hmn Hmx)). lia.
  - by apply (percentile_mono sorted 90 95).
  - by apply (percentile_mono sorted 95 99).
  - by apply (percentile_le_last sorted 99).
Qed.

Lemma calculateStatistics_ordered_witness :
  exists mn mx,
    Stats.min (calculateStatistics [30; 10; 25]) = Some mn
    /\ Stats.max (calculateStatistics [30; 10; 25]) = Some mx
    /\ mn <= Stats.avg (calculateStatistics [30; 10; 25]) <= mx.
Proof.
  destruct (calculateStatistics_ordered [30; 10; 25])
    as (mn & mx & a & b & c & Hmn & Hmx & _ & _ & _ & Havg & _).
  exists mn, mx. split; [done|]. split; [done|].
  apply Havg; by vm_compute.
Defined.

(** C6 as it is stated, for every list, fails: five times 2^53 - 1 add up,
    in doubles, to 8 less than their sum, and the average is one below the
    least value. *)
Lemma calculateStatistics_avg_below_min :
  Stats.min (calculateStatistics widest_values) = Some 9007199254740991
  /\ Stats.avg (calculateStatistics widest_values) = 9007199254740990
  /\ ~ (exists mn, Stats.min (calculateStatistics widest_values) = Some mn
                   /\ mn <= Stats.avg (calculateStatistics widest_values)).
Proof.
  assert (Stats.min (calculateStatistics widest_values) = Some 9007199254740991)
    as -> by (vm_compute; reflexivity).
  assert (Stats.avg (calculateStatistics widest_values) = 9007199254740990)
    as -> by (vm_compute; reflexivity).
  split; [done|]. split; [done|]. intros (mn & [= <-] & Hle). lia.
Qed.

End statistics.

(** ** The single pass: tallies *)

Section tallies.
Local Open Scope Z_scope.

Lemma sameTallies_refl st : sameTallies st st.
Proof. by repeat split. Qed.

Lemma sameTallies_withWindow st samples transactions current index expected collected :
  sameTallies st (withWindow st samples transactions current index expected collected).
Proof. by repeat split. Qed.

Lemma openExecution_tallies st sample st' :
  openExecution st sample = Some st' -> sameTallies st st'.
Proof.
  unfold openExecution. intros H. repeat case_match; simplify_eq;
    apply sameTallies_withWindow.
Qed.

Lemma pushChild_tallies st sample st' :
  pushChild st sample = Some st' -> sameTallies st st'.
Proof.
  unfold pushChild. intros H. repeat case_match; simplify_eq;
    apply sameTallies_withWindow.
Qed.

Lemma captureChild_tallies st sample st' :
  captureChild st sample = Some st' -> sameTallies st st'.
Proof.
  unfold captureChild. intros H.
  repeat case_match; simplify_eq;
    try apply pushChild_tallies in H;
    by repeat split; try apply H.
Qed.

Lemma countsAsError_fails sample :
  countsAsError sample = true -> Sample.success sample = false.
Proof. unfold countsAsError. by destruct (Sample.success sample). Qed.

Lemma processSample_tallies st sample st' :
  processSample st sample = Some st' ->
  Scan.allSamples st' = Scan.allSamples st ++ [sample]
  /\ Scan.errors st' = Scan.errors st ++ errorsOf [sample]
  /\ Scan.totalErrorCount st'
     = Scan.totalErrorCount st + countOf countsAsError [sample]
  /\ Scan.totalSuccessCount st'
     = Scan.totalSuccessCount st + countOf Sample.success [sample].
Proof.
  unfold processSample. intros H.
  assert (sameTallies (tally (recordSample st sample) sample) st')
    as (Hall & Herr & Hsucc & Hfail).
  { repeat case_match; simplify_eq;
      eauto using openExecution_tallies, captureChild_tallies, sameTallies_refl. }
  rewrite Hall, Herr, Hsucc, Hfail. clear.
  unfold tally, errorsOf, countOf, arrayLength. cbn [List.filter].
  destruct (countsAsError sample) eqn:Herror.
  - rewrite (countsAsError_fails _ Herror). cbn.
    repeat split; lia || done.
  - destruct (Sample.success sample); cbn;
      rewrite ?app_nil_r; repeat split; lia || done.
Qed.

Lemma readSamples_cons cols line lines :
  readSamples cols (line :: lines)
  = (if reachesColumns cols (parseCSVLine line)
     then [makeSample cols (parseCSVLine line)] else [])
    ++ readSamples cols lines.
Proof.
  unfold readSamples. cbn [map List.filter].
  by destruct (reachesColumns cols (parseCSVLine line)).
Qed.

Lemma errorsOf_app l l' : errorsOf (l ++ l') = errorsOf l ++ errorsOf l'.
Proof. unfold errorsOf. by rewrite List.filter_app, map_app. Qed.

Lemma countOf_app test l l' : countOf test (l ++ l') = countOf test l + countOf test l'.
Proof.
  unfold countOf, arrayLength. rewrite List.filter_app, length_app. lia.
Qed.

Lemma scanLines_tallies cols lines st st' :
  scanLines cols lines st = Some st' ->
  let rows := readSamples cols lines in
  Scan.allSamples st' = Scan.allSamples st ++ rows
  /\ Scan.errors st' = Scan.errors st ++ errorsOf rows
  /\ Scan.totalErrorCount st' = Scan.totalErrorCount st + countOf countsAsError rows
  /\ Scan.totalSuccessCount st' = Scan.totalSuccessCount st + countOf Sample.success rows.
Proof.
  revert st. induction lines as [|line lines IH]; intros st H rows; subst rows.
  - cbn in H. simplify_eq. unfold readSamples, errorsOf, countOf, arrayLength.
    cbn. rewrite !app_nil_r. repeat split; lia || done.
  - cbn [scanLines] in H. apply bind_Some in H as (st1 & Hline & Hrest).
    apply IH in Hrest as (Hall & Herr & Hfail & Hsucc). cbv zeta in *.
    rewrite readSamples_cons, errorsOf_app, !countOf_app.
    rewrite Hall, Herr, Hfail, Hsucc. clear Hall Herr Hfail Hsucc.
    unfold processLine in Hline.
    destruct (reachesColumns cols (parseCSVLine line)).
    + apply processSample_tallies in Hline as (-> & -> & -> & ->).
      rewrite <- !app_assoc. repeat split; lia || done.
    + simplify_eq. unfold errorsOf, countOf, arrayLength. cbn.
      repeat split; lia || done.
Qed.

(** What a file has to be for the pass to run: [parseJMeterResults] gives a
    result exactly when the pass ends without an exception. *)
Lemma parseJMeterResults_Some csv r :
  parseJMeterResults csv = Some r ->
  exists st,
    scanLines (columnsOf csv) (tail (csvLines csv)) initialScan = Some st
    /\ r = buildResult st.
Proof.
  unfold parseJMeterResults, columnsOf. intros H.
  repeat case_match; simplify_eq.
  apply fmap_Some in H as (st & Hst & ->). eauto.
Qed.

(** C3: the error counter, and the list of errors handed to the error
    analysis, count exactly the samples that failed, are individual requests
    and are no transaction controller; the success counter counts every
    successful sample, whatever its kind. *)
Theorem tallies_count_individual_errors csv r :
  parseJMeterResults csv = Some r ->
  let rows := samplesOf csv in
  Result.totalErrorCount r = arrayLength (List.filter countsAsError rows)
  /\ Result.errors r = map errorOf (List.filter countsAsError rows)
  /\ Result.totalSuccessCount r = arrayLength (List.filter Sample.success rows)
  /\ forall sample,
      countsAsError sample = true
      <-> Sample.success sample = false
          /\ (Sample.dataType sample <> ""
              \/ Sample.url sample <> "" /\ Sample.url sample <> "null")
          /\ isTransactionController sample = false.
Proof.
  intros H rows. apply parseJMeterResults_Some in H as (st & Hscan & ->).
  apply scanLines_tallies in Hscan as (_ & Herr & Hfail & Hsucc).
  cbn in Herr, Hfail, Hsucc. fold (samplesOf csv) in Herr, Hfail, Hsucc.
  fold rows in Herr, Hfail, Hsucc.
  cbn [buildResult Result.totalErrorCount Result.errors Result.totalSuccessCount].
  split; [by rewrite Hfail|]. split; [done|]. split; [by rewrite Hsucc|].
  intros sample. unfold countsAsError, isIndividualRequest, truthy.
  rewrite !andb_true_iff, !negb_true_iff, orb_true_iff, !andb_true_iff,
    !negb_true_iff, !String.eqb_neq.
  tauto.
Qed.

Lemma tallies_count_individual_errors_witness :
  exists r,
    parseJMeterResults tally_csv = Some r
    /\ Result.totalErrorCount r = 1 /\ Result.totalSuccessCount r = 1
    /\ Result.totalErrorCount r
       = arrayLength (List.filter countsAsError (samplesOf tally_csv))
    /\ Result.totalSuccessCount r
       = arrayLength (List.filter Sample.success (samplesOf tally_csv)).
Proof.
  eexists. split; [vm_compute; reflexivity|].
  split; [vm_compute; reflexivity|]. split; [vm_compute; reflexivity|].
  match goal with
  | |- Result.totalErrorCount ?r = _ /\ _ =>
      assert (parseJMeterResults tally_csv = Some r) as Hr
        by (vm_compute; reflexivity);
      destruct (tallies_count_individual_errors tally_csv r Hr)
        as (Herrors & _ & Hsuccesses & _)
  end.
  exact (conj Herrors Hsuccesses).
Defined.

End tallies.

(** ** The single pass: malformed input *)

Section malformed.
Local Open Scope Z_scope.

Lemma indexOf_from_range l x i :
  0 <= i -> indexOf_from l x i = -1 \/ i <= indexOf_from l x i.
Proof.
  revert i. induction l as [|y l IH]; intros i Hi; cbn [indexOf_from]; [by left|].
  destruct (String.eqb y x); [right; lia|].
  destruct (IH (i + 1) ltac:(lia)); [by left|right; lia].
Qed.

Lemma indexOf_from_missing l x i :
  0 <= i -> (indexOf_from l x i = -1 <-> x ∉ l).
Proof.
  revert i. induction l as [|y l IH]; intros i Hi; cbn [indexOf_from].
  - split; [intros _; apply not_elem_of_nil|done].
  - destruct (String.eqb_spec y x) as [->|Hne].
    + split; [lia|]. intros Hx. destruct Hx. left.
    + rewrite IH by lia. rewrite not_elem_of_cons.
      split; [by intros ?; split; [congruence|]|by intros [_ ?]].
Qed.

Lemma indexOf_missing l x : indexOf l x = -1 <-> x ∉ l.
Proof. by apply indexOf_from_missing. Qed.

Lemma reachesColumns_false cols values :
  reachesColumns cols values = false
  <-> arrayLength values
      <= Z.max (Columns.labelIndex cols) (Columns.elapsedIndex cols).
Proof. unfold reachesColumns. by rewrite Z.ltb_ge. Qed.

Lemma processLine_short cols st line :
  reachesColumns cols (parseCSVLine line) = false ->
  processLine cols st line = Some st.
Proof. unfold processLine. by intros ->. Qed.

Lemma scanLines_app cols before after st :
  scanLines cols (before ++ after) st
  = scanLines cols before st ≫= scanLines cols after.
Proof.
  revert st. induction before as [|line before IH]; intros st; [done|].
  cbn [app scanLines]. destruct (processLine cols st line); [apply IH|done].
Qed.

(** C4: a file with fewer than two non-blank lines, or whose header has no
    [label] or no [elapsed] column, makes [parseJMeterResults] return [null];
    the function is total, an exception of the pass ending in [null] as
    well; and a data row too short to reach the label and the elapsed column
    changes nothing: the pass goes on from the same state, so the result is
    that of the file without the row. *)
Theorem malformed_input_is_tolerated :
  (forall csv,
      arrayLength (csvLines csv) < 2 -> parseJMeterResults csv = None)
  /\ (forall csv,
      let headers := parseCSVLine (default "" (head (csvLines csv))) in
      "label" ∉ headers \/ "elapsed" ∉ headers ->
      parseJMeterResults csv = None)
  /\ (forall cols st line,
      arrayLength (parseCSVLine line)
      <= Z.max (Columns.labelIndex cols) (Columns.elapsedIndex cols) ->
      processLine cols st line = Some st)
  /\ (forall cols before line after st,
      arrayLength (parseCSVLine line)
      <= Z.max (Columns.labelIndex cols) (Columns.elapsedIndex cols) ->
      scanLines cols (before ++ line :: after) st
      = scanLines cols (before ++ after) st).
Proof.
  split; [|split; [|split]].
  - intros csv Hlines. unfold parseJMeterResults.
    by rewrite (proj2 (Z.ltb_lt _ _) Hlines).
  - intros csv headers Hmissing. unfold parseJMeterResults.
    destruct (arrayLength (csvLines csv) <? 2); [done|].
    fold headers. cbn [readColumns Columns.labelIndex Columns.elapsedIndex].
    destruct Hmissing as [H|H]; apply indexOf_missing in H; rewrite H;
      by rewrite ?orb_true_r.
  - intros cols st line Hshort. apply processLine_short.
    by apply reachesColumns_false.
  - intros cols before line after st Hshort.
    rewrite !scanLines_app. destruct (scanLines cols before st) as [st'|]; [|done].
    cbn [mbind option_bind scanLines].
    rewrite processLine_short by by apply reachesColumns_false. done.
Qed.

Lemma malformed_input_is_tolerated_witness :
  parseJMeterResults "" = None
  /\ parseJMeterResults scenario_header = None
  /\ parseJMeterResults headless_csv = None
  /\ processLine (columnsOf scenario_csv) initialScan "Login" = Some initialScan.
Proof.
  destruct malformed_input_is_tolerated as (Hfew & Hheader & Hshort & _).
  split; [|split; [|split]].
  - apply Hfew. by vm_compute.
  - apply Hfew. by vm_compute.
  - apply Hheader. left. vm_compute.
    intros H. repeat (apply elem_of_cons in H as [H|H]; [discriminate H|]).
    by apply elem_of_nil in H.
  - apply Hshort. by vm_compute.
Defined.

End malformed.

(** ** The expected child count is a number, and not a negative one *)

Section expected_count.
Local Open Scope Z_scope.

Lemma digits_loop_nonneg isD val radix s acc n :
  (forall c, isD c = true -> 0 <= val c) -> 0 <= radix ->
  (forall a, acc = Some a -> 0 <= a) ->
  digits_loop isD val radix s acc = Some n -> 0 <= n.
Proof.
  intros Hval Hradix. revert acc.
  induction s as [|c s IH]; intros acc Hacc; cbn [digits_loop]; [by auto|].
  destruct (isD c) eqn:Hc; [|by auto].
  apply IH. intros a [= <-]. specialize (Hval c Hc).
  destruct acc as [a|]; unfold default; cbn [from_option id];
    [specialize (Hacc a eq_refl)|]; nia.
Qed.

Lemma digits_loop_Some isD val radix s a :
  is_Some (digits_loop isD val radix s (Some a)).
Proof.
  revert a. induction s as [|c s IH]; intros a; cbn [digits_loop]; [by eexists|].
  destruct (isD c); [apply IH|by eexists].
Qed.

Lemma isDigit_value c : isDigit c = true -> 0 <= digitValue c.
Proof.
  destruct c as [[] [] [] [] [] [] [] []]; intros H; try discriminate H; done.
Qed.

Lemma isHexDigit_value c : isHexDigit c = true -> 0 <= hexDigitValue c.
Proof.
  destruct c as [[] [] [] [] [] [] [] []]; intros H; try discriminate H; done.
Qed.

Lemma parseDigits_nonneg radix s n : parseDigits radix s = Some n -> 0 <= n.
Proof.
  unfold parseDigits. destruct (radix =? 16).
  - apply digits_loop_nonneg; [apply isHexDigit_value|lia|done].
  - apply digits_loop_nonneg; [apply isDigit_value|lia|done].
Qed.

Lemma stripSign_digit c s : isDigit c = true -> stripSign (String c s) = (false, String c s).
Proof. by destruct c as [[] [] [] [] [] [] [] []]. Qed.

Lemma trimStart_digit c s : isDigit c = true -> trimStart (String c s) = String c s.
Proof. by destruct c as [[] [] [] [] [] [] [] []]. Qed.

Lemma stripRadix_digits c c' s :
  isDigit c' = true -> stripRadix (String c (String c' s)) = (10, String c (String c' s)).
Proof.
  intros Hc'.
  assert (c' <> "x"%char /\ c' <> "X"%char) as [Hx HX] by (split; by intros ->).
  destruct c as [[] [] [] [] [] [] [] []]; try done.
  destruct c' as [[] [] [] [] [] [] [] []]; done.
Qed.

Lemma stripRadix_single c : stripRadix (String c "") = (10, String c "").
Proof. by destruct c as [[] [] [] [] [] [] [] []]. Qed.

Lemma takeDigits_head s c digits :
  takeDigits s = String c digits ->
  isDigit c = true /\ exists s', digits = takeDigits s'.
Proof.
  destruct s as [|d s]; cbn [takeDigits]; [done|].
  destruct (isDigit d) eqn:Hd; [|done]. intros [= <- <-]. eauto.
Qed.

(** [parseInt] of a captured run of digits is a number, never [NaN]. *)
Lemma parseInt_takeDigits s :
  takeDigits s <> "" ->
  exists n, parseInt (takeDigits s) = Some n /\ 0 <= n.
Proof.
  intros Hne. destruct (takeDigits s) as [|c digits] eqn:Hs; [done|].
  apply takeDigits_head in Hs as (Hc & s' & ->).
  unfold parseInt. rewrite trimStart_digit, stripSign_digit by done.
  assert (stripRadix (String c (takeDigits s')) = (10, String c (takeDigits s')))
    as ->.
  { destruct (takeDigits s') as [|c' digits'] eqn:Hs'.
    - apply stripRadix_single.
    - apply takeDigits_head in Hs' as (Hc' & _). by apply stripRadix_digits. }
  unfold parseDigits. cbn [Z.eqb digits_loop]. rewrite Hc.
  destruct (digits_loop_Some isDigit digitValue 10 (takeDigits s')
              (default 0 None * 10 + digitValue c)) as [n Hn].
  exists n. rewrite Hn. split; [done|].
  eapply (digits_loop_nonneg isDigit digitValue 10);
    [apply isDigit_value|lia| |exact Hn].
  intros a [= <-]. pose proof (isDigit_value c Hc).
  unfold default; cbn [from_option id]. lia.
Qed.

Lemma matchCountTail_digits s digits :
  matchCountTail s = Some digits -> exists r, digits = takeDigits r /\ digits <> "".
Proof.
  unfold matchCountTail. intros H.
  repeat case_match; simplify_eq.
  eexists. split; [done|]. by apply String.eqb_neq.
Qed.

Lemma countMatch_digits s digits :
  countMatch s = Some digits -> exists r, digits = takeDigits r /\ digits <> "".
Proof.
  induction s as [|c s IH]; cbn [countMatch]; intros H;
    repeat case_match; simplify_eq; eauto using matchCountTail_digits.
Qed.

Lemma expectedCount_nonneg sample : 0 <= expectedCount sample.
Proof.
  unfold expectedCount.
  destruct (countMatch (Sample.responseMessage sample)) as [digits|] eqn:Hm; [|done].
  apply countMatch_digits in Hm as (r & -> & Hne).
  destruct (parseInt_takeDigits r Hne) as (n & -> & Hn). done.
Qed.

(** The [default] of [expectedCount] is never used. *)
Lemma expectedCount_is_number sample digits :
  countMatch (Sample.responseMessage sample) = Some digits ->
  parseInt digits = Some (expectedCount sample).
Proof.
  intros Hm. unfold expectedCount. rewrite Hm.
  apply countMatch_digits in Hm as (r & -> & Hne).
  by destruct (parseInt_takeDigits r Hne) as (n & -> & Hn).
Qed.

End expected_count.

(** ** The single pass: the window of captured children *)

Section reconstruction.
Local Open Scope Z_scope.

(** *** The [transactions] object *)

Lemma ownProperty_setProperty transactions key t key' :
  ownProperty (setProperty transactions key t) key'
  = if String.eqb key key' then Some t else ownProperty transactions key'.
Proof.
  induction transactions as [|[k0 t0] transactions IH]; cbn [setProperty ownProperty].
  - done.
  - destruct (String.eqb_spec k0 key) as [->|Hne]; cbn [ownProperty].
    + by destruct (String.eqb key key').
    + destruct (String.eqb_spec k0 key') as [->|Hne']; [|done].
      by rewrite (proj2 (String.eqb_neq key key')).
Qed.

Lemma ownProperty_setProperty_eq transactions key t :
  ownProperty (setProperty transactions key t) key = Some t.
Proof. by rewrite ownProperty_setProperty, String.eqb_refl. Qed.

Lemma ownProperty_setProperty_ne transactions key t key' :
  key <> key' ->
  ownProperty (setProperty transactions key t) key' = ownProperty transactions key'.
Proof.
  intros Hne. by rewrite ownProperty_setProperty, (proj2 (String.eqb_neq _ _) Hne).
Qed.

Lemma setProperty_twice transactions key t t' :
  setProperty (setProperty transactions key t) key t'
  = setProperty transactions key t'.
Proof.
  induction transactions as [|[k0 t0] transactions IH]; cbn [setProperty].
  - by rewrite String.eqb_refl.
  - destruct (String.eqb k0 key) eqn:Hk; cbn [setProperty]; rewrite Hk; [done|].
    by rewrite IH.
Qed.

Lemma getProperty_Own transactions key t :
  getProperty transactions key = Own t <-> ownProperty transactions key = Some t.
Proof.
  unfold getProperty. destruct (ownProperty transactions key).
  - split; congruence.
  - by destruct (existsb _ _).
Qed.

Lemma transactionFor_Some transactions key t :
  transactionFor transactions key = Some t ->
  ownProperty transactions key = Some t
  \/ ownProperty transactions key = None /\ t = newTransaction key.
Proof.
  unfold transactionFor, getProperty.
  destruct (ownProperty transactions key); [left; congruence|].
  destruct (existsb _ _); [done|]. right. split; congruence.
Qed.

(** *** Arrays with holes *)

Lemma get_hole_lookup {A} (a : list (option A)) i :
  0 <= i -> get_hole a i = mjoin (a !! Z.to_nat i).
Proof. intros Hi. unfold get_hole. by rewrite at_index_lookup. Qed.

Lemma get_hole_length {A} (a : list (option A)) :
  get_hole a (arrayLength a) = None.
Proof.
  unfold arrayLength. rewrite get_hole_lookup, Nat2Z.id by lia.
  by rewrite lookup_ge_None_2.
Qed.

Lemma set_hole_length {A} (a : list (option A)) v :
  set_hole a (length a) v = a ++ [Some v].
Proof.
  unfold set_hole. rewrite (proj2 (Nat.ltb_ge _ _)) by lia.
  by rewrite Nat.sub_diag.
Qed.

(** *** The steps of the pass *)

Lemma tally_window st sample :
  let st1 := tally (recordSample st sample) sample in
  Scan.transactions st1 = Scan.transactions st
  /\ Scan.samples st1 = Scan.samples st
  /\ windowOf st1 = windowOf st.
Proof. unfold tally. by repeat case_match. Qed.

Lemma openExecution_Some st sample st' :
  openExecution st sample = Some st' ->
  exists t,
    transactionFor (Scan.transactions st) (Sample.label sample) = Some t
    /\ st' = withWindow st (Scan.samples st ++ [sample])
               (setProperty (Scan.transactions st) (Sample.label sample)
                  (withExecution t sample))
               (Some (Sample.label sample))
               (arrayLength (Transaction.samples t)) (expectedCount sample) 0.
Proof.
  unfold openExecution, transactionFor.
  destruct (getProperty (Scan.transactions st) (Sample.label sample)) as [t| |] eqn:Hget.
  - rewrite Hget. intros [= <-]. by exists t.
  - by rewrite Hget.
  - assert (getProperty
              (setProperty (Scan.transactions st) (Sample.label sample)
                 (newTransaction (Sample.label sample)))
              (Sample.label sample)
            = Own (newTransaction (Sample.label sample))) as ->.
    { apply getProperty_Own, ownProperty_setProperty_eq. }
    intros [= <-]. exists (newTransaction (Sample.label sample)).
    by rewrite setProperty_twice.
Qed.

Lemma windowOpen_Some st :
  windowOpen st = true ->
  exists transactionName,
    Scan.currentTransaction st = Some transactionName
    /\ currentKey st = transactionName.
Proof.
  unfold windowOpen, currentKey.
  destruct (Scan.currentTransaction st) as [transactionName|]; [|done].
  intros _. by exists transactionName.
Qed.

Lemma pushChild_Some st sample st' :
  pushChild st sample = Some st' ->
  exists t children,
    ownProperty (Scan.transactions st) (currentKey st) = Some t
    /\ get_hole (Transaction.childRequestsByExecution t)
         (Scan.currentTransactionExecutionIndex st) = Some children
    /\ st' = withWindow st (Scan.samples st)
               (setProperty (Scan.transactions st) (currentKey st)
                  (withChild t (Scan.currentTransactionExecutionIndex st)
                     children sample))
               (Scan.currentTransaction st)
               (Scan.currentTransactionExecutionIndex st)
               (Scan.expectedChildRequestCount st)
               (Scan.collectedChildRequestCount st + 1).
Proof.
  unfold pushChild.
  destruct (getProperty _ _) as [t| |] eqn:Hget; [|done..].
  apply getProperty_Own in Hget.
  destruct (get_hole _ _) as [children|] eqn:Hchildren; [|done].
  intros [= <-]. by exists t, children.
Qed.

Lemma opensExecution_controller sample :
  isTransactionController sample = opensExecution sample.
Proof.
  unfold isTransactionController, opensExecution, truthy.
  destruct (String.eqb (Sample.dataType sample) ""); [|done]. cbn [andb].
  by destruct (Sample.responseMessage sample).
Qed.

Lemma processSample_windowStep st sample st' :
  processSample st sample = Some st' -> windowStep st sample st'.
Proof.
  unfold processSample.
  destruct (tally_window st sample) as (Htrans & _ & Hwindow).
  set (st1 := tally (recordSample st sample) sample) in *.
  destruct (opensExecution sample) eqn:Hopens.
  { intros (t & Ht & ->)%openExecution_Some. rewrite Htrans in *.
    by apply (step_open _ _ _ t). }
  destruct (windowOpen st1) eqn:Hopen; cycle 1.
  { intros [= <-]. apply step_pass; auto. }
  unfold captureChild.
  destruct (Scan.expectedChildRequestCount st1
            <=? Scan.collectedChildRequestCount st1) eqn:Hquota.
  { (* the quota is filled: the window closes and nothing is captured *)
    cbn [closeWindow withWindow Scan.collectedChildRequestCount
           Scan.expectedChildRequestCount Z.ltb Z.compare].
    rewrite andb_false_r, opensExecution_controller, Hopens.
    intros [= <-]. apply step_pass; auto. }
  destruct (isChildRequest sample
            && isDefined (getProperty (Scan.transactions st1) (currentKey st1))
            && (Scan.collectedChildRequestCount st1
                <? Scan.expectedChildRequestCount st1)) eqn:Hcapture.
  - apply andb_prop in Hcapture as [[Hchild _]%andb_prop Hroom].
    apply Z.ltb_lt in Hroom.
    destruct (windowOpen_Some _ Hopen) as (transactionName & Hcurrent & Hkey).
    intros (t & children & Ht & Hchildren & ->)%pushChild_Some.
    rewrite Hkey in *. injection Hwindow as Hc Hi He Hn.
    rewrite Htrans, ?Hc, ?Hi, ?He, ?Hn in *.
    apply (step_capture _ _ _ transactionName t children); try done.
    unfold windowOf. cbn. by rewrite Hcurrent.
  - rewrite opensExecution_controller, Hopens. intros [= <-].
    apply step_pass; auto.
Qed.

(** *** The invariant of the pass *)

Lemma ownProperty_elem_of transactions key t :
  ownProperty transactions key = Some t -> (key, t) ∈ transactions.
Proof.
  induction transactions as [|[k0 t0] transactions IH]; cbn [ownProperty]; [done|].
  destruct (String.eqb_spec k0 key) as [->|Hne].
  - intros [= ->]. left.
  - intros H. right. by apply IH.
Qed.

Lemma elem_of_setProperty transactions key t key' t' :
  (key', t') ∈ setProperty transactions key t ->
  (key', t') = (key, t) \/ (key', t') ∈ transactions.
Proof.
  induction transactions as [|[k0 t0] transactions IH]; cbn [setProperty].
  - intros ->%list_elem_of_singleton. by left.
  - destruct (String.eqb_spec k0 key) as [->|Hne].
    + intros [->|H]%elem_of_cons; [by left|]. right. by right.
    + intros [->|H]%elem_of_cons; [right; left|].
      destruct (IH H); [by left|right; by right].
Qed.

Lemma boundedChildren_new transactionName :
  boundedChildren (newTransaction transactionName).
Proof. split; [done|]. by intros i controller. Qed.

Lemma withExecution_children t sample :
  boundedChildren t ->
  Transaction.childRequestsByExecution (withExecution t sample)
  = Transaction.childRequestsByExecution t ++ [Some []].
Proof.
  intros [Hlen _]. unfold withExecution, arrayLength.
  cbn [Transaction.childRequestsByExecution].
  rewrite <- Hlen. fold (arrayLength (Transaction.childRequestsByExecution t)).
  rewrite get_hole_length. unfold arrayLength.
  by rewrite Nat2Z.id, set_hole_length.
Qed.

Lemma withExecution_earlier t sample i :
  boundedChildren t -> (i < length (Transaction.samples t))%nat ->
  controllerOf (withExecution t sample) i = controllerOf t i
  /\ childrenOf (withExecution t sample) i = childrenOf t i.
Proof.
  intros Hb Hi. unfold controllerOf, childrenOf.
  rewrite withExecution_children by done. destruct Hb as [Hlen _].
  cbn [withExecution Transaction.samples].
  by rewrite !lookup_app_l by lia.
Qed.

Lemma withExecution_last t sample :
  boundedChildren t ->
  let i := length (Transaction.samples t) in
  controllerOf (withExecution t sample) i = Some sample
  /\ childrenOf (withExecution t sample) i = Some [].
Proof.
  intros Hb i. unfold controllerOf, childrenOf.
  rewrite withExecution_children by done. destruct Hb as [Hlen _].
  cbn [withExecution Transaction.samples]. subst i.
  rewrite lookup_app_r, Nat.sub_diag by lia.
  rewrite <- Hlen, lookup_app_r, Nat.sub_diag by lia. done.
Qed.

Lemma boundedChildren_withExecution t sample :
  boundedChildren t -> boundedChildren (withExecution t sample).
Proof.
  intros Hb. split.
  - rewrite withExecution_children by done. destruct Hb as [Hlen _].
    cbn [withExecution Transaction.samples]. rewrite !length_app, Hlen. done.
  - intros i controller Hi.
    destruct (decide (i < length (Transaction.samples t))%nat) as [Hlt|Hge].
    + destruct (withExecution_earlier t sample i Hb Hlt) as [Hc ->].
      rewrite Hc in Hi. by apply Hb.
    + assert (i = length (Transaction.samples t)) as ->.
      { apply lookup_lt_Some in Hi. cbn [withExecution Transaction.samples] in Hi.
        rewrite length_app in Hi. cbn in Hi. lia. }
      destruct (withExecution_last t sample Hb) as [Hc Hchildren].
      rewrite Hc in Hi. injection Hi as <-.
      exists []. split; [done|]. apply expectedCount_nonneg.
Qed.

Lemma withChild_children t index children sample i :
  0 <= index -> childrenOf t (Z.to_nat index) = Some children ->
  childrenOf (withChild t index children sample) i
  = if decide (i = Z.to_nat index) then Some (children ++ [sample])
    else childrenOf t i.
Proof.
  intros Hindex Hchildren. unfold childrenOf in *.
  cbn [withChild Transaction.childRequestsByExecution].
  destruct (decide (i = Z.to_nat index)) as [->|Hne].
  - rewrite list_lookup_insert_eq; [done|].
    apply lookup_lt_is_Some. by destruct (_ !! Z.to_nat index).
  - by rewrite list_lookup_insert_ne.
Qed.

Lemma boundedChildren_withChild t index children sample controller :
  boundedChildren t -> 0 <= index ->
  controllerOf t (Z.to_nat index) = Some controller ->
  childrenOf t (Z.to_nat index) = Some children ->
  arrayLength children + 1 <= expectedCount controller ->
  boundedChildren (withChild t index children sample).
Proof.
  intros [Hlen Hb] Hindex Hcontroller Hchildren Hroom. split.
  - cbn [withChild Transaction.childRequestsByExecution Transaction.samples].
    by rewrite length_insert.
  - intros i c Hi. rewrite withChild_children by done.
    change (controllerOf t i = Some c) in Hi.
    destruct (decide (i = Z.to_nat index)) as [->|Hne]; [|by apply Hb].
    rewrite Hcontroller in Hi. injection Hi as <-.
    eexists. split; [done|]. unfold arrayLength in *.
    rewrite length_app. cbn. lia.
Qed.

Lemma scanInvariant_initial : scanInvariant initialScan.
Proof.
  split.
  - intros key t H. by apply elem_of_nil in H.
  - by intros transactionName.
Qed.

Lemma windowStep_invariant st sample st' :
  scanInvariant st -> windowStep st sample st' -> scanInvariant st'.
Proof.
  intros [Hbounded Hwindow] Hstep.
  destruct Hstep as
    [t Hopens Ht Htrans Hwin
    |Hopens Htrans Hwin
    |transactionName t children Hopens Hchild Hroom Hcurrent Ht Hchildren Htrans Hwin].
  - (* a controller row opens an execution *)
    assert (boundedChildren t) as Hbt.
    { apply transactionFor_Some in Ht as [Ht|[_ ->]].
      - eapply Hbounded, ownProperty_elem_of, Ht.
      - apply boundedChildren_new. }
    injection Hwin as Hc Hi He Hn. split.
    + intros key t' Hin. rewrite Htrans in Hin.
      apply elem_of_setProperty in Hin as [[= -> ->]|Hin]; [|by eapply Hbounded].
      by apply boundedChildren_withExecution.
    + intros transactionName Hname. rewrite Hc in Hname. injection Hname as <-.
      destruct (withExecution_last t sample Hbt) as [Hcontroller Hchildren].
      exists (withExecution t sample), sample, [].
      rewrite Htrans, Hi, He, Hn. unfold arrayLength at 2 3. rewrite Nat2Z.id.
      split; [apply ownProperty_setProperty_eq|].
      split; [unfold arrayLength; lia|]. done.
  - (* nothing is captured *)
    split; [by rewrite Htrans|].
    destruct Hwin as [Hwin|Hnone].
    + injection Hwin as Hc Hi He Hn. unfold windowTracksExecution.
      by rewrite Htrans, Hc, Hi, He, Hn.
    + intros transactionName Hname. congruence.
  - (* a child is captured for the execution of the window *)
    destruct (Hwindow _ Hcurrent) as (t0 & controller & children0 & Ht0 & Hindex
                                      & Hcontroller & Hchildren0 & He & Hn).
    assert (t0 = t) as -> by congruence.
    rewrite get_hole_lookup in Hchildren by done.
    assert (children0 = children) as ->.
    { unfold childrenOf in Hchildren0. congruence. }
    assert (boundedChildren t) as Hbt by (eapply Hbounded, ownProperty_elem_of, Ht).
    injection Hwin as Hc Hi He' Hn'. split.
    + intros key t' Hin. rewrite Htrans in Hin.
      apply elem_of_setProperty in Hin as [[= -> ->]|Hin]; [|by eapply Hbounded].
      eapply boundedChildren_withChild; [done..|]. lia.
    + intros name Hname. rewrite Hc in Hname. injection Hname as <-.
      exists (withChild t (Scan.currentTransactionExecutionIndex st) children sample),
        controller, (children ++ [sample]).
      rewrite Htrans, Hi, He', Hn'.
      split; [apply ownProperty_setProperty_eq|]. split; [done|].
      split; [done|]. split.
      { rewrite withChild_children by done. by rewrite decide_True. }
      split; [done|]. rewrite Hn. unfold arrayLength.
      rewrite length_app. cbn. lia.
Qed.

Lemma processSample_invariant st sample st' :
  scanInvariant st -> processSample st sample = Some st' -> scanInvariant st'.
Proof. eauto using windowStep_invariant, processSample_windowStep. Qed.

Lemma scanLines_invariant cols lines st st' :
  scanInvariant st -> scanLines cols lines st = Some st' -> scanInvariant st'.
Proof.
  revert st. induction lines as [|line lines IH]; intros st Hinv; cbn [scanLines].
  - by intros [= <-].
  - intros (st1 & Hline & Hrest)%bind_Some. apply (IH st1); [|done].
    unfold processLine in Hline.
    destruct (reachesColumns _ _); [|by simplify_eq].
    by eapply processSample_invariant.
Qed.

Lemma reachable_invariant st : reachable st -> scanInvariant st.
Proof.
  intros (cols & lines & H). eapply scanLines_invariant, H.
  apply scanInvariant_initial.
Qed.

(** *** The pass returns a state *)

Lemma scanInvariant_same st st' :
  Scan.transactions st' = Scan.transactions st ->
  windowOf st' = windowOf st ->
  scanInvariant st -> scanInvariant st'.
Proof.
  intros Htrans [= Hc Hi He Hn] [Hbounded Hwindow]. split.
  - by rewrite Htrans.
  - unfold windowTracksExecution. by rewrite Htrans, Hc, Hi, He, Hn.
Qed.

Lemma openExecution_returns st sample :
  existsb (String.eqb (Sample.label sample)) objectPrototypeKeys = false ->
  is_Some (openExecution st sample).
Proof.
  intros Hplain. unfold openExecution, getProperty at 2.
  destruct (ownProperty (Scan.transactions st) (Sample.label sample)) as [t|] eqn:Hown.
  - unfold getProperty. by rewrite Hown.
  - rewrite Hplain. unfold getProperty.
    by rewrite ownProperty_setProperty_eq.
Qed.

Lemma captureChild_returns st sample :
  scanInvariant st -> windowOpen st = true -> is_Some (captureChild st sample).
Proof.
  intros [_ Hwindow] Hopen. unfold captureChild.
  destruct (Scan.expectedChildRequestCount st
            <=? Scan.collectedChildRequestCount st) eqn:Hquota.
  { cbn [closeWindow withWindow Scan.collectedChildRequestCount
           Scan.expectedChildRequestCount Z.ltb Z.compare].
    rewrite andb_false_r. by destruct (isTransactionController sample). }
  destruct (isChildRequest sample && _ && _); [|by destruct (isTransactionController sample)].
  destruct (windowOpen_Some _ Hopen) as (transactionName & Hcurrent & Hkey).
  destruct (Hwindow _ Hcurrent)
    as (t & controller & children & Ht & Hindex & _ & Hchildren & _).
  unfold pushChild. rewrite Hkey, (proj2 (getProperty_Own _ _ _) Ht).
  rewrite get_hole_lookup by done. unfold childrenOf in Hchildren.
  by rewrite Hchildren.
Qed.

Lemma processSample_returns st sample :
  scanInvariant st ->
  (opensExecution sample = true ->
   existsb (String.eqb (Sample.label sample)) objectPrototypeKeys = false) ->
  is_Some (processSample st sample).
Proof.
  intros Hinv Hplain. unfold processSample.
  destruct (tally_window st sample) as (Htrans & _ & Hwindow).
  set (st1 := tally (recordSample st sample) sample) in *.
  assert (scanInvariant st1) as Hinv1 by (by eapply scanInvariant_same).
  destruct (opensExecution sample); [by apply openExecution_returns, Hplain|].
  destruct (windowOpen st1) eqn:Hopen; [by apply captureChild_returns|done].
Qed.

(** Unless a controller row is named like an inherited property, the pass
    ends without an exception. *)
Lemma scanLines_returns cols lines st :
  scanInvariant st -> plainNames (readSamples cols lines) ->
  is_Some (scanLines cols lines st).
Proof.
  revert st. induction lines as [|line lines IH]; intros st Hinv Hplain;
    cbn [scanLines]; [done|].
  rewrite readSamples_cons in Hplain. unfold processLine.
  destruct (reachesColumns cols (parseCSVLine line)).
  - destruct (processSample_returns st (makeSample cols (parseCSVLine line)) Hinv)
      as [st' Hst'].
    { apply Hplain. left. }
    rewrite Hst'. cbn [mbind option_bind].
    apply IH; [by eapply processSample_invariant|].
    intros sample Hsample. apply Hplain. by right.
  - cbn [mbind option_bind]. by apply IH.
Qed.

(** A well-formed file gives a result: two non-blank lines, the two columns,
    and no controller row named like an inherited property. *)
Lemma parseJMeterResults_returns csv :
  (2 <= arrayLength (csvLines csv))%Z ->
  Columns.labelIndex (columnsOf csv) <> (-1)%Z ->
  Columns.elapsedIndex (columnsOf csv) <> (-1)%Z ->
  plainNames (samplesOf csv) ->
  is_Some (parseJMeterResults csv).
Proof.
  intros Hlines Hlabel Helapsed Hplain. unfold parseJMeterResults.
  rewrite (proj2 (Z.ltb_ge _ _) Hlines). fold (columnsOf csv).
  rewrite (proj2 (Z.eqb_neq _ _) Hlabel), (proj2 (Z.eqb_neq _ _) Helapsed).
  cbn [orb].
  destruct (scanLines_returns (columnsOf csv) (tail (csvLines csv)) initialScan
              scanInvariant_initial Hplain) as [st ->].
  by eexists.
Qed.

(** A controller row named [constructor] ends the pass with a [TypeError],
    which [parseJMeterResults] turns into [null]. *)
Lemma inherited_name_returns_null : parseJMeterResults inherited_csv = None.
Proof. by vm_compute. Qed.

(** *** While the window is open *)

Lemma windowOpen_window st st' :
  windowOf st' = windowOf st -> windowOpen st' = windowOpen st.
Proof. intros [= Hc Hi _ _]. unfold windowOpen. by rewrite Hc, Hi. Qed.

(** A request that arrives while the window is open and the quota is not
    filled is captured for the execution of the window. *)
Lemma open_window_captures st sample :
  scanInvariant st -> windowOpen st = true ->
  Scan.collectedChildRequestCount st < Scan.expectedChildRequestCount st ->
  opensExecution sample = false -> isChildRequest sample = true ->
  exists st' transactionName t children,
    processSample st sample = Some st'
    /\ Scan.currentTransaction st = Some transactionName
    /\ ownProperty (Scan.transactions st) transactionName = Some t
    /\ childrenOf t (Z.to_nat (Scan.currentTransactionExecutionIndex st))
       = Some children
    /\ Scan.transactions st'
       = setProperty (Scan.transactions st) transactionName
           (withChild t (Scan.currentTransactionExecutionIndex st) children sample)
    /\ windowOf st'
       = (Some transactionName, Scan.currentTransactionExecutionIndex st,
          Scan.expectedChildRequestCount st,
          Scan.collectedChildRequestCount st + 1).
Proof.
  intros [_ Hwindow] Hopen Hroom Hopens Hchild.
  destruct (windowOpen_Some _ Hopen) as (transactionName & Hcurrent & Hkey).
  destruct (Hwindow _ Hcurrent)
    as (t & controller & children & Ht & Hindex & _ & Hchildren & _).
  unfold processSample.
  destruct (tally_window st sample) as (Htrans & _ & Hwin).
  set (st1 := tally (recordSample st sample) sample) in *.
  rewrite Hopens, (windowOpen_window _ _ Hwin), Hopen.
  assert (currentKey st1 = transactionName) as Hkey1.
  { injection Hwin as Hc _ _ _. unfold currentKey in *. by rewrite Hc. }
  injection Hwin as Hc Hi He Hn.
  unfold captureChild. rewrite He, Hn.
  rewrite (proj2 (Z.leb_gt _ _) Hroom). cbv beta iota zeta.
  rewrite He, Hn, Hchild, Hkey1, Htrans.
  rewrite (proj2 (getProperty_Own _ _ _) Ht), (proj2 (Z.ltb_lt _ _) Hroom).
  cbn [isDefined andb]. unfold pushChild.
  rewrite Hkey1, Htrans, (proj2 (getProperty_Own _ _ _) Ht), Hi.
  rewrite get_hole_lookup by done.
  unfold childrenOf in Hchildren. rewrite Hchildren.
  eexists _, transactionName, t, children. split; [done|].
  repeat split; try done.
  unfold windowOf. cbn. by rewrite Hc, Hcurrent, He, Hn.
Qed.

(** The window of a transaction without a name never opens: the empty name
    is falsy, and the rows that follow are not captured. *)
Lemma nameless_window_captures_nothing st sample st' :
  Scan.currentTransaction st = Some "" -> opensExecution sample = false ->
  processSample st sample = Some st' ->
  Scan.transactions st' = Scan.transactions st.
Proof.
  intros Hcurrent Hopens. unfold processSample.
  destruct (tally_window st sample) as (Htrans & _ & Hwin).
  set (st1 := tally (recordSample st sample) sample) in *.
  rewrite Hopens, (windowOpen_window _ _ Hwin).
  unfold windowOpen. rewrite Hcurrent. cbn. by intros [= <-].
Qed.

Lemma get_hole_Some {A} (a : list (option A)) i x :
  get_hole a i = Some x -> 0 <= i /\ mjoin (a !! Z.to_nat i) = Some x.
Proof.
  unfold get_hole, at_index. destruct (Z.ltb_spec i 0); [done|]. by split.
Qed.

(** A step leaves the children of an execution alone unless the execution
    is the one of the window. *)
Lemma windowStep_other_executions st sample st' key t i :
  scanInvariant st -> windowStep st sample st' ->
  ownProperty (Scan.transactions st) key = Some t ->
  (i < length (Transaction.samples t))%nat ->
  Scan.currentTransaction st <> Some key
  \/ Z.of_nat i <> Scan.currentTransactionExecutionIndex st
  \/ opensExecution sample = true ->
  exists t',
    ownProperty (Scan.transactions st') key = Some t'
    /\ controllerOf t' i = controllerOf t i
    /\ childrenOf t' i = childrenOf t i.
Proof.
  intros [Hbounded _] Hstep Hkey Hi Hother.
  destruct Hstep as
    [t0 Hopens Ht0 Htrans Hwin
    |Hopens Htrans Hwin
    |transactionName t0 children Hopens Hchild Hroom Hcurrent Ht0 Hchildren Htrans Hwin];
    rewrite Htrans.
  - destruct (decide (Sample.label sample = key)) as [<-|Hne].
    + apply transactionFor_Some in Ht0 as [Ht0|[Ht0 _]]; [|congruence].
      assert (t0 = t) as -> by congruence.
      exists (withExecution t sample).
      split; [apply ownProperty_setProperty_eq|].
      apply withExecution_earlier; [|done].
      eapply Hbounded, ownProperty_elem_of, Hkey.
    + exists t. by rewrite ownProperty_setProperty_ne.
  - by exists t.
  - destruct (decide (transactionName = key)) as [->|Hne].
    + assert (t0 = t) as -> by congruence.
      apply get_hole_Some in Hchildren as [Hindex Hchildren].
      exists (withChild t (Scan.currentTransactionExecutionIndex st) children sample).
      split; [apply ownProperty_setProperty_eq|]. split; [done|].
      rewrite withChild_children by done. rewrite decide_False; [done|].
      destruct Hother as [H|[H|H]]; [done| |congruence]. lia.
    + exists t. by rewrite ownProperty_setProperty_ne.
Qed.

Lemma buildResult_transactions st key summary :
  (key, summary) ∈ Result.transactions (buildResult st) ->
  exists t, summary = summarize t /\ (key, t) ∈ Scan.transactions st.
Proof.
  cbn [buildResult Result.transactions].
  intros ([key' t] & [= -> ->] & Hin)%list_elem_of_fmap. eauto.
Qed.

(** C1: in every result of [parseJMeterResults], every execution has at
    most as many captured children as its controller row announces; and at
    every step of the pass, a row that arrives when the quota is filled is
    not captured, a controller row opens the window of a fresh execution
    with no child yet, and no step touches the children of an execution
    other than the one of the window. *)
Theorem child_capture_window :
  (forall csv r key summary i controller,
      parseJMeterResults csv = Some r ->
      (key, summary) ∈ Result.transactions r ->
      controllerOf (Summary.transaction summary) i = Some controller ->
      exists children,
        childrenOf (Summary.transaction summary) i = Some children
        /\ arrayLength children <= expectedCount controller)
  /\ (forall st sample st',
      reachable st -> processSample st sample = Some st' ->
      (opensExecution sample = false ->
       Scan.expectedChildRequestCount st <= Scan.collectedChildRequestCount st ->
       Scan.transactions st' = Scan.transactions st)
      /\ (opensExecution sample = true ->
          exists t' index,
            windowOf st'
            = (Some (Sample.label sample), Z.of_nat index, expectedCount sample, 0)
            /\ ownProperty (Scan.transactions st') (Sample.label sample) = Some t'
            /\ S index = length (Transaction.samples t')
            /\ controllerOf t' index = Some sample
            /\ childrenOf t' index = Some [])
      /\ (forall key t i,
          ownProperty (Scan.transactions st) key = Some t ->
          (i < length (Transaction.samples t))%nat ->
          Scan.currentTransaction st <> Some key
          \/ Z.of_nat i <> Scan.currentTransactionExecutionIndex st
          \/ opensExecution sample = true ->
          exists t',
            ownProperty (Scan.transactions st') key = Some t'
            /\ controllerOf t' i = controllerOf t i
            /\ childrenOf t' i = childrenOf t i)).
Proof.
  split.
  - intros csv r key summary i controller Hr Hin Hcontroller.
    apply parseJMeterResults_Some in Hr as (st & Hscan & ->).
    apply buildResult_transactions in Hin as (t & -> & Hin).
    assert (scanInvariant st) as [Hbounded _].
    { eapply scanLines_invariant, Hscan. apply scanInvariant_initial. }
    by apply (Hbounded key t Hin).
  - intros st sample st' Hinv%reachable_invariant Hstep%processSample_windowStep.
    split; [|split].
    + intros Hopens Hquota.
      destruct Hstep as [? Hopens' | |? ? ? _ _ Hroom]; [congruence|done|lia].
    + intros Hopens. destruct Hstep as [t _ Ht Htrans Hwin|Hopens'|? ? ? Hopens'];
        [|congruence..].
      assert (boundedChildren t) as Hbt.
      { destruct Hinv as [Hbounded _].
        apply transactionFor_Some in Ht as [Ht|[_ ->]].
        - eapply Hbounded, ownProperty_elem_of, Ht.
        - apply boundedChildren_new. }
      destruct (withExecution_last t sample Hbt) as [Hcontroller Hchildren].
      exists (withExecution t sample), (length (Transaction.samples t)).
      rewrite Htrans. split; [done|].
      split; [apply ownProperty_setProperty_eq|].
      split; [|done]. cbn [withExecution Transaction.samples].
      rewrite length_app. cbn. lia.
    + intros key t i. by apply windowStep_other_executions.
Qed.

Lemma child_capture_window_witness :
  exists r summary controller,
    parseJMeterResults scenario_csv = Some r
    /\ ("Login", summary) ∈ Result.transactions r
    /\ controllerOf (Summary.transaction summary) 0 = Some controller
    /\ exists children,
        childrenOf (Summary.transaction summary) 0 = Some children
        /\ arrayLength children <= expectedCount controller.
Proof.
  eexists _, _, _. split; [vm_compute; reflexivity|].
  split; [apply list_elem_of_here|]. split; [vm_compute; reflexivity|].
  eapply (proj1 child_capture_window scenario_csv);
    [vm_compute; reflexivity|apply list_elem_of_here|vm_compute; reflexivity].
Defined.

End reconstruction.

(** ** The pass percentage *)

Section percentage.
Local Open Scope Z_scope.

Lemma string_of_uint_digits d : allDigits (NilEmpty.string_of_uint d) = true.
Proof. induction d; cbn [NilEmpty.string_of_uint allDigits]; by rewrite ?IHd. Qed.

Lemma decimal_digits n : allDigits (decimal n) = true /\ decimal n <> "".
Proof.
  unfold decimal, NilZero.string_of_uint.
  pose proof (string_of_uint_digits (N.to_uint (Z.to_N n))) as Hd.
  by destruct (N.to_uint (Z.to_N n)).
Qed.

Lemma twoDigits_shape n :
  0 <= n < 100 ->
  exists d1 d2,
    twoDigits n = String d1 (String d2 "")
    /\ isDigit d1 = true /\ isDigit d2 = true.
Proof.
  intros Hn.
  set (shaped := fun k =>
         match twoDigits k with
         | String d1 (String d2 "") => isDigit d1 && isDigit d2
         | _ => false
         end).
  assert (forallb shaped (seqZ 0 100) = true) as Hall by (vm_compute; reflexivity).
  assert (shaped n = true) as Hshaped.
  { eapply (proj1 (forallb_forall _ _) Hall), list_elem_of_In, elem_of_seqZ. lia. }
  unfold shaped in Hshaped.
  destruct (twoDigits n) as [|d1 [|d2 [|]]]; try done.
  apply andb_prop in Hshaped as [Hd1 Hd2]. by exists d1, d2.
Qed.

Lemma toFixed2_shape x k :
  magnitudeAtMost x k -> hasTwoDecimals (toFixed2 x).
Proof.
  destruct x as [s|s| |s m e]; cbn [magnitudeAtMost]; [|done..|].
  - intros _. by exists "0", "0"%char, "0"%char.
  - intros (-> & _). cbn [toFixed2].
    set (n := hundredths m e).
    destruct (twoDigits_shape (n mod 100)) as (d1 & d2 & -> & Hd1 & Hd2).
    { apply Z.mod_pos_bound. lia. }
    destruct (decimal_digits (n / 100)) as [Hdigits Hne].
    by exists (decimal (n / 100)), d1, d2.
Qed.

Lemma scan_counts_nonneg cols lines st :
  scanLines cols lines initialScan = Some st ->
  0 <= Scan.totalSuccessCount st /\ 0 <= Scan.totalErrorCount st.
Proof.
  intros (_ & _ & Hfail & Hsucc)%scanLines_tallies. cbv zeta in *.
  rewrite Hfail, Hsucc. unfold countOf, arrayLength. cbn. lia.
Qed.

(** C10: the pass percentage is the number 100 when no request was counted,
    and otherwise the string that [toFixed(2)] makes of the successes
    divided by the counted requests times 100, as the doubles compute it:
    digits, a point and exactly two decimals, which read as a number of
    hundredths [d / 100] that differs from the exact percentage by 0.0051
    at most; it is 100.00 when every counted request succeeded and 0.00
    when none did. *)
Theorem passPercentage_number_or_string csv r :
  parseJMeterResults csv = Some r ->
  let successes := Result.totalSuccessCount r in
  let requests := Result.totalRequests r in
  requests = successes + Result.totalErrorCount r
  /\ 0 <= successes <= requests
  /\ (requests = 0 -> Result.passPercentage r = PctNumber 100)
  /\ (0 < requests ->
      Result.passPercentage r = PctString (toFixed2 (percentOf successes requests)))
  /\ (0 < requests < 2 ^ 53 ->
      hasTwoDecimals (toFixed2 (percentOf successes requests))
      /\ (exists d,
            Result.passPercentage r
            = PctString (decimal (d / 100) +:+ "." +:+ twoDigits (d mod 100))
            /\ 0 <= d <= 10000
            /\ 100 * Z.abs (d * requests - 10000 * successes) <= 51 * requests)
      /\ (successes = requests -> Result.passPercentage r = PctString "100.00")
      /\ (successes = 0 -> Result.passPercentage r = PctString "0.00")).
Proof.
  intros (st & Hscan & ->)%parseJMeterResults_Some.
  apply scan_counts_nonneg in Hscan as [Hsucc Hfail].
  cbn [buildResult Result.totalRequests Result.totalSuccessCount
         Result.totalErrorCount Result.passPercentage].
  set (s := Scan.totalSuccessCount st) in *.
  set (n := s + Scan.totalErrorCount st) in *.
  split; [done|]. split; [lia|]. split; [|split].
  - intros ->. done.
  - intros Hpos. by rewrite (proj2 (Z.ltb_lt _ _) Hpos).
  - intros Hrange. rewrite (proj2 (Z.ltb_lt 0 n)) by lia.
    destruct (percentOf_accurate s n ltac:(lia) Hrange) as (d & Hd & Hd0 & Hnear).
    assert (d <= 10000) as Hd1.
    { destruct (Z.le_gt_cases d 10000) as [|Hgt]; [done|]. exfalso.
      assert (10001 * n <= d * n) by (apply Z.mul_le_mono_nonneg_r; lia).
      assert (10000 * s <= 10000 * n) by lia. lia. }
    split; [|split; [|split]].
    + eapply toFixed2_shape, percentOf_bound; lia.
    + exists d. by rewrite Hd.
    + intros Hall. rewrite Hd, Hall in *.
      assert (d = 10000) as ->; [|done].
      replace (d * n - 10000 * n) with ((d - 10000) * n) in Hnear by ring.
      destruct (Z.lt_trichotomy d 10000) as [Hlt|[->|Hgt]]; [exfalso|done|exfalso].
      * assert ((d - 10000) * n <= (-1) * n) by (apply Z.mul_le_mono_nonneg_r; lia).
        lia.
      * assert (1 * n <= (d - 10000) * n) by (apply Z.mul_le_mono_nonneg_r; lia).
        lia.
    + intros Hnone. rewrite Hd, Hnone in *.
      assert (d = 0) as ->; [|done].
      rewrite Z.mul_0_r, Z.sub_0_r in Hnear.
      destruct (Z.le_gt_cases d 0) as [|Hgt]; [lia|]. exfalso.
      assert (1 * n <= d * n) by (apply Z.mul_le_mono_nonneg_r; lia). lia.
Qed.

Lemma passPercentage_number_or_string_witness :
  exists r r',
    parseJMeterResults thirds_csv = Some r
    /\ Result.passPercentage r = PctString "66.67"
    /\ parseJMeterResults headed_csv = Some r'
    /\ Result.passPercentage r' = PctNumber 100.
Proof.
  eexists _, _. split; [vm_compute; reflexivity|].
  split.
  { match goal with
    | |- Result.passPercentage ?r = _ =>
        destruct (passPercentage_number_or_string thirds_csv r)
          as (_ & _ & _ & -> & _);
          [vm_compute; reflexivity|by vm_compute|vm_compute; reflexivity]
    end. }
  split; [vm_compute; reflexivity|].
  match goal with
  | |- Result.passPercentage ?r = _ =>
      destruct (passPercentage_number_or_string headed_csv r)
        as (_ & _ & -> & _);
        [vm_compute; reflexivity|vm_compute; reflexivity|reflexivity]
  end.
Defined.

End percentage.

(** ** The scenario of the specification *)

Section scenario.
Local Open Scope Z_scope.

Lemma lacks_append c s t : lacks c (s +:+ t) = lacks c s && lacks c t.
Proof.
  induction s as [|d s IH]; [done|].
  rewrite append_cons. cbn [lacks]. by rewrite IH, andb_assoc.
Qed.

Lemma lacks_writeLine c fields :
  c <> COMMA ->
  forallb (fun f => lacks c (writeField f)) fields = true ->
  lacks c (writeLine fields) = true.
Proof.
  intros Hc. induction fields as [|f [|g fields] IH]; cbn [forallb].
  - done.
  - by rewrite andb_true_r.
  - intros [Hf Hrest]%andb_prop.
    rewrite writeLine_cons, lacks_append, Hf. cbn [lacks andb].
    rewrite (IH Hrest), andb_true_r.
    apply negb_true_iff, Ascii.eqb_neq. congruence.
Qed.

Lemma split_loop_line s rest current :
  lacks LF s = true ->
  split_loop (s +:+ String LF rest) current
  = (current +:+ s) :: split_loop rest "".
Proof.
  revert current. induction s as [|c s IH]; intros current Hs.
  - rewrite append_nil_l, append_nil_r. cbn [split_loop].
    by rewrite Ascii.eqb_refl.
  - cbn [lacks] in Hs. apply andb_prop in Hs as [Hc Hs].
    apply negb_true_iff in Hc.
    rewrite append_cons. cbn [split_loop]. rewrite Hc.
    by rewrite IH, append_snoc.
Qed.

Lemma split_loop_last s current :
  lacks LF s = true -> split_loop s current = [current +:+ s].
Proof.
  revert current. induction s as [|c s IH]; intros current Hs.
  - by rewrite append_nil_r.
  - cbn [lacks] in Hs. apply andb_prop in Hs as [Hc Hs].
    apply negb_true_iff in Hc.
    cbn [split_loop]. rewrite Hc. by rewrite IH, append_snoc.
Qed.

Lemma trimEnd_nonblank c s :
  isWhiteSpace c = false -> exists s', trimEnd (String c s) = String c s'.
Proof. intros Hc. cbn [trimEnd]. rewrite Hc. by eexists. Qed.

Lemma truthy_trim c s :
  isWhiteSpace c = false -> truthy (trim (String c s)) = true.
Proof.
  intros Hc. unfold trim. cbn [trimStart]. rewrite Hc.
  by destruct (trimEnd_nonblank c s Hc) as [s' ->].
Qed.

Lemma plain_writable f : plain f = true -> writable f = true.
Proof. by intros [? _]%andb_prop. Qed.

Lemma plain_lacks f : plain f = true -> lacks LF (writeField f) = true.
Proof. by intros [_ ?]%andb_prop. Qed.

Lemma scenario_lines c1 t1 ts1 c2 m2 ts2 finalNewline :
  forallb plain [c1; t1; ts1; c2; m2; ts2] = true ->
  csvLines (scenario_file c1 t1 ts1 c2 m2 ts2 finalNewline)
  = [scenario_header;
     writeLine (scenario_controller c1 t1 ts1);
     writeLine (scenario_child c2 m2 ts2)].
Proof.
  cbn [forallb]. rewrite andb_true_r.
  intros (Hc1 & (Ht1 & (Hts1 & (Hc2 & (Hm2 & Hts2)%andb_prop)%andb_prop)
                   %andb_prop)%andb_prop)%andb_prop.
  assert (lacks LF (writeLine (scenario_controller c1 t1 ts1)) = true) as Hrow1.
  { apply lacks_writeLine; [done|]. cbn [forallb scenario_controller].
    by rewrite !plain_lacks by done. }
  assert (lacks LF (writeLine (scenario_child c2 m2 ts2)) = true) as Hrow2.
  { apply lacks_writeLine; [done|]. cbn [forallb scenario_child].
    by rewrite !plain_lacks by done. }
  unfold csvLines, splitLines, scenario_file, threeLines.
  rewrite split_loop_line by done. rewrite split_loop_line by done.
  rewrite !append_nil_l.
  assert (truthy (trim (writeLine (scenario_controller c1 t1 ts1))) = true) as Hl1.
  { unfold scenario_controller. rewrite writeLine_cons. by apply truthy_trim. }
  assert (truthy (trim (writeLine (scenario_child c2 m2 ts2))) = true) as Hl2.
  { unfold scenario_child. rewrite writeLine_cons. by apply truthy_trim. }
  destruct finalNewline.
  - unfold str. rewrite split_loop_line by done. rewrite append_nil_l.
    cbn [split_loop List.filter]. by rewrite Hl1, Hl2.
  - rewrite append_nil_r, split_loop_last by done. rewrite append_nil_l.
    cbn [List.filter]. by rewrite Hl1, Hl2.
Qed.

Lemma parse_written f fields :
  forallb writable (f :: fields) = true ->
  parseCSVLine (writeLine (f :: fields)) = map fieldValue (f :: fields).
Proof.
  cbn [forallb]. intros [Hf Hfs]%andb_prop. unfold parseCSVLine.
  by rewrite loop_fields.
Qed.

(** C2: the scenario file, whatever stands in the fields that the scenario
    leaves open and with or without a final line feed, gives exactly one
    transaction, named Login, with exactly one execution, whose one captured
    child is labelled POST /login, and the average of the transaction is
    500. *)
Theorem scenario_reconstructs_login c1 t1 ts1 c2 m2 ts2 finalNewline :
  forallb plain [c1; t1; ts1; c2; m2; ts2] = true ->
  exists r summary controller child,
    parseJMeterResults (scenario_file c1 t1 ts1 c2 m2 ts2 finalNewline) = Some r
    /\ Result.transactions r = [("Login", summary)]
    /\ Transaction.name (Summary.transaction summary) = "Login"
    /\ Transaction.samples (Summary.transaction summary) = [controller]
    /\ Sample.label controller = "Login"
    /\ Transaction.childRequestsByExecution (Summary.transaction summary)
       = [Some [child]]
    /\ Transaction.childRequests (Summary.transaction summary) = [child]
    /\ Sample.label child = "POST /login"
    /\ Stats.avg (Summary.stats summary) = 500.
Proof.
  intros Hplain. unfold parseJMeterResults.
  pose proof Hplain as Hlines.
  apply scenario_lines with (finalNewline := finalNewline) in Hlines.
  rewrite Hlines. clear Hlines.
  cbn [head tail default forallb] in *. rewrite andb_true_r in Hplain.
  apply andb_prop in Hplain as [Hc1 Hplain].
  apply andb_prop in Hplain as [Ht1 Hplain].
  apply andb_prop in Hplain as [Hts1 Hplain].
  apply andb_prop in Hplain as [Hc2 Hplain].
  apply andb_prop in Hplain as [Hm2 Hts2].
  apply plain_writable in Hc1, Ht1, Hts1, Hc2, Hm2, Hts2.
  cbn [scanLines]. unfold processLine, scenario_controller, scenario_child.
  rewrite !parse_written
    by (cbn [forallb writable lacks];
        by rewrite ?Hc1, ?Ht1, ?Hts1, ?Hc2, ?Hm2, ?Hts2).
  cbn [map fieldValue].
  generalize (fieldValue c1) (fieldValue t1) (fieldValue ts1)
    (fieldValue c2) (fieldValue m2) (fieldValue ts2).
  intros vc1 vt1 vts1 vc2 vm2 vts2.
  set (cols := readColumns (parseCSVLine scenario_header)).
  vm_compute in cols. subst cols.
  (* the two samples, with the time stamps left as they are *)
  match goal with
  | |- context [makeSample ?cols [?l; ?e; ?s; vc1; ?m; ?d; vt1; vts1]] =>
      change (makeSample cols [l; e; s; vc1; m; d; vt1; vts1])
        with (Sample.mk l (parseIntOr0 (Some e)) (isTrue (Some s)) vc1 m d vt1
                "" 0 0 0 "" (parseIntOr0 (Some vts1)))
  end.
  match goal with
  | |- context [makeSample ?cols [?l; ?e; ?s; vc2; vm2; ?d; ?t; vts2]] =>
      change (makeSample cols [l; e; s; vc2; vm2; d; t; vts2])
        with (Sample.mk l (parseIntOr0 (Some e)) (isTrue (Some s)) vc2 vm2 d t
                "" 0 0 0 "" (parseIntOr0 (Some vts2)))
  end.
  generalize (parseIntOr0 (Some vts1)) (parseIntOr0 (Some vts2)).
  intros time1 time2.
  eexists _, _, _, _. split; [vm_compute; reflexivity|].
  repeat split; vm_compute; reflexivity.
Qed.

Lemma scenario_reconstructs_login_witness :
  forallb plain
    [Bare "200"; Bare "Login 1-1"; Bare "1700000000000";
     Bare "200"; Quoted "OK, done"; Bare "1700000000010"] = true
  /\ exists r summary controller child,
      parseJMeterResults
        (scenario_file (Bare "200") (Bare "Login 1-1") (Bare "1700000000000")
           (Bare "200") (Quoted "OK, done") (Bare "1700000000010") true)
      = Some r
      /\ Result.transactions r = [("Login", summary)]
      /\ Transaction.name (Summary.transaction summary) = "Login"
      /\ Transaction.samples (Summary.transaction summary) = [controller]
      /\ Sample.label controller = "Login"
      /\ Transaction.childRequestsByExecution (Summary.transaction summary)
         = [Some [child]]
      /\ Transaction.childRequests (Summary.transaction summary) = [child]
      /\ Sample.label child = "POST /login"
      /\ Stats.avg (Summary.stats summary) = 500.
Proof.
  split; [vm_compute; reflexivity|].
  apply scenario_reconstructs_login. vm_compute; reflexivity.
Defined.

End scenario.

(** ** Concurrency inference *)

Section concurrency.
Local Open Scope Z_scope.

Lemma existsb_eqb_elem_of x (l : list string) :
  existsb (String.eqb x) l = true <-> x ∈ l.
Proof.
  rewrite existsb_exists. split.
  - intros (y & Hy%list_elem_of_In & ->%String.eqb_eq). done.
  - intros Hx. exists x. by rewrite <- list_elem_of_In, String.eqb_refl.
Qed.

Lemma distinct_from_elem_of seen names x :
  x ∈ distinct_from seen names <-> x ∈ names /\ x ∉ seen.
Proof.
  revert seen. induction names as [|y names IH]; intros seen; cbn [distinct_from].
  - rewrite !elem_of_nil. tauto.
  - destruct (existsb (String.eqb y) seen) eqn:Hy.
    + apply existsb_eqb_elem_of in Hy. rewrite IH, elem_of_cons.
      split; [tauto|]. intros [[->|Hx] Hseen]; [done|tauto].
    + assert (y ∉ seen) as Hnot.
      { intros Hin%existsb_eqb_elem_of. congruence. }
      rewrite !elem_of_cons, IH, elem_of_app, list_elem_of_singleton.
      destruct (decide (x = y)) as [->|Hne]; [tauto|]. tauto.
Qed.

Lemma distinct_from_NoDup seen names : NoDup (distinct_from seen names).
Proof.
  revert seen. induction names as [|y names IH]; intros seen; cbn [distinct_from].
  - constructor.
  - destruct (existsb (String.eqb y) seen); [apply IH|].
    constructor; [|apply IH].
    rewrite distinct_from_elem_of, elem_of_app, list_elem_of_singleton. tauto.
Qed.

Lemma distinct_Permutation names (l : list string) :
  NoDup l -> (forall x, x ∈ names <-> x ∈ l) -> distinct names ≡ₚ l.
Proof.
  intros Hl Hsame. apply NoDup_Permutation; [apply distinct_from_NoDup|done|].
  intros x. unfold distinct. rewrite distinct_from_elem_of, <- Hsame.
  rewrite elem_of_nil. tauto.
Qed.

(** *** The lower bound, and where it fails *)

Lemma fold_left_max_ge (l : list Z) a : a <= fold_left Z.max l a.
Proof.
  revert a. induction l as [|x l IH]; intros a; cbn [fold_left]; [lia|].
  specialize (IH (Z.max a x)). lia.
Qed.

Lemma maxOf_ge numbers lo :
  numbers <> [] -> Forall (fun n => lo <= n) numbers -> lo <= maxOf numbers.
Proof.
  destruct numbers as [|n rest]; [done|]. intros _ Hall.
  apply Forall_cons_1 in Hall as [Hn _]. cbn [maxOf].
  pose proof (fold_left_max_ge rest n). lia.
Qed.

Lemma groupCount_positive threads :
  threads <> [] ->
  (forall name n, name ∈ threads -> threadNumber name = Some n -> 1 <= n) ->
  1 <= groupCount threads.
Proof.
  intros Hne Hnumbers. unfold groupCount.
  destruct (threadNumbers threads) as [|n numbers] eqn:Hn.
  - pose proof (arrayLength_pos threads Hne). lia.
  - apply maxOf_ge; [done|]. rewrite <- Hn. apply Forall_forall.
    intros k (name & Hname & Hk)%list_elem_of_omap. eauto.
Qed.

Lemma addThread_groups threadsByGroup groupName threadName (P : string -> Prop) :
  Forall (fun group => group.2 <> [] /\ Forall P group.2) threadsByGroup ->
  P threadName ->
  Forall (fun group => group.2 <> [] /\ Forall P group.2)
    (addThread threadsByGroup groupName threadName).
Proof.
  intros Hall Hname.
  induction threadsByGroup as [|[g threads] threadsByGroup IH]; cbn [addThread].
  - repeat constructor; done.
  - apply Forall_cons_1 in Hall as [[Hne HP] Hall]. cbn [snd] in *.
    destruct (String.eqb g groupName).
    + constructor; [|done]. cbn [snd].
      destruct (existsb _ threads); [done|]. split.
      * by destruct threads.
      * apply Forall_app. split; [done|]. by constructor.
    + constructor; [done|]. by apply IH.
Qed.

Lemma groupThreads_groups names (P : string -> Prop) :
  Forall P names ->
  Forall (fun group => group.2 <> [] /\ Forall P group.2) (groupThreads names).
Proof.
  unfold groupThreads.
  assert (Forall (fun group : string * list string =>
                    group.2 <> [] /\ Forall P group.2) []) as Hacc by constructor.
  revert Hacc. generalize (@nil (string * list string)) as acc.
  induction names as [|name names IH]; intros acc Hacc Hnames; cbn [fold_left].
  - done.
  - apply Forall_cons_1 in Hnames as [Hname Hnames].
    apply IH; [|done]. by apply addThread_groups.
Qed.

Lemma sum_groups_ge (groups : list (string * list string)) total :
  Forall (fun group => 1 <= groupCount group.2) groups ->
  total + arrayLength groups
  <= fold_left (fun totalCount group => totalCount + groupCount group.2)
       groups total.
Proof.
  unfold arrayLength. revert total.
  induction groups as [|group groups IH]; intros total Hall; cbn [fold_left].
  - cbn. lia.
  - apply Forall_cons_1 in Hall as [Hgroup Hall].
    specialize (IH (total + groupCount group.2) Hall).
    rewrite length_cons. lia.
Qed.

(** With every thread number at 1 or more, matching samples are counted as
    one instance at least. *)
Lemma countInstances_positive matchingSamples rampUpWindowMs executionGapMs :
  matchingSamples <> [] ->
  (forall s n,
      s ∈ matchingSamples ->
      threadNumber (Sample.threadName s) = Some n -> 1 <= n) ->
  1 <= countInstances matchingSamples rampUpWindowMs executionGapMs.
Proof.
  intros Hne Hnumbers. unfold countInstances.
  rewrite (proj2 (Z.eqb_neq _ 0)) by (pose proof (arrayLength_pos _ Hne); lia).
  set (names := distinct (map Sample.threadName matchingSamples)).
  assert (Forall (fun name => forall n, threadNumber name = Some n -> 1 <= n)
            names) as Hnames.
  { apply Forall_forall. intros name Hname n Hn.
    apply distinct_from_elem_of in Hname as [Hname _].
    apply list_elem_of_fmap in Hname as (s & -> & Hs). eauto. }
  unfold countUnique.
  destruct (1 <? arrayLength (groupThreads names)) eqn:Hgroups.
  - apply Z.ltb_lt in Hgroups.
    pose proof (sum_groups_ge (groupThreads names) 0) as Hsum.
    enough (Forall (fun group => 1 <= groupCount group.2) (groupThreads names))
      as Hall by (specialize (Hsum Hall); lia).
    eapply Forall_impl; [apply groupThreads_groups, Hnames|].
    intros [g threads] [Hthreads Hall]. cbn [snd] in *.
    apply groupCount_positive; [done|].
    intros name n Hname. by apply (proj1 (Forall_forall _ _) Hall).
  - destruct (threadNumbers names) as [|n numbers] eqn:Hn.
    + destruct (1 <? arrayLength names) eqn:Hmany.
      * apply Z.ltb_lt in Hmany. lia.
      * unfold countByTiming. lia.
    + apply maxOf_ge; [done|]. rewrite <- Hn. apply Forall_forall.
      intros k (name & Hname & Hk)%list_elem_of_omap.
      by apply (proj1 (Forall_forall _ _) Hnames name).
Qed.

(** C9, where the code departs from it: a sample matches the user type and
    the only thread name ends in the thread number 0; the numbered branch
    returns that number, and the inferred count is 0. *)
Theorem zero_thread_number_infers_zero :
  samplesMatching (selectingNames coordinatorType None) numbered_zero
  = numbered_zero
  /\ countThreadInstances numbered_zero 10000 30000 coordinatorType None = 0.
Proof. split; by vm_compute. Qed.

End concurrency.

(** * Further properties *)

(** ** The HTML and file-name utilities *)

Section utilities.

Lemma length_append s t :
  String.length (s +:+ t) = (String.length s + String.length t)%nat.
Proof.
  induction s as [|c s IH]; [by rewrite append_nil_l|].
  rewrite append_cons. cbn. by rewrite IH.
Qed.

Lemma entityOf_cases c :
  entityOf c = None /\ c <> "&"%char /\ c <> "<"%char /\ c <> ">"%char
    /\ c <> DQUOTE /\ c <> APOSTROPHE
  \/ c = "&"%char \/ c = "<"%char \/ c = ">"%char
  \/ c = DQUOTE \/ c = APOSTROPHE.
Proof.
  unfold entityOf.
  destruct (Ascii.eqb_spec c "&"); [tauto|].
  destruct (Ascii.eqb_spec c "<"); [tauto|].
  destruct (Ascii.eqb_spec c ">"); [tauto|].
  destruct (Ascii.eqb_spec c DQUOTE); [tauto|].
  destruct (Ascii.eqb_spec c APOSTROPHE); tauto.
Qed.

Lemma Ascii_eqb_neq c d : c <> d -> Ascii.eqb c d = false.
Proof. by destruct (Ascii.eqb_spec c d). Qed.

Lemma prefix_empty s : String.prefix "" s = true.
Proof. by destruct s. Qed.

Ltac unfold_append :=
  cbn; unfold str; rewrite ?append_cons, ?append_nil_l; cbn.

Lemma escapeHtml_cons c text :
  escapeHtml (String c text) = default (str c) (entityOf c) +:+ escapeHtml text.
Proof. done. Qed.

(** X1: the escaped text holds no angle bracket, no double quote and no
    apostrophe, and every ampersand in it opens one of the five entities. *)
Theorem escapeHtml_markup_free text :
  lacks "<" (escapeHtml text) = true
  /\ lacks ">" (escapeHtml text) = true
  /\ lacks DQUOTE (escapeHtml text) = true
  /\ lacks APOSTROPHE (escapeHtml text) = true
  /\ ampersandsOpenEntities (escapeHtml text) = true.
Proof.
  induction text as [|c text (IH1 & IH2 & IH3 & IH4 & IH5)]; [done|].
  rewrite escapeHtml_cons.
  destruct (entityOf_cases c)
    as [(-> & H1 & H2 & H3 & H4 & H5)|[->|[->|[->|[->| ->]]]]];
    unfold_append; rewrite ?IH1, ?IH2, ?IH3, ?IH4, ?IH5;
    rewrite ?(Ascii_eqb_neq _ _ H1), ?(Ascii_eqb_neq _ _ H2),
      ?(Ascii_eqb_neq _ _ H3), ?(Ascii_eqb_neq _ _ H4),
      ?(Ascii_eqb_neq _ _ H5), ?prefix_empty; done.
Qed.

Lemma escapeHtml_app s t :
  escapeHtml (s +:+ t) = escapeHtml s +:+ escapeHtml t.
Proof.
  induction s as [|c s IH]; [by rewrite !append_nil_l|].
  rewrite append_cons, !escapeHtml_cons, IH. by rewrite append_assoc.
Qed.

Lemma escapeHtml_inj_cons c d s t :
  escapeHtml (String c s) = escapeHtml (String d t) ->
  c = d /\ escapeHtml s = escapeHtml t.
Proof.
  rewrite !escapeHtml_cons.
  destruct (entityOf_cases c)
    as [(-> & H1 & H2 & H3 & H4 & H5)|[->|[->|[->|[->| ->]]]]];
    destruct (entityOf_cases d)
      as [(-> & G1 & G2 & G3 & G4 & G5)|[->|[->|[->|[->| ->]]]]];
    unfold_append; intros H; simplify_eq; done.
Qed.

(** X2: escaping loses nothing: two texts with the same escaped form are
    the same text. *)
Theorem escapeHtml_injective s t :
  escapeHtml s = escapeHtml t -> s = t.
Proof.
  revert t. induction s as [|c s IH]; intros [|d t] H.
  - done.
  - exfalso. rewrite escapeHtml_cons in H. revert H.
    destruct (entityOf_cases d) as [(-> & _)|[->|[->|[->|[->| ->]]]]];
      unfold_append; discriminate.
  - exfalso. rewrite escapeHtml_cons in H. revert H.
    destruct (entityOf_cases c) as [(-> & _)|[->|[->|[->|[->| ->]]]]];
      unfold_append; discriminate.
  - apply escapeHtml_inj_cons in H as [-> H]. by rewrite (IH t H).
Qed.

Lemma escapeHtml_injective_witness :
  escapeHtml "a<b" = escapeHtml "a<b" /\ "a<b" = "a<b".
Proof.
  split; [reflexivity|]. apply (escapeHtml_injective "a<b" "a<b"). reflexivity.
Defined.

Lemma needsNoEscape_cons c text :
  needsNoEscape (String c text)
  = bool_decide (entityOf c = None) && needsNoEscape text.
Proof.
  unfold needsNoEscape. cbn [lacks].
  destruct (entityOf_cases c)
    as [(-> & H1 & H2 & H3 & H4 & H5)|[->|[->|[->|[->| ->]]]]].
  - rewrite !Ascii_eqb_neq by done. cbn.
    by destruct (lacks "&" text), (lacks "<" text), (lacks ">" text),
      (lacks DQUOTE text), (lacks APOSTROPHE text).
  - done.
  - cbn. by rewrite andb_false_r.
  - cbn. by rewrite !andb_false_r.
  - cbn. by rewrite !andb_false_r.
  - cbn. by rewrite !andb_false_r.
Qed.

Lemma escapeHtml_length text :
  (String.length text <= String.length (escapeHtml text))%nat
  /\ (String.length (escapeHtml text) = String.length text
      <-> needsNoEscape text = true).
Proof.
  induction text as [|c text [IHle IHeq]]; [done|].
  rewrite escapeHtml_cons, length_append, needsNoEscape_cons.
  destruct (entityOf_cases c) as [(-> & _)|[->|[->|[->|[->| ->]]]]];
    cbn; (split; [lia|]); rewrite ?andb_true_l;
    try (rewrite <- IHeq; split; lia);
    split; (lia || done).
Qed.

Lemma needsNoEscape_identity text :
  needsNoEscape text = true -> escapeHtml text = text.
Proof.
  induction text as [|c text IH]; [done|].
  rewrite needsNoEscape_cons, andb_true_iff, bool_decide_eq_true.
  intros [Hc Htext]. rewrite escapeHtml_cons, Hc, IH by done. done.
Qed.

Lemma lacks_ampersand_escapeHtml text :
  lacks "&" (escapeHtml text) = needsNoEscape text.
Proof.
  induction text as [|c text IH]; [done|].
  rewrite escapeHtml_cons, needsNoEscape_cons, lacks_append, IH.
  destruct (entityOf_cases c)
    as [(-> & H1 & _)|[->|[->|[->|[->| ->]]]]]; [|done..].
  cbn. by rewrite (Ascii_eqb_neq _ _ H1).
Qed.

Lemma escapeHtml_lacks text :
  lacks "<" (escapeHtml text) = true
  /\ lacks ">" (escapeHtml text) = true
  /\ lacks DQUOTE (escapeHtml text) = true
  /\ lacks APOSTROPHE (escapeHtml text) = true.
Proof.
  induction text as [|c text (IH1 & IH2 & IH3 & IH4)]; [done|].
  rewrite escapeHtml_cons.
  destruct (entityOf_cases c)
    as [(-> & H1 & H2 & H3 & H4 & H5)|[->|[->|[->|[->| ->]]]]];
    unfold_append; rewrite ?IH1, ?IH2, ?IH3, ?IH4;
    rewrite ?(Ascii_eqb_neq _ _ H1), ?(Ascii_eqb_neq _ _ H2),
      ?(Ascii_eqb_neq _ _ H3), ?(Ascii_eqb_neq _ _ H4),
      ?(Ascii_eqb_neq _ _ H5); done.
Qed.

(** X3: [escapeHtml] leaves a text as it is exactly when the text has none
    of the five characters, and only such a text survives a second
    escaping: escaping twice is not escaping once. *)
Theorem escapeHtml_fixed_points text :
  (escapeHtml text = text <-> needsNoEscape text = true)
  /\ (escapeHtml (escapeHtml text) = escapeHtml text
      <-> needsNoEscape text = true).
Proof.
  assert (forall t, escapeHtml t = t <-> needsNoEscape t = true) as Hfix.
  { intros t. split; [|apply needsNoEscape_identity].
    intros H. apply (escapeHtml_length t). by rewrite H. }
  split; [apply Hfix|]. rewrite Hfix.
  destruct (escapeHtml_lacks text) as (H1 & H2 & H3 & H4).
  unfold needsNoEscape at 1.
  by rewrite H1, H2, H3, H4, !andb_true_r, lacks_ampersand_escapeHtml.
Qed.

(** *** File names *)

Lemma mapString_length f s : String.length (mapString f s) = String.length s.
Proof. induction s as [|c s IH]; cbn; [done|]. by rewrite IH. Qed.

Lemma ascii_cases (P : ascii -> Prop) :
  (forall n, (n < 256)%N -> P (ascii_of_N n)) -> forall c, P c.
Proof.
  intros H c. rewrite <- (ascii_N_embedding c). apply H, N_ascii_bounded.
Qed.

Lemma sanitized_char c :
  let d := toLowerCaseChar (if isAlphanumeric c then c else "_"%char) in
  isFilenameChar d = true
  /\ toLowerCaseChar (if isAlphanumeric d then d else "_"%char) = d.
Proof.
  revert c. apply ascii_cases. intros n Hn.
  assert (forallb (fun n =>
            let c := ascii_of_N n in
            let d := toLowerCaseChar (if isAlphanumeric c then c else "_"%char) in
            isFilenameChar d
            && Ascii.eqb (toLowerCaseChar (if isAlphanumeric d then d else "_"%char)) d)
            (map N.of_nat (seq 0 256)) = true) as Hall by (vm_compute; reflexivity).
  rewrite forallb_forall in Hall. specialize (Hall n).
  cbv zeta in *. apply andb_true_iff in Hall as [H1 H2].
  - split; [done|]. by apply Ascii.eqb_eq.
  - apply in_map_iff. exists (N.to_nat n). split; [lia|].
    apply in_seq. lia.
Qed.

(** X4: a sanitized name is as long as the name, is made of small letters,
    digits and underscores only, and is left alone by a second pass. *)
Theorem sanitizeFilename_shape name :
  String.length (sanitizeFilename name) = String.length name
  /\ allChars isFilenameChar (sanitizeFilename name) = true
  /\ sanitizeFilename (sanitizeFilename name) = sanitizeFilename name.
Proof.
  unfold sanitizeFilename, toLowerCase.
  split; [by rewrite !mapString_length|].
  induction name as [|c name [IH1 IH2]]; [done|].
  cbn [mapString allChars].
  destruct (sanitized_char c) as [H1 H2]. cbv zeta in H1, H2.
  rewrite H1, IH1, H2, IH2. done.
Qed.

Lemma below_256 k : (k < 256)%N -> In k (map N.of_nat (seq 0 256)).
Proof.
  intros Hk. apply in_map_iff. exists (N.to_nat k). split; [lia|].
  apply in_seq. lia.
Qed.

Lemma sameFilenameChar_eqb c d :
  Ascii.eqb
    (toLowerCaseChar (if isAlphanumeric c then c else "_"%char))
    (toLowerCaseChar (if isAlphanumeric d then d else "_"%char))
  = sameFilenameChar c d.
Proof.
  rewrite <- (ascii_N_embedding c), <- (ascii_N_embedding d).
  pose proof (N_ascii_bounded c) as Hn. pose proof (N_ascii_bounded d) as Hm.
  generalize dependent (N_of_ascii d). generalize dependent (N_of_ascii c).
  intros n Hn m Hm.
  assert (forallb (fun n => forallb (fun m =>
            let c := ascii_of_N n in
            let d := ascii_of_N m in
            Bool.eqb
              (Ascii.eqb
                 (toLowerCaseChar (if isAlphanumeric c then c else "_"%char))
                 (toLowerCaseChar (if isAlphanumeric d then d else "_"%char)))
              (sameFilenameChar c d))
            (map N.of_nat (seq 0 256))) (map N.of_nat (seq 0 256)) = true)
    as Hall by (vm_compute; reflexivity).
  rewrite forallb_forall in Hall. specialize (Hall n (below_256 n Hn)).
  rewrite forallb_forall in Hall. specialize (Hall m (below_256 m Hm)).
  by apply Bool.eqb_prop in Hall.
Qed.

Lemma sameFilenameChar_spec c d :
  toLowerCaseChar (if isAlphanumeric c then c else "_"%char)
  = toLowerCaseChar (if isAlphanumeric d then d else "_"%char)
  <-> sameFilenameChar c d = true.
Proof. rewrite <- sameFilenameChar_eqb. symmetry. apply Ascii.eqb_eq. Qed.

(** X5: two names are given the same file name exactly when they have the
    same length and, place by place, hold the same letter in either case,
    the same digit, or any two characters that are neither. *)
Theorem sanitizeFilename_collisions s t :
  sanitizeFilename s = sanitizeFilename t
  <-> Forall2 (fun c d => sameFilenameChar c d = true)
        (list_ascii_of_string s) (list_ascii_of_string t).
Proof.
  unfold sanitizeFilename, toLowerCase. revert t.
  induction s as [|c s IH]; intros [|d t]; cbn.
  - split; [constructor|done].
  - split; [done|]. intros H. inversion H.
  - split; [done|]. intros H. inversion H.
  - rewrite Forall2_cons, <- IH, <- sameFilenameChar_spec.
    split; [by intros [= -> ->]|by intros [-> ->]].
Qed.

End utilities.

(** ** More on the statistics *)

Section statistics_more.
Local Open Scope Z_scope.

Lemma sortAscending_unique values values' :
  values ≡ₚ values' -> sortAscending values = sortAscending values'.
Proof.
  intros Hperm. apply (StronglySorted_unique Z.le);
    [apply sortAscending_sorted..|].
  by rewrite !sortAscending_Permutation.
Qed.

(** X6: the statistics do not depend on the order of the values. *)
Theorem calculateStatistics_Permutation values values' :
  values ≡ₚ values' -> calculateStatistics values = calculateStatistics values'.
Proof.
  intros Hperm. unfold calculateStatistics, arrayLength.
  by rewrite (sortAscending_unique _ _ Hperm), (Permutation_length Hperm).
Qed.

Lemma calculateStatistics_Permutation_witness :
  [30; 10; 20] ≡ₚ [10; 20; 30]
  /\ calculateStatistics [30; 10; 20] = calculateStatistics [10; 20; 30].
Proof.
  assert ([30; 10; 20] ≡ₚ [10; 20; 30]) as Hperm.
  { apply perm_trans with [10; 30; 20]; [apply perm_swap|].
    apply perm_skip, perm_swap. }
  split; [exact Hperm|].
  exact (calculateStatistics_Permutation [30; 10; 20] [10; 20; 30] Hperm).
Defined.

Lemma filter_length_Permutation {A} (test : A -> bool) (l l' : list A) :
  l ≡ₚ l' -> length (List.filter test l) = length (List.filter test l').
Proof.
  induction 1 as [|x l l' _ IH|x y l|l l' l'' _ IH1 _ IH2]; cbn;
    repeat case_match; cbn; congruence.
Qed.

Lemma filter_all {A} (test : A -> bool) (l : list A) :
  Forall (fun x => test x = true) l -> List.filter test l = l.
Proof. induction 1 as [|x l Hx _ IH]; cbn; [done|]. by rewrite Hx, IH. Qed.

Lemma filter_none {A} (test : A -> bool) (l : list A) :
  Forall (fun x => test x = false) l -> List.filter test l = [].
Proof. induction 1 as [|x l Hx _ IH]; cbn; [done|]. by rewrite Hx. Qed.

(** In a sorted list the element at index [i] has [i + 1] elements at
    least that are not above it and [i] elements at most below it. *)
Lemma sorted_rank (sorted : list Z) (i : nat) v :
  StronglySorted Z.le sorted -> sorted !! i = Some v ->
  (i + 1 <= length (List.filter (fun x => (x <=? v)%Z) sorted))%nat
  /\ (length (List.filter (fun x => (x <? v)%Z) sorted) <= i)%nat.
Proof.
  intros Hs Hv. pose proof (lookup_lt_Some _ _ _ Hv) as Hi. split.
  - rewrite <- (take_drop (S i) sorted) at 1.
    rewrite List.filter_app, length_app, filter_all.
    + rewrite length_take. lia.
    + apply Forall_lookup. intros j x Hx. apply Z.leb_le.
      apply lookup_take_Some in Hx as [Hx Hj].
      eapply (StronglySorted_lookup_le sorted j i); [done| |done..]. lia.
  - rewrite <- (take_drop i sorted) at 1.
    rewrite List.filter_app, length_app, (filter_none _ (drop i sorted)).
    + cbn.
      assert (length (List.filter (fun x => (x <? v)%Z) (take i sorted))
              <= length (take i sorted))%nat as Hf.
      { clear. induction (take i sorted) as [|x l IH]; cbn; [done|].
        case_match; cbn; lia. }
      rewrite length_take in Hf. lia.
    + apply Forall_lookup. intros j x Hx. apply Z.ltb_ge.
      rewrite lookup_drop in Hx.
      eapply (StronglySorted_lookup_le sorted i (i + j)); [done| |done..]. lia.
Qed.

Lemma percentile_atRank values p v :
  values <> [] -> 0 < p <= 100 ->
  percentile (sortAscending values) p = Some v -> atRank values p v.
Proof.
  intros Hne Hp Hv.
  pose proof (sortAscending_nonempty values Hne) as Hsne.
  destruct (percentile_index _ p Hsne Hp) as (Hk & He & _).
  rewrite He in Hv. clear He.
  pose proof (ceilDiv_spec (p * arrayLength (sortAscending values)) 100
                ltac:(lia)) as Hceil.
  unfold isCeiling in Hceil.
  set (k := ceilDiv (p * arrayLength (sortAscending values)) 100) in *.
  destruct (sorted_rank _ _ _ (sortAscending_sorted values) Hv) as [Hle Hlt].
  rewrite sortAscending_length in *.
  rewrite (filter_length_Permutation _ _ _ (sortAscending_Permutation values))
    in Hle.
  rewrite (filter_length_Permutation _ _ _ (sortAscending_Permutation values))
    in Hlt.
  split; [|unfold arrayLength in *; lia].
  rewrite <- (sortAscending_Permutation values). by eapply list_elem_of_lookup_2.
Qed.

(** X7: the three percentiles of a non-empty list are values of the list
    at their rank: at least 90 (95, 99) percent of the values are not above
    p90 (p95, p99), and fewer than 90 (95, 99) percent are below it. *)
Theorem percentiles_at_rank values :
  values <> [] ->
  exists a b c,
    let stats := calculateStatistics values in
    Stats.p90 stats = Some a /\ Stats.p95 stats = Some b
    /\ Stats.p99 stats = Some c
    /\ atRank values 90 a /\ atRank values 95 b /\ atRank values 99 c.
Proof.
  intros Hne. pose proof (sortAscending_nonempty values Hne) as Hsne.
  rewrite calculateStatistics_nonempty by done. cbv zeta.
  destruct (percentile_index _ 90 Hsne ltac:(lia)) as (_ & _ & [a Ha]).
  destruct (percentile_index _ 95 Hsne ltac:(lia)) as (_ & _ & [b Hb]).
  destruct (percentile_index _ 99 Hsne ltac:(lia)) as (_ & _ & [c Hc]).
  exists a, b, c.
  cbn [Stats.p90 Stats.p95 Stats.p99].
  do 3 (split; [done|]).
  split; [|split]; apply percentile_atRank; done || lia.
Qed.

Lemma percentiles_at_rank_witness :
  exists a b c,
    Stats.p90 (calculateStatistics [30; 10; 20]) = Some a
    /\ Stats.p95 (calculateStatistics [30; 10; 20]) = Some b
    /\ Stats.p99 (calculateStatistics [30; 10; 20]) = Some c
    /\ atRank [30; 10; 20] 90 a /\ atRank [30; 10; 20] 95 b
    /\ atRank [30; 10; 20] 99 c.
Proof. exact (percentiles_at_rank [30; 10; 20] ltac:(discriminate)). Defined.

End statistics_more.

(** ** More on the tokenizer *)

Section tokenizer_more.
Local Open Scope Z_scope.

Lemma concat_last sep (l : list string) x y :
  String.concat sep (l ++ [x +:+ y]) = String.concat sep (l ++ [x]) +:+ y.
Proof.
  induction l as [|a [|b l] IH]; [done| |].
  - cbn. by rewrite !append_assoc.
  - change (String.concat sep ((a :: b :: l) ++ [x +:+ y]))
      with (a +:+ sep +:+ String.concat sep ((b :: l) ++ [x +:+ y])).
    change (String.concat sep ((a :: b :: l) ++ [x]))
      with (a +:+ sep +:+ String.concat sep ((b :: l) ++ [x])).
    by rewrite IH, !append_assoc.
Qed.

Lemma concat_snoc sep (l : list string) x y :
  String.concat sep ((l ++ [x]) ++ [y])
  = String.concat sep (l ++ [x]) +:+ sep +:+ y.
Proof.
  induction l as [|a [|b l] IH]; [done| |].
  - cbn. by rewrite !append_assoc.
  - change (String.concat sep (((a :: b :: l) ++ [x]) ++ [y]))
      with (a +:+ sep +:+ String.concat sep (((b :: l) ++ [x]) ++ [y])).
    change (String.concat sep ((a :: b :: l) ++ [x]))
      with (a +:+ sep +:+ String.concat sep ((b :: l) ++ [x])).
    by rewrite IH, !append_assoc.
Qed.

Lemma loop_unquoted line result current :
  lacks DQUOTE line = true ->
  let fields := parseCSVLine_loop line result current false in
  String.concat (str COMMA) fields
  = String.concat (str COMMA) (result ++ [current]) +:+ line
  /\ length fields = (length result + S (countChar COMMA line))%nat.
Proof.
  revert result current.
  induction line as [|c line IH]; intros result current Hq; cbv zeta.
  - cbn [parseCSVLine_loop countChar]. rewrite append_nil_r, length_app.
    cbn. split; [done|lia].
  - cbn [lacks] in Hq. apply andb_prop in Hq as [Hc Hq].
    apply negb_true_iff in Hc.
    cbn [parseCSVLine_loop countChar]. rewrite Hc. cbn [negb]. rewrite andb_true_r.
    destruct (Ascii.eqb_spec c COMMA) as [->|Hcomma].
    + destruct (IH (result ++ [current]) "" Hq) as [Hjoin Hlen].
      rewrite Hjoin, Hlen, concat_snoc, length_app. cbn [length].
      unfold str. rewrite !append_assoc, append_nil_l. split; [done|lia].
    + destruct (IH result (current +:+ str c) Hq) as [Hjoin Hlen].
      rewrite Hjoin, Hlen, concat_last. unfold str.
      rewrite !append_assoc. split; [done|lia].
Qed.

(** X8: on a line without double quotes the tokenizer is plain splitting
    on commas: joining the fields with commas gives the line back, and there
    is one field more than there are commas. *)
Theorem parseCSVLine_unquoted line :
  lacks DQUOTE line = true ->
  String.concat (str COMMA) (parseCSVLine line) = line
  /\ length (parseCSVLine line) = S (countChar COMMA line).
Proof.
  intros Hq. destruct (loop_unquoted line [] "" Hq) as [Hjoin Hlen].
  unfold parseCSVLine. by rewrite Hjoin, Hlen.
Qed.

Lemma parseCSVLine_unquoted_witness :
  String.concat (str COMMA) (parseCSVLine "Login,500,,true") = "Login,500,,true"
  /\ length (parseCSVLine "Login,500,,true") = 4%nat.
Proof. exact (parseCSVLine_unquoted "Login,500,,true" eq_refl). Defined.

(** A character that is neither a comma nor a double quote, added to the
    end of a line, is added to the end of the last field. *)
Lemma loop_snoc line c result current inQuotes :
  c <> DQUOTE -> c <> COMMA ->
  exists fields lastField,
    parseCSVLine_loop line result current inQuotes = fields ++ [lastField]
    /\ parseCSVLine_loop (line +:+ str c) result current inQuotes
       = fields ++ [lastField +:+ str c].
Proof.
  intros Hq Hc. apply Ascii_eqb_neq in Hq, Hc.
  assert (forall result current inQuotes,
             parseCSVLine_loop (str c) result current inQuotes
             = result ++ [current +:+ str c]) as Hlast.
  { intros. cbn. by rewrite Hq, Hc. }
  revert result current inQuotes.
  assert (forall n line, (String.length line <= n)%nat ->
            forall result current inQuotes,
            exists fields lastField,
              parseCSVLine_loop line result current inQuotes
              = fields ++ [lastField]
              /\ parseCSVLine_loop (line +:+ str c) result current inQuotes
                 = fields ++ [lastField +:+ str c]) as Hall; [|by eauto].
  clear line. induction n as [|n IH]; intros [|d line] Hn result current inQuotes;
    try (exists result, current; by rewrite append_nil_l, Hlast).
  { cbn in Hn. lia. }
  cbn [String.length] in Hn.
  rewrite append_cons. cbn [parseCSVLine_loop].
  destruct (Ascii.eqb d DQUOTE).
  - destruct inQuotes, line as [|next rest].
    + rewrite append_nil_l. unfold str at 1. rewrite Hq.
      apply (IH ""). cbn. lia.
    + rewrite append_cons. destruct (Ascii.eqb next DQUOTE).
      * apply IH. cbn in *. lia.
      * rewrite <- append_cons. apply IH. cbn in *. lia.
    + apply IH. cbn. lia.
    + apply IH. cbn in *. lia.
  - destruct (Ascii.eqb d COMMA && negb inQuotes); apply IH; cbn; lia.
Qed.

Lemma allChars_append test s t :
  allChars test (s +:+ t) = allChars test s && allChars test t.
Proof.
  induction s as [|c s IH]; [done|].
  rewrite append_cons. cbn [allChars]. by rewrite IH, andb_assoc.
Qed.

Lemma truthy_trim_blank s :
  truthy (trim s) = negb (allChars isWhiteSpace s).
Proof.
  induction s as [|c s IH]; [done|]. cbn [allChars].
  destruct (isWhiteSpace c) eqn:Hc.
  - cbn [andb]. rewrite <- IH. unfold trim. cbn [trimStart]. by rewrite Hc.
  - by rewrite truthy_trim.
Qed.

Lemma writeLine_not_blank fields column :
  column = "label" \/ column = "elapsed" ->
  allChars isWhiteSpace (writeLine (fields ++ [Bare column])) = false.
Proof.
  intros Hcolumn. destruct fields as [|f fields].
  - by destruct Hcolumn as [-> | ->].
  - destruct (fields ++ [Bare column]) as [|g rest] eqn:E.
    { by destruct fields. }
    cbn [app]. rewrite E, writeLine_cons, allChars_append. cbn [allChars].
    change (isWhiteSpace COMMA) with false. by rewrite andb_false_r.
Qed.

(** X9: with Windows line endings the last name of the header keeps its
    carriage return, so the column is not found: a file whose header ends
    with the label or the elapsed column is rejected. *)
Theorem crlf_header_rejected fields column rest :
  forallb plain fields = true ->
  column = "label" \/ column = "elapsed" ->
  column ∉ map fieldValue fields ->
  parseJMeterResults
    (writeLine (fields ++ [Bare column]) +:+ String CR (String LF rest))
  = None.
Proof.
  intros Hplain Hcolumn Hfresh.
  set (header := writeLine (fields ++ [Bare column])).
  assert (forallb plain (fields ++ [Bare column]) = true) as Hall.
  { rewrite forallb_app, Hplain. by destruct Hcolumn as [-> | ->]. }
  assert (lacks LF (header +:+ str CR) = true) as Hlf.
  { rewrite lacks_append. apply andb_true_iff. split; [|done].
    apply lacks_writeLine; [done|].
    apply forallb_forall. intros f Hf.
    rewrite forallb_forall in Hall. by apply plain_lacks, Hall. }
  assert (csvLines (header +:+ String CR (String LF rest))
          = (header +:+ str CR) :: List.filter (fun line => truthy (trim line))
                                     (split_loop rest "")) as Hlines.
  { unfold csvLines, splitLines. rewrite <- append_snoc.
    rewrite split_loop_line by done. rewrite append_nil_l.
    cbn [List.filter]. rewrite truthy_trim_blank, allChars_append.
    unfold header. by rewrite writeLine_not_blank. }
  unfold parseJMeterResults. rewrite Hlines.
  destruct (arrayLength _ <? 2); [done|].
  cbn [head]. unfold default. cbn [from_option id].
  assert (exists f rest', fields ++ [Bare column] = f :: rest') as (f & rest' & E).
  { destruct fields; cbn; eauto. }
  assert (forallb writable (f :: rest') = true) as Hw.
  { rewrite <- E. apply forallb_forall. intros g Hg.
    rewrite forallb_forall in Hall. by apply plain_writable, Hall. }
  destruct (loop_snoc header CR [] "" false ltac:(done) ltac:(done))
    as (names & lastName & Hparse & Hcr).
  fold (parseCSVLine header) in Hparse.
  fold (parseCSVLine (header +:+ str CR)) in Hcr.
  unfold header in Hparse at 1. rewrite E, parse_written in Hparse by done.
  rewrite <- E, map_app in Hparse. cbn [map fieldValue] in Hparse.
  apply app_inj_tail in Hparse as [<- <-]. rewrite Hcr.
  assert (column ∉ map fieldValue fields ++ [column +:+ str CR]) as Hmissing.
  { rewrite not_elem_of_app, not_elem_of_cons. split; [done|].
    split; [|apply not_elem_of_nil].
    by destruct Hcolumn as [-> | ->]. }
  apply indexOf_missing in Hmissing.
  cbn [readColumns Columns.labelIndex Columns.elapsedIndex].
  destruct Hcolumn as [-> | ->]; rewrite Hmissing; by rewrite ?orb_true_r.
Qed.

Lemma crlf_header_rejected_witness :
  parseJMeterResults
    (writeLine ([Bare "label"] ++ [Bare "elapsed"])
     +:+ String CR (String LF "Login,500"))
  = None.
Proof.
  apply (crlf_header_rejected [Bare "label"] "elapsed" "Login,500").
  - reflexivity.
  - by right.
  - intros H. apply list_elem_of_singleton in H. discriminate H.
Defined.

End tokenizer_more.

(** ** Error analysis *)

Section error_analysis.
Local Open Scope Z_scope.

(** *** Objects used as dictionaries *)

Lemma lookupOwn_assign {A} (object : list (string * A)) key v key' :
  lookupOwn (assign object key v) key'
  = if String.eqb key key' then Some v else lookupOwn object key'.
Proof.
  induction object as [|[k w] object IH]; cbn [assign lookupOwn].
  - done.
  - destruct (String.eqb_spec k key) as [->|Hk]; cbn [lookupOwn].
    + by destruct (String.eqb key key').
    + rewrite IH. destruct (String.eqb_spec key key') as [Hkey|Hkey]; [|done].
      subst key'. by rewrite (proj2 (String.eqb_neq _ _) Hk).
Qed.

Lemma keys_assign {A} (object : list (string * A)) key v :
  map fst (assign object key v)
  = match lookupOwn object key with
    | Some _ => map fst object
    | None => map fst object ++ [key]
    end.
Proof.
  induction object as [|[k w] object IH]; cbn [assign lookupOwn map fst app].
  - done.
  - destruct (String.eqb k key); cbn [map fst]; [done|].
    rewrite IH. by destruct (lookupOwn object key).
Qed.

Lemma lookupOwn_None {A} (object : list (string * A)) key :
  lookupOwn object key = None <-> key ∉ map fst object.
Proof.
  induction object as [|[k w] object IH]; cbn [lookupOwn map fst].
  - split; [intros _; apply not_elem_of_nil|done].
  - rewrite not_elem_of_cons, <- IH.
    destruct (String.eqb_spec k key) as [->|Hk]; [split; [done|tauto]|].
    split; [by split|tauto].
Qed.

Lemma NoDup_assign {A} (object : list (string * A)) key v :
  NoDup (map fst object) -> NoDup (map fst (assign object key v)).
Proof.
  intros Hnd. rewrite keys_assign.
  destruct (lookupOwn object key) eqn:Hkey; [done|].
  apply NoDup_app. split; [done|]. split; [|apply NoDup_singleton].
  intros k Hk ->%list_elem_of_singleton. by apply lookupOwn_None in Hkey.
Qed.

Lemma lookupOwn_elem_of {A} (object : list (string * A)) key v :
  NoDup (map fst object) ->
  lookupOwn object key = Some v <-> (key, v) ∈ object.
Proof.
  induction object as [|[k w] object IH]; cbn [lookupOwn map fst].
  - intros _. split; [done|]. intros H. by apply elem_of_nil in H.
  - intros [Hk Hnd]%NoDup_cons. rewrite elem_of_cons, <- (IH Hnd).
    destruct (String.eqb_spec k key) as [->|Hne].
    + split; [intros [= ->]; by left|]. intros [[= ->]|H]; [done|].
      exfalso. apply Hk. apply list_elem_of_fmap.
      exists (key, v). split; [done|]. by apply (IH Hnd).
    + split; [by right|]. intros [[= -> ->]|H]; done.
Qed.

(** *** The tally of the types *)

Lemma lookup_countErrorType object error code :
  lookupOwn (countErrorType object error) code
  = if String.eqb (errorTypeOf error) code then
      match lookupOwn object code with
      | Some entry =>
          Some (ErrorType.mk (ErrorType.code entry) (ErrorType.count entry + 1)
                  (ErrorType.message entry))
      | None =>
          if isInherited code then None
          else Some (ErrorType.mk code 1
                       (orString (ErrorRecord.responseMessage error) "No message"))
      end
    else lookupOwn object code.
Proof.
  unfold countErrorType.
  destruct (String.eqb_spec (errorTypeOf error) code) as [<-|Hne].
  - destruct (lookupOwn object (errorTypeOf error)) as [entry|] eqn:Hentry.
    + by rewrite Hentry, lookupOwn_assign, String.eqb_refl.
    + destruct (isInherited (errorTypeOf error)); [by rewrite Hentry|].
      by repeat (rewrite lookupOwn_assign, String.eqb_refl; cbn).
  - apply String.eqb_neq in Hne.
    destruct (lookupOwn object (errorTypeOf error)) as [entry|] eqn:Hentry.
    + by rewrite Hentry, lookupOwn_assign, Hne.
    + destruct (isInherited (errorTypeOf error)); [by rewrite Hentry|].
      rewrite lookupOwn_assign, String.eqb_refl.
      by rewrite !lookupOwn_assign, Hne.
Qed.

Lemma errorsOfType_snoc code errors error :
  errorsOfType code (errors ++ [error])
  = errorsOfType code errors
    ++ (if String.eqb (errorTypeOf error) code then [error] else []).
Proof. unfold errorsOfType. by rewrite List.filter_app. Qed.

Lemma fold_countErrorType errors code :
  lookupOwn (fold_left countErrorType errors []) code
  = if isInherited code then None
    else (fun first =>
            ErrorType.mk code (arrayLength (errorsOfType code errors))
              (orString (ErrorRecord.responseMessage first) "No message"))
         <$> head (errorsOfType code errors).
Proof.
  induction errors as [|error errors IH] using rev_ind.
  - by destruct (isInherited code).
  - rewrite fold_left_app. cbn [fold_left].
    rewrite lookup_countErrorType, IH, errorsOfType_snoc.
    destruct (String.eqb (errorTypeOf error) code); [|by rewrite app_nil_r].
    destruct (isInherited code); [done|].
    destruct (errorsOfType code errors) as [|first rest]; [done|].
    cbn [head fmap option_fmap option_map ErrorType.code ErrorType.count
           ErrorType.message app].
    do 2 f_equal. unfold arrayLength. rewrite !length_cons, length_app. cbn. lia.
Qed.

(** X10: in the analysis, the entry of an error type holds the number of
    the errors of that type and the message of the first of them; an empty
    response code counts as the type Unknown, an empty message reads No
    message, and a type named like an inherited property has no entry. *)
Theorem analyzeErrors_by_type errors code :
  lookupOwn (ErrorAnalysis.errorsByType (analyzeErrors errors)) code
  = if isInherited code then None
    else (fun first =>
            ErrorType.mk code (arrayLength (errorsOfType code errors))
              (orString (ErrorRecord.responseMessage first) "No message"))
         <$> head (errorsOfType code errors).
Proof.
  unfold analyzeErrors. destruct errors as [|error errors].
  - by destruct (isInherited code).
  - change (arrayLength (error :: errors) =? 0) with false.
    cbn [ErrorAnalysis.errorsByType]. apply fold_countErrorType.
Qed.

Lemma totalCount_assign object key entry :
  totalCount (assign object key entry)
  = totalCount object
    - from_option ErrorType.count 0 (lookupOwn object key)
    + ErrorType.count entry.
Proof.
  induction object as [|[k w] object IH]; cbn [assign lookupOwn].
  - cbn. lia.
  - destruct (String.eqb k key); cbn [totalCount foldr snd from_option] in *.
    + lia.
    + fold (totalCount (assign object key entry)). fold (totalCount object).
      rewrite IH. lia.
Qed.

Lemma totalCount_countErrorType object error :
  totalCount (countErrorType object error)
  = totalCount object
    + match lookupOwn object (errorTypeOf error) with
      | Some _ => 1
      | None => if isInherited (errorTypeOf error) then 0 else 1
      end.
Proof.
  unfold countErrorType.
  destruct (lookupOwn object (errorTypeOf error)) as [entry|] eqn:Hentry.
  - rewrite Hentry, totalCount_assign, Hentry.
    cbn [from_option ErrorType.count]. lia.
  - destruct (isInherited (errorTypeOf error)); [rewrite Hentry; lia|].
    rewrite lookupOwn_assign, String.eqb_refl, !totalCount_assign.
    rewrite lookupOwn_assign, String.eqb_refl, Hentry. cbn. lia.
Qed.

Lemma totalCount_fold errors :
  totalCount (fold_left countErrorType errors [])
  = arrayLength
      (List.filter (fun error => negb (isInherited (errorTypeOf error))) errors).
Proof.
  induction errors as [|error errors IH] using rev_ind; [done|].
  rewrite fold_left_app. cbn [fold_left].
  rewrite totalCount_countErrorType, IH, fold_countErrorType, List.filter_app.
  unfold arrayLength. rewrite length_app. cbn [List.filter].
  destruct (isInherited (errorTypeOf error)); cbn; [lia|].
  destruct (head _); cbn; lia.
Qed.

(** X11: the counts of the error types add up to the number of the errors
    whose type is not named like an inherited property; when there is no
    such error they add up to [totalErrors]. *)
Theorem analyzeErrors_counts_add_up errors :
  let analysis := analyzeErrors errors in
  totalCount (ErrorAnalysis.errorsByType analysis)
  = arrayLength
      (List.filter (fun error => negb (isInherited (errorTypeOf error))) errors)
  /\ (Forall (fun error => isInherited (errorTypeOf error) = false) errors ->
      totalCount (ErrorAnalysis.errorsByType analysis)
      = ErrorAnalysis.totalErrors analysis).
Proof.
  cbv zeta.
  assert (totalCount (ErrorAnalysis.errorsByType (analyzeErrors errors))
          = arrayLength (List.filter
              (fun error => negb (isInherited (errorTypeOf error))) errors)) as H.
  { unfold analyzeErrors. destruct errors as [|error errors]; [done|].
    change (arrayLength (error :: errors) =? 0) with false.
    cbn [ErrorAnalysis.errorsByType]. apply totalCount_fold. }
  split; [done|]. intros Hplain. rewrite H, filter_all.
  - unfold analyzeErrors. by destruct errors.
  - eapply Forall_impl; [done|]. by intros error ->.
Qed.

Lemma analyzeErrors_counts_add_up_witness :
  totalCount (ErrorAnalysis.errorsByType (analyzeErrors three_errors)) = 3
  /\ ErrorAnalysis.totalErrors (analyzeErrors three_errors) = 3.
Proof.
  destruct (analyzeErrors_counts_add_up three_errors) as [_ Hsum].
  assert (Forall (fun error => isInherited (errorTypeOf error) = false)
            three_errors) as Hplain by (repeat constructor).
  specialize (Hsum Hplain). split; [|reflexivity].
  rewrite Hsum. reflexivity.
Defined.

(** *** The tally of the samplers *)

Lemma lookup_countSampler object error sampler :
  lookupOwn (countSampler object error) sampler
  = if String.eqb (ErrorRecord.label error) sampler then
      match lookupOwn object sampler with
      | Some entry =>
          Some (SamplerErrors.mk (SamplerErrors.sampler entry)
                  (SamplerErrors.count entry + 1)
                  (SamplerErrors.errorType entry) (SamplerErrors.message entry))
      | None =>
          if isInherited sampler then None
          else Some (samplerEntry sampler error [error])
      end
    else lookupOwn object sampler.
Proof.
  unfold countSampler.
  destruct (String.eqb_spec (ErrorRecord.label error) sampler) as [<-|Hne].
  - destruct (lookupOwn object (ErrorRecord.label error)) as [entry|] eqn:Hentry.
    + by rewrite Hentry, lookupOwn_assign, String.eqb_refl.
    + destruct (isInherited (ErrorRecord.label error)); [by rewrite Hentry|].
      by repeat (rewrite lookupOwn_assign, String.eqb_refl; cbn).
  - apply String.eqb_neq in Hne.
    destruct (lookupOwn object (ErrorRecord.label error)) as [entry|] eqn:Hentry.
    + by rewrite Hentry, lookupOwn_assign, Hne.
    + destruct (isInherited (ErrorRecord.label error)); [by rewrite Hentry|].
      rewrite lookupOwn_assign, String.eqb_refl.
      by rewrite !lookupOwn_assign, Hne.
Qed.

Lemma errorsOfSampler_snoc sampler errors error :
  errorsOfSampler sampler (errors ++ [error])
  = errorsOfSampler sampler errors
    ++ (if String.eqb (ErrorRecord.label error) sampler then [error] else []).
Proof. unfold errorsOfSampler. by rewrite List.filter_app. Qed.

Lemma fold_countSampler errors sampler :
  lookupOwn (fold_left countSampler errors []) sampler
  = if isInherited sampler then None
    else (fun first => samplerEntry sampler first (errorsOfSampler sampler errors))
         <$> head (errorsOfSampler sampler errors).
Proof.
  induction errors as [|error errors IH] using rev_ind.
  - by destruct (isInherited sampler).
  - rewrite fold_left_app. cbn [fold_left].
    rewrite lookup_countSampler, IH, errorsOfSampler_snoc.
    destruct (String.eqb (ErrorRecord.label error) sampler);
      [|by rewrite app_nil_r].
    destruct (isInherited sampler); [done|].
    destruct (errorsOfSampler sampler errors) as [|first rest]; [done|].
    cbn [head fmap option_fmap option_map app]. unfold samplerEntry.
    cbn [SamplerErrors.sampler SamplerErrors.count SamplerErrors.errorType
           SamplerErrors.message].
    do 2 f_equal. unfold arrayLength. rewrite !length_cons, length_app. cbn. lia.
Qed.

Lemma NoDup_countSampler object error :
  NoDup (map fst object) -> NoDup (map fst (countSampler object error)).
Proof.
  intros Hnd. unfold countSampler.
  repeat case_match; auto using NoDup_assign.
Qed.

Lemma NoDup_fold_countSampler errors :
  NoDup (map fst (fold_left countSampler errors [])).
Proof.
  induction errors as [|error errors IH] using rev_ind; [constructor|].
  rewrite fold_left_app. by apply NoDup_countSampler.
Qed.

(** *** The order of the values, the sort and the cut *)

Lemma filter_partition {A} (test : A -> bool) (l : list A) :
  List.filter test l ++ List.filter (fun x => negb (test x)) l ≡ₚ l.
Proof.
  induction l as [|x l IH]; [done|]. cbn [List.filter].
  destruct (test x); cbn [negb app].
  - by constructor.
  - rewrite <- Permutation_middle. by constructor.
Qed.

Lemma objectValues_Permutation {A} (object : list (string * A)) :
  objectValues object ≡ₚ map snd object.
Proof.
  unfold objectValues. rewrite merge_sort_Permutation.
  by rewrite (filter_partition (fun p => isArrayIndex p.1) object).
Qed.

Lemma insertByCount_Permutation a sorted :
  insertByCount a sorted ≡ₚ a :: sorted.
Proof.
  induction sorted as [|b sorted IH]; cbn [insertByCount]; [done|].
  destruct (SamplerErrors.count b <=? SamplerErrors.count a); [done|].
  rewrite IH. apply perm_swap.
Qed.

Lemma sortByCount_Permutation entries : sortByCount entries ≡ₚ entries.
Proof.
  induction entries as [|a entries IH]; [done|].
  cbn [sortByCount foldr]. fold (sortByCount entries).
  by rewrite insertByCount_Permutation, IH.
Qed.

Lemma insertByCount_sorted a sorted :
  StronglySorted (fun x y => SamplerErrors.count y <= SamplerErrors.count x) sorted ->
  StronglySorted (fun x y => SamplerErrors.count y <= SamplerErrors.count x)
    (insertByCount a sorted).
Proof.
  induction 1 as [|b sorted Hs IH Hall]; cbn [insertByCount].
  - repeat constructor.
  - destruct (Z.leb_spec (SamplerErrors.count b) (SamplerErrors.count a)).
    + constructor; [by constructor|]. constructor; [done|].
      eapply Forall_impl; [done|]. cbn. intros; lia.
    + constructor; [done|].
      rewrite insertByCount_Permutation. constructor; [lia|done].
Qed.

Lemma sortByCount_sorted entries :
  StronglySorted (fun x y => SamplerErrors.count y <= SamplerErrors.count x)
    (sortByCount entries).
Proof.
  induction entries as [|a entries IH]; [constructor|].
  by apply insertByCount_sorted.
Qed.

Lemma sorted_lookup_ge (sorted : list SamplerErrors.t) (i j : nat) a b :
  StronglySorted (fun x y => SamplerErrors.count y <= SamplerErrors.count x) sorted ->
  (i < j)%nat -> sorted !! i = Some a -> sorted !! j = Some b ->
  SamplerErrors.count b <= SamplerErrors.count a.
Proof.
  intros Hs. revert i j. induction Hs as [|x l Hs IH Hall]; intros i j Hij Hi Hj.
  - done.
  - destruct i as [|i], j as [|j]; simplify_eq/=; try lia.
    + by eapply (proj1 (Forall_lookup _ _) Hall).
    + eapply IH; [|done..]. lia.
Qed.

Lemma topErrorsBySampler_eq errors :
  ErrorAnalysis.topErrorsBySampler (analyzeErrors errors)
  = take 5 (sortByCount (objectValues (fold_left countSampler errors []))).
Proof. unfold analyzeErrors. by destruct errors. Qed.

Lemma elem_of_values errors entry :
  entry ∈ sortByCount (objectValues (fold_left countSampler errors []))
  <-> isInherited (SamplerErrors.sampler entry) = false
      /\ exists first rest,
          errorsOfSampler (SamplerErrors.sampler entry) errors = first :: rest
          /\ entry = samplerEntry (SamplerErrors.sampler entry) first (first :: rest).
Proof.
  rewrite sortByCount_Permutation, objectValues_Permutation.
  pose proof (NoDup_fold_countSampler errors) as Hnd.
  rewrite list_elem_of_fmap. split.
  - intros ([key entry'] & -> & Hin). cbn [snd].
    apply (lookupOwn_elem_of _ _ _ Hnd) in Hin.
    rewrite fold_countSampler in Hin.
    destruct (isInherited key) eqn:Hkey; [done|].
    destruct (errorsOfSampler key errors) as [|first rest] eqn:E; [done|].
    injection Hin as <-. cbn [samplerEntry SamplerErrors.sampler].
    rewrite E. eauto.
  - intros (Hkey & first & rest & E & Hentry).
    exists (SamplerErrors.sampler entry, entry). split; [done|].
    apply (lookupOwn_elem_of _ _ _ Hnd).
    rewrite fold_countSampler, Hkey, E. cbn. by rewrite <- Hentry.
Qed.

Lemma samplers_NoDup errors :
  NoDup (map SamplerErrors.sampler
           (sortByCount (objectValues (fold_left countSampler errors [])))).
Proof.
  rewrite sortByCount_Permutation, objectValues_Permutation.
  pose proof (NoDup_fold_countSampler errors) as Hnd.
  assert (map SamplerErrors.sampler (map snd (fold_left countSampler errors []))
          = map fst (fold_left countSampler errors [])) as ->; [|done].
  rewrite map_map. apply map_ext_in. intros [key entry] Hin%list_elem_of_In.
  apply (lookupOwn_elem_of _ _ _ Hnd) in Hin. rewrite fold_countSampler in Hin.
  destruct (isInherited key); [done|].
  destruct (head _); [|done]. by injection Hin as <-.
Qed.

Lemma analyzeErrors_top_entries errors entry :
  entry ∈ ErrorAnalysis.topErrorsBySampler (analyzeErrors errors) ->
  isInherited (SamplerErrors.sampler entry) = false
  /\ exists first rest,
      errorsOfSampler (SamplerErrors.sampler entry) errors = first :: rest
      /\ entry = samplerEntry (SamplerErrors.sampler entry) first (first :: rest).
Proof.
  rewrite topErrorsBySampler_eq. intros [i Hi]%list_elem_of_lookup.
  apply elem_of_values. apply lookup_take_Some in Hi as [Hi _].
  by eapply list_elem_of_lookup_2.
Qed.

(** X12: the top errors by sampler are five entries at most, each of
    another sampler, in descending order of their counts; an entry holds the
    number of the errors of its sampler and the type and the message of the
    first of them; and a sampler that is left out (whose label is not named
    like an inherited property) has no more errors than any entry listed. *)
Theorem analyzeErrors_top_samplers errors :
  let top := ErrorAnalysis.topErrorsBySampler (analyzeErrors errors) in
  (length top <= 5)%nat
  /\ NoDup (map SamplerErrors.sampler top)
  /\ (forall i j a b,
        (i < j)%nat -> top !! i = Some a -> top !! j = Some b ->
        SamplerErrors.count b <= SamplerErrors.count a)
  /\ (forall entry,
        entry ∈ top ->
        isInherited (SamplerErrors.sampler entry) = false
        /\ exists first rest,
            errorsOfSampler (SamplerErrors.sampler entry) errors = first :: rest
            /\ entry
               = samplerEntry (SamplerErrors.sampler entry) first (first :: rest))
  /\ (forall error,
        error ∈ errors -> isInherited (ErrorRecord.label error) = false ->
        ErrorRecord.label error ∉ map SamplerErrors.sampler top ->
        length top = 5%nat
        /\ forall entry,
            entry ∈ top ->
            arrayLength (errorsOfSampler (ErrorRecord.label error) errors)
            <= SamplerErrors.count entry).
Proof.
  cbv zeta. rewrite topErrorsBySampler_eq.
  set (sorted := sortByCount (objectValues (fold_left countSampler errors []))).
  split; [rewrite length_take; lia|].
  split.
  { pose proof (samplers_NoDup errors) as Hnd. fold sorted in Hnd.
    rewrite <- (take_drop 5 sorted), map_app in Hnd.
    by apply NoDup_app in Hnd as [? _]. }
  split.
  { intros i j a b Hij [Ha _]%lookup_take_Some [Hb _]%lookup_take_Some.
    by eapply (sorted_lookup_ge sorted i j), Hb; [apply sortByCount_sorted|..]. }
  split.
  { intros entry Hin. apply analyzeErrors_top_entries.
    by rewrite topErrorsBySampler_eq. }
  intros error Hin Hplain Hout.
  set (sampler := ErrorRecord.label error) in *.
  assert (exists first rest, errorsOfSampler sampler errors = first :: rest)
    as (first & rest & E).
  { destruct (errorsOfSampler sampler errors) eqn:E; [|eauto].
    assert (error ∈ errorsOfSampler sampler errors) as Hmatch.
    { apply list_elem_of_In, filter_In. split; [by apply list_elem_of_In|].
      apply String.eqb_refl. }
    rewrite E in Hmatch. by apply elem_of_nil in Hmatch. }
  assert (samplerEntry sampler first (first :: rest) ∈ sorted) as Hlisted.
  { apply elem_of_values. cbn [samplerEntry SamplerErrors.sampler]. eauto. }
  apply list_elem_of_lookup in Hlisted as [j Hj].
  assert (5 <= j)%nat as Hlate.
  { destruct (decide (j < 5)%nat) as [Hlt|]; [|lia]. exfalso. apply Hout.
    apply list_elem_of_fmap. exists (samplerEntry sampler first (first :: rest)).
    split; [done|]. eapply list_elem_of_lookup_2.
    apply lookup_take_Some. by split. }
  pose proof (lookup_lt_Some _ _ _ Hj) as Hlen.
  split; [rewrite length_take; lia|].
  intros entry [i Hi]%list_elem_of_lookup.
  apply lookup_take_Some in Hi as [Hi Hearly]. rewrite E.
  change (arrayLength (first :: rest))
    with (SamplerErrors.count (samplerEntry sampler first (first :: rest))).
  eapply (sorted_lookup_ge sorted i j); [apply sortByCount_sorted| |done..]. lia.
Qed.

Lemma analyzeErrors_top_samplers_witness :
  exists cart pay,
    ErrorAnalysis.topErrorsBySampler (analyzeErrors three_errors) = [cart; pay]
    /\ SamplerErrors.sampler cart = "GET /cart"
    /\ SamplerErrors.count pay <= SamplerErrors.count cart.
Proof.
  eexists _, _. split; [vm_compute; reflexivity|]. split; [reflexivity|].
  destruct (analyzeErrors_top_samplers three_errors) as (_ & _ & Hsorted & _).
  apply (Hsorted 0%nat 1%nat); [lia|reflexivity..].
Defined.

Lemma result_errors_length csv r :
  parseJMeterResults csv = Some r ->
  arrayLength (Result.errors r) = Result.totalErrorCount r
  /\ 0 <= Result.totalErrorCount r.
Proof.
  intros (st & Hscan & ->)%parseJMeterResults_Some.
  apply scanLines_tallies in Hscan as (_ & Herr & Hfail & _).
  cbn [buildResult Result.errors Result.totalErrorCount].
  rewrite Herr, Hfail. cbn [initialScan Scan.errors Scan.totalErrorCount app].
  unfold errorsOf, countOf, arrayLength. rewrite length_map. lia.
Qed.

Lemma filter_length_le {A} (test : A -> bool) (l : list A) :
  (length (List.filter test l) <= length l)%nat.
Proof. induction l as [|x l IH]; cbn; [done|]. case_match; cbn; lia. Qed.

(** X13: the analysis that [parseJMeterResults] attaches to its result
    agrees with the error counter of the result: [totalErrors] is
    [totalErrorCount], [hasErrors] says whether it is positive, and the count
    of a sampler among the top errors lies between 1 and it. *)
Theorem errorAnalysis_of_result csv r :
  parseJMeterResults csv = Some r ->
  let analysis := analyzeErrors (Result.errors r) in
  ErrorAnalysis.totalErrors analysis = Result.totalErrorCount r
  /\ ErrorAnalysis.hasErrors analysis = (0 <? Result.totalErrorCount r)
  /\ forall entry,
      entry ∈ ErrorAnalysis.topErrorsBySampler analysis ->
      1 <= SamplerErrors.count entry <= Result.totalErrorCount r.
Proof.
  intros [Hlen Hpos]%result_errors_length. cbv zeta.
  split; [|split].
  - unfold analyzeErrors. destruct (Result.errors r); [|done].
    by rewrite <- Hlen.
  - unfold analyzeErrors. rewrite <- Hlen.
    destruct (Result.errors r) as [|error errors]; [done|].
    unfold arrayLength. by rewrite length_cons.
  - intros entry Hin.
    destruct (analyzeErrors_top_entries (Result.errors r) entry Hin)
      as (_ & first & rest & E & ->).
    cbn [samplerEntry SamplerErrors.count]. rewrite <- E, <- Hlen.
    split.
    + rewrite E. unfold arrayLength. rewrite length_cons. lia.
    + unfold arrayLength, errorsOfSampler.
      pose proof (filter_length_le
        (fun error => String.eqb (ErrorRecord.label error)
                        (SamplerErrors.sampler
                           (samplerEntry (SamplerErrors.sampler entry) first
                              (first :: rest))))
        (Result.errors r)). 
      cbn [samplerEntry SamplerErrors.sampler] in *. lia.
Qed.

Lemma errorAnalysis_of_result_witness :
  exists r,
    parseJMeterResults tally_csv = Some r
    /\ ErrorAnalysis.totalErrors (analyzeErrors (Result.errors r))
       = Result.totalErrorCount r
    /\ ErrorAnalysis.hasErrors (analyzeErrors (Result.errors r)) = true.
Proof.
  eexists. split; [vm_compute; reflexivity|].
  match goal with
  | |- ErrorAnalysis.totalErrors (analyzeErrors (Result.errors ?r)) = _ /\ _ =>
      assert (parseJMeterResults tally_csv = Some r) as Hr
        by (vm_compute; reflexivity);
      destruct (errorAnalysis_of_result tally_csv r Hr) as (Htotal & Hhas & _)
  end.
  split; [exact Htotal|]. rewrite Hhas. vm_compute. reflexivity.
Defined.

End error_analysis.

(** ** The reconstruction as a whole *)

Section reconstruction_whole.
Local Open Scope Z_scope.

(** *** The pass, row by row *)

Lemma scanLines_induction (P : list Sample.t -> Scan.t -> Prop) :
  (forall rows st sample st',
      P rows st -> processSample st sample = Some st' ->
      P (rows ++ [sample]) st') ->
  forall cols lines rows st st',
    P rows st -> scanLines cols lines st = Some st' ->
    P (rows ++ readSamples cols lines) st'.
Proof.
  intros Hstep cols lines.
  induction lines as [|line lines IH]; intros rows st st' HP; cbn [scanLines].
  - intros [= <-]. unfold readSamples. cbn. by rewrite app_nil_r.
  - intros (st1 & Hline & Hrest)%bind_Some. rewrite readSamples_cons.
    unfold processLine in Hline.
    destruct (reachesColumns cols (parseCSVLine line)).
    + rewrite app_assoc. eapply IH; [|done]. by eapply Hstep.
    + injection Hline as <-. by eapply IH.
Qed.

Lemma parse_induction (P : list Sample.t -> Scan.t -> Prop) csv r :
  P [] initialScan ->
  (forall rows st sample st',
      P rows st -> processSample st sample = Some st' ->
      P (rows ++ [sample]) st') ->
  parseJMeterResults csv = Some r ->
  exists st, r = buildResult st /\ P (samplesOf csv) st.
Proof.
  intros Hinit Hstep (st & Hscan & ->)%parseJMeterResults_Some.
  exists st. split; [done|].
  by apply (scanLines_induction P Hstep _ _ [] _ _ Hinit Hscan).
Qed.

Lemma processSample_samples st sample st' :
  processSample st sample = Some st' ->
  Scan.samples st'
  = Scan.samples st ++ (if opensExecution sample then [sample] else []).
Proof.
  unfold processSample.
  destruct (tally_window st sample) as (_ & Hsamples & _).
  set (st1 := tally (recordSample st sample) sample) in *.
  destruct (opensExecution sample).
  { intros (t & _ & ->)%openExecution_Some. cbn. by rewrite Hsamples. }
  rewrite app_nil_r, <- Hsamples.
  destruct (windowOpen st1); [|by intros [= <-]].
  unfold captureChild.
  repeat case_match; intros Hst'; simplify_eq; try done;
    by apply pushChild_Some in Hst' as (t & children & _ & _ & ->).
Qed.

Lemma processSample_opens st sample st' :
  opensExecution sample = true -> processSample st sample = Some st' ->
  exists t,
    transactionFor (Scan.transactions st) (Sample.label sample) = Some t
    /\ Scan.transactions st'
       = setProperty (Scan.transactions st) (Sample.label sample)
           (withExecution t sample)
    /\ windowOf st'
       = (Some (Sample.label sample), arrayLength (Transaction.samples t),
          expectedCount sample, 0).
Proof.
  intros Hopens Hstep. apply processSample_windowStep in Hstep.
  destruct Hstep as [t _ Ht Htrans Hwin|Hno _ _|? ? ? Hno]; [|congruence..].
  by exists t.
Qed.

Lemma processSample_follows st sample st' :
  (forall name, Scan.currentTransaction st = Some name ->
                is_Some (ownProperty (Scan.transactions st) name)) ->
  opensExecution sample = false -> processSample st sample = Some st' ->
  if windowOpen st then
    if Scan.expectedChildRequestCount st <=? Scan.collectedChildRequestCount st
    then Scan.transactions st' = Scan.transactions st
         /\ windowOf st' = (None, -1, 0, 0)
    else if isChildRequest sample then
      exists name t children,
        Scan.currentTransaction st = Some name
        /\ ownProperty (Scan.transactions st) name = Some t
        /\ get_hole (Transaction.childRequestsByExecution t)
             (Scan.currentTransactionExecutionIndex st) = Some children
        /\ Scan.transactions st'
           = setProperty (Scan.transactions st) name
               (withChild t (Scan.currentTransactionExecutionIndex st)
                  children sample)
        /\ windowOf st'
           = (Some name, Scan.currentTransactionExecutionIndex st,
              Scan.expectedChildRequestCount st,
              Scan.collectedChildRequestCount st + 1)
    else Scan.transactions st' = Scan.transactions st
         /\ windowOf st' = windowOf st
  else Scan.transactions st' = Scan.transactions st
       /\ windowOf st' = windowOf st.
Proof.
  intros Hown Hopens. unfold processSample.
  destruct (tally_window st sample) as (Htrans & _ & Hwin).
  set (st1 := tally (recordSample st sample) sample) in *.
  rewrite Hopens, (windowOpen_window _ _ Hwin).
  destruct (windowOpen st) eqn:Hopen; [|by intros [= <-]].
  assert (windowOpen st1 = true) as Hopen1
    by by rewrite (windowOpen_window _ _ Hwin).
  destruct (windowOpen_Some _ Hopen1) as (name & Hcurrent1 & Hkey1).
  injection Hwin as Hc Hi He Hn.
  unfold captureChild. rewrite He, Hn.
  destruct (Scan.expectedChildRequestCount st
            <=? Scan.collectedChildRequestCount st) eqn:Hquota.
  { cbn [closeWindow withWindow Scan.collectedChildRequestCount
           Scan.expectedChildRequestCount Z.ltb Z.compare].
    rewrite andb_false_r, opensExecution_controller, Hopens.
    intros [= <-]. by rewrite <- Htrans. }
  apply Z.leb_gt in Hquota. cbv beta iota zeta.
  rewrite He, Hn, (proj2 (Z.ltb_lt _ _) Hquota), andb_true_r.
  rewrite opensExecution_controller, Hopens.
  destruct (isChildRequest sample); cycle 1.
  { intros [= <-]. split; [done|]. unfold windowOf. by rewrite Hc, Hi, He, Hn. }
  rewrite Hkey1, Htrans. rewrite Hc in Hcurrent1.
  destruct (Hown name Hcurrent1) as [t Ht].
  rewrite (proj2 (getProperty_Own _ _ _) Ht). cbn [isDefined andb].
  intros (t' & children & Ht' & Hchildren & ->)%pushChild_Some.
  rewrite Hkey1, Htrans, ?Hi, ?He, ?Hn in *. simplify_eq.
  exists (currentKey st1), t, children. repeat split; try done.
  unfold windowOf. cbn. by rewrite Hc, Hcurrent1.
Qed.

(** *** The [transactions] object as a dictionary *)

Lemma ownProperty_lookupOwn transactions key :
  ownProperty transactions key = lookupOwn transactions key.
Proof. induction transactions as [|[k t] ? IH]; cbn; [done|]. by rewrite IH. Qed.

Lemma setProperty_assign transactions key t :
  setProperty transactions key t = assign transactions key t.
Proof. induction transactions as [|[k t'] ? IH]; cbn; [done|]. by rewrite IH. Qed.

Lemma NoDup_setProperty transactions key t :
  NoDup (map fst transactions) -> NoDup (map fst (setProperty transactions key t)).
Proof. rewrite setProperty_assign. apply NoDup_assign. Qed.

(** *** Segments *)

Lemma segments_snoc rows row : segments (rows ++ [row]) = addRow (segments rows) row.
Proof. unfold segments. by rewrite fold_left_app. Qed.

Lemma addRow_last segs controller following row :
  opensExecution row = false ->
  addRow (segs ++ [(controller, following)]) row
  = segs ++ [(controller, following ++ [row])].
Proof.
  intros Hopens. unfold addRow. rewrite Hopens, length_app. cbn [length].
  replace (pred (length segs + 1)) with (length segs + 0)%nat by lia.
  by rewrite alter_app_r.
Qed.

Lemma addRow_nil row : opensExecution row = false -> addRow [] row = [].
Proof. intros Hopens. unfold addRow. by rewrite Hopens. Qed.

Lemma executionsIn_app name segs segs' :
  executionsIn name (segs ++ segs')
  = executionsIn name segs ++ executionsIn name segs'.
Proof. unfold executionsIn. by rewrite List.filter_app, map_app. Qed.

Lemma executionsIn_singleton name controller following :
  executionsIn name [(controller, following)]
  = if String.eqb (Sample.label controller) name
    then [(controller, capturedOf controller following)] else [].
Proof.
  unfold executionsIn. cbn. by destruct (String.eqb _ _).
Qed.

Lemma capturedOf_nil controller : capturedOf controller [] = [].
Proof.
  unfold capturedOf. destruct (truthy _); [|done].
  cbn [List.filter]. by destruct (Z.to_nat _).
Qed.

(** *** Transactions as lists of executions *)

Lemma countOf_snoc test (l : list Sample.t) sample :
  countOf test (l ++ [sample]) = countOf test l + (if test sample then 1 else 0).
Proof.
  rewrite countOf_app. unfold countOf, arrayLength. cbn.
  by destruct (test sample).
Qed.

Lemma withExecution_transactionOf name executions sample :
  withExecution (transactionOf name executions) sample
  = transactionOf name (executions ++ [(sample, [])]).
Proof.
  unfold withExecution, transactionOf.
  cbn [Transaction.name Transaction.samples Transaction.totalSamples
         Transaction.successCount Transaction.errorCount
         Transaction.childRequests Transaction.childRequestsByExecution].
  rewrite !map_app, concat_app. cbn [map concat fst snd].
  rewrite !countOf_snoc, !app_nil_r.
  assert (arrayLength (map fst executions)
          = arrayLength (map (fun execution : Sample.t * list Sample.t =>
                                Some execution.2) executions)) as Hlen.
  { unfold arrayLength. by rewrite !length_map. }
  replace (get_hole
             (map (fun execution : Sample.t * list Sample.t => Some execution.2)
                executions)
             (arrayLength (map fst executions)))
    with (@None (list Sample.t))
    by (rewrite Hlen; symmetry; apply get_hole_length).
  replace (Z.to_nat (arrayLength (map fst executions)))
    with (length (map (fun execution : Sample.t * list Sample.t =>
                         Some execution.2) executions))
    by (unfold arrayLength; rewrite Nat2Z.id, !length_map; done).
  rewrite set_hole_length.
  f_equal.
  - unfold arrayLength. rewrite length_app. cbn. lia.
  - destruct (Sample.success sample); lia.
  - destruct (Sample.success sample); cbn; lia.
Qed.

Lemma withExecution_newTransaction name sample :
  withExecution (newTransaction name) sample = transactionOf name [(sample, [])].
Proof.
  unfold withExecution, newTransaction, transactionOf, countOf. cbn.
  by destruct (Sample.success sample).
Qed.

Lemma withChild_transactionOf name executions controller children sample :
  withChild (transactionOf name (executions ++ [(controller, children)]))
    (arrayLength executions) children sample
  = transactionOf name (executions ++ [(controller, children ++ [sample])]).
Proof.
  unfold withChild, transactionOf.
  cbn [Transaction.name Transaction.samples Transaction.totalSamples
         Transaction.successCount Transaction.errorCount
         Transaction.childRequests Transaction.childRequestsByExecution].
  rewrite !map_app, !concat_app. cbn [map concat fst snd].
  rewrite !app_nil_r, <- app_assoc. f_equal.
  unfold arrayLength. rewrite Nat2Z.id.
  replace (length executions)
    with (length (map (fun execution : Sample.t * list Sample.t =>
                         Some execution.2) executions) + 0)%nat
    by (rewrite length_map; lia).
  by rewrite insert_app_r.
Qed.

(** *** The invariant *)

Lemma reconstructs_initial : reconstructs [] initialScan.
Proof.
  split; [intros name; reflexivity|]. split; [reflexivity|].
  split; [constructor|reflexivity].
Qed.

Lemma arrayLength_snoc {A} (l : list A) x :
  arrayLength (l ++ [x]) = arrayLength l + 1.
Proof. unfold arrayLength. rewrite length_app. cbn. lia.  Qed.

Lemma reconstructs_opens rows st sample st' :
  reconstructs rows st -> opensExecution sample = true ->
  processSample st sample = Some st' ->
  reconstructs (rows ++ [sample]) st'.
Proof.
  intros (Hspec & _ & Hnd & Hsamples) Hopens Hstep.
  pose proof (processSample_samples _ _ _ Hstep) as Hsamples'.
  apply processSample_opens in Hstep as (t & Ht & Htrans & Hwin); [|done].
  assert (segments (rows ++ [sample]) = segments rows ++ [(sample, [])]) as Hsegs.
  { rewrite segments_snoc. unfold addRow. by rewrite Hopens. }
  assert (forall name,
             executionsOf name (rows ++ [sample])
             = executionsOf name rows
               ++ (if String.eqb (Sample.label sample) name
                   then [(sample, [])] else [])) as Hexec.
  { intros name. unfold executionsOf.
    rewrite Hsegs, executionsIn_app, executionsIn_singleton.
    by rewrite capturedOf_nil. }
  set (executions := executionsOf (Sample.label sample) rows) in *.
  assert (withExecution t sample
          = transactionOf (Sample.label sample) (executions ++ [(sample, [])])
          /\ arrayLength (Transaction.samples t) = arrayLength executions)
    as [Hwith Hlen].
  { specialize (Hspec (Sample.label sample)).
    unfold transactionSpec in Hspec. fold executions in Hspec.
    apply transactionFor_Some in Ht as [Ht|[Ht ->]]; rewrite Ht in Hspec.
    - destruct executions as [|e executions'] eqn:E; [done|].
      injection Hspec as ->. split; [apply withExecution_transactionOf|].
      unfold transactionOf, arrayLength. cbn [Transaction.samples].
      by rewrite length_map.
    - destruct executions; [|done].
      split; [apply withExecution_newTransaction|done]. }
  split; [|split; [|split]].
  - intros name. rewrite Htrans, ownProperty_setProperty.
    unfold transactionSpec. rewrite Hexec.
    destruct (String.eqb_spec (Sample.label sample) name) as [<-|Hne].
    + fold executions. rewrite Hwith. by destruct executions.
    + rewrite app_nil_r. apply Hspec.
  - unfold windowSpec. rewrite Hsegs, last_snoc. left.
    rewrite Hwin, Hexec, String.eqb_refl, capturedOf_nil. fold executions.
    rewrite arrayLength_snoc, Hlen. do 3 f_equal. lia.
  - rewrite Htrans. by apply NoDup_setProperty.
  - rewrite Hsamples', Hsamples, Hopens, List.filter_app. cbn [List.filter].
    by rewrite Hopens.
Qed.

Lemma executionsIn_nonempty segs controller following :
  executionsIn (Sample.label controller) (segs ++ [(controller, following)])
  = executionsIn (Sample.label controller) segs
    ++ [(controller, capturedOf controller following)].
Proof.
  by rewrite executionsIn_app, executionsIn_singleton, String.eqb_refl.
Qed.

Lemma capturedOf_full controller following row :
  (Z.to_nat (expectedCount controller)
   <= length (List.filter isChildRequest following))%nat ->
  capturedOf controller (following ++ [row]) = capturedOf controller following.
Proof.
  intros Hfull. unfold capturedOf. destruct (truthy _); [|done].
  rewrite List.filter_app. by rewrite take_app_le.
Qed.

(** The executions do not change when the children of the last segment do
    not. *)
Lemma executionsOf_same rows segs controller following row name :
  segments rows = segs ++ [(controller, following)] ->
  opensExecution row = false ->
  capturedOf controller (following ++ [row]) = capturedOf controller following ->
  executionsOf name (rows ++ [row]) = executionsOf name rows.
Proof.
  intros Hsegs Hopens Hsame. unfold executionsOf.
  rewrite segments_snoc, Hsegs, addRow_last by done.
  rewrite !executionsIn_app, !executionsIn_singleton. by rewrite Hsame.
Qed.

Lemma reconstructs_same rows st st' segs controller following row :
  reconstructs rows st ->
  segments rows = segs ++ [(controller, following)] ->
  opensExecution row = false ->
  capturedOf controller (following ++ [row]) = capturedOf controller following ->
  Scan.transactions st' = Scan.transactions st ->
  Scan.samples st' = Scan.samples st ->
  windowSpec (rows ++ [row]) st' ->
  reconstructs (rows ++ [row]) st'.
Proof.
  intros (Hspec & _ & Hnd & Hsamples) Hsegs Hopens Hsame Htrans Hsamples' Hwin.
  split; [|split; [|split]]; [|done|by rewrite Htrans|].
  - intros name. rewrite Htrans, Hspec. unfold transactionSpec.
    by rewrite (executionsOf_same _ _ _ _ _ _ Hsegs Hopens Hsame).
  - rewrite Hsamples', Hsamples, List.filter_app. cbn [List.filter].
    by rewrite Hopens, app_nil_r.
Qed.

Lemma reconstructs_follows rows st sample st' :
  reconstructs rows st -> opensExecution sample = false ->
  processSample st sample = Some st' ->
  reconstructs (rows ++ [sample]) st'.
Proof.
  intros Hrec Hopens Hstep.
  pose proof Hrec as (Hspec & Hwin & Hnd & Hsamples).
  pose proof (processSample_samples _ _ _ Hstep) as Hsamples'.
  rewrite Hopens, app_nil_r in Hsamples'.
  unfold windowSpec in Hwin.
  destruct (segments rows) as [|seg segs0 _] eqn:Hsegs using rev_ind.
  { (* no controller row so far *)
    cbn [last] in Hwin.
    apply processSample_follows in Hstep; [|congruence|done].
    assert (windowOpen st = false) as Hclosed
      by (unfold windowOpen; by rewrite Hwin).
    rewrite Hclosed in Hstep. destruct Hstep as [Htrans [= Hc _ _ _]].
    assert (segments (rows ++ [sample]) = []) as Hsegs'.
    { by rewrite segments_snoc, Hsegs, addRow_nil. }
    split; [|split; [|split]].
    - intros name. rewrite Htrans, Hspec. unfold transactionSpec, executionsOf.
      by rewrite Hsegs, Hsegs'.
    - unfold windowSpec. rewrite Hsegs'. cbn [last]. congruence.
    - by rewrite Htrans.
    - rewrite Hsamples', Hsamples, List.filter_app. cbn [List.filter].
      by rewrite Hopens, app_nil_r. }
  destruct seg as [controller following]. rewrite last_snoc in Hwin.
  assert (segments (rows ++ [sample])
          = segs0 ++ [(controller, following ++ [sample])]) as Hsegs'.
  { by rewrite segments_snoc, Hsegs, addRow_last. }
  set (name := Sample.label controller) in *.
  set (before := executionsIn name segs0).
  assert (executionsOf name rows
          = before ++ [(controller, capturedOf controller following)]) as Hexec.
  { unfold executionsOf. rewrite Hsegs. apply executionsIn_nonempty. }
  assert (executionsOf name (rows ++ [sample])
          = before ++ [(controller, capturedOf controller (following ++ [sample]))])
    as Hexec'.
  { unfold executionsOf. rewrite Hsegs'. apply executionsIn_nonempty. }
  assert (ownProperty (Scan.transactions st) name
          = Some (transactionOf name
                    (before ++ [(controller, capturedOf controller following)])))
    as Hown.
  { rewrite Hspec. unfold transactionSpec. rewrite Hexec.
    by destruct before. }
  apply processSample_follows in Hstep; [|
    intros name' Hcurrent;
    destruct Hwin as [[= Hc _ _ _]|[Hc _]]; [|congruence];
    rewrite Hcurrent in Hc; injection Hc as ->; by rewrite Hown|done].
  destruct Hwin as [Hwin|[Hnone Hfull]]; cycle 1.
  { (* the window was closed after the quota was met *)
    assert (windowOpen st = false) as Hclosed
      by (unfold windowOpen; by rewrite Hnone).
    rewrite Hclosed in Hstep. destruct Hstep as [Htrans [= Hc _ _ _]].
    eapply reconstructs_same; try done; [by apply capturedOf_full|].
    unfold windowSpec. rewrite Hsegs', last_snoc. right.
    split; [congruence|]. rewrite List.filter_app, length_app. lia. }
  injection Hwin as Hc Hi He Hn. rewrite Hexec, arrayLength_snoc in Hi.
  assert (Scan.currentTransactionExecutionIndex st = arrayLength before)
    as Hindex by lia. clear Hi.
  set (expected := expectedCount controller) in *.
  pose proof (expectedCount_nonneg controller) as Hexpected.
  fold expected in Hexpected.
  set (requests := List.filter isChildRequest following) in *.
  destruct (truthy name) eqn:Hname; cycle 1.
  { (* the empty name: the window does not open *)
    assert (windowOpen st = false) as Hclosed
      by (unfold windowOpen; by rewrite Hc, Hname).
    rewrite Hclosed in Hstep. destruct Hstep as [Htrans Hwin'].
    assert (forall l, capturedOf controller l = []) as Hempty.
    { intros l. unfold capturedOf. fold name. by rewrite Hname. }
    eapply reconstructs_same; try done; [by rewrite !Hempty|].
    unfold windowSpec. rewrite Hsegs', last_snoc. left.
    rewrite Hwin'. unfold windowOf. rewrite Hc, Hindex, He, Hn.
    fold name. rewrite Hexec', arrayLength_snoc, !Hempty. do 3 f_equal. lia. }
  assert (capturedOf controller following = take (Z.to_nat expected) requests)
    as Hcaptured.
  { unfold capturedOf. fold name. by rewrite Hname. }
  assert (capturedOf controller (following ++ [sample])
          = take (Z.to_nat expected)
              (requests ++ if isChildRequest sample then [sample] else []))
    as Hcaptured'.
  { unfold capturedOf. fold name. rewrite Hname, List.filter_app.
    cbn [List.filter]. by destruct (isChildRequest sample). }
  assert (windowOpen st = true) as Hopen.
  { unfold windowOpen. rewrite Hc, Hname, Hindex. cbn [andb].
    apply Z.leb_le. unfold arrayLength. lia. }
  rewrite Hopen, He, Hn, Hcaptured in Hstep.
  destruct (Z.leb_spec expected (arrayLength (take (Z.to_nat expected) requests)))
    as [Hquota|Hroom].
  { (* the quota is met: the window closes *)
    destruct Hstep as [Htrans [= Hc' _ _ _]].
    assert (Z.to_nat expected <= length requests)%nat as Hfull.
    { unfold arrayLength in Hquota. rewrite length_take in Hquota. lia. }
    eapply reconstructs_same; try done; [by apply capturedOf_full|].
    unfold windowSpec. rewrite Hsegs', last_snoc. right.
    split; [done|]. rewrite List.filter_app, length_app. fold requests. lia. }
  assert (length requests < Z.to_nat expected)%nat as Hfew.
  { unfold arrayLength in Hroom. rewrite length_take in Hroom. lia. }
  rewrite Hcaptured in Hn.
  rewrite take_ge in Hcaptured by lia.
  rewrite take_ge in Hn by lia. rewrite take_ge in Hroom by lia.
  destruct (isChildRequest sample) eqn:Hchild; cycle 1.
  { (* a row that is no child request *)
    destruct Hstep as [Htrans Hwin'].
    assert (capturedOf controller (following ++ [sample])
            = capturedOf controller following) as Hsame.
    { by rewrite Hcaptured', Hcaptured, app_nil_r, take_ge by lia. }
    eapply reconstructs_same; try done.
    unfold windowSpec. rewrite Hsegs', last_snoc. left.
    rewrite Hwin'. unfold windowOf. rewrite Hc, Hindex, He, Hn. fold name.
    rewrite Hexec', arrayLength_snoc, Hsame, Hcaptured. do 3 f_equal. lia. }
  (* a child request is captured *)
  destruct Hstep as (name' & t & children & Hcurrent & Ht & Hchildren
                     & Htrans & Hwin').
  rewrite take_ge in Hwin' by lia.
  rewrite Hcurrent in Hc. injection Hc as ->. rewrite Hown in Ht.
  injection Ht as <-. rewrite Hcaptured in *.
  rewrite take_ge in Hcaptured'
    by (rewrite length_app; cbn [length]; lia).
  assert (children = requests) as ->.
  { rewrite Hindex, get_hole_lookup in Hchildren by (unfold arrayLength; lia).
    unfold arrayLength, transactionOf in Hchildren.
    cbn [Transaction.childRequestsByExecution] in Hchildren.
    rewrite Nat2Z.id, map_app in Hchildren.
    rewrite lookup_app_r in Hchildren by (rewrite length_map; lia).
    rewrite length_map, Nat.sub_diag in Hchildren. by injection Hchildren. }
  rewrite Hindex, withChild_transactionOf in Htrans.
  split; [|split; [|split]].
  - intros name0. rewrite Htrans, ownProperty_setProperty.
    destruct (String.eqb_spec name name0) as [<-|Hne].
    + unfold transactionSpec. rewrite Hexec', Hcaptured'. by destruct before.
    + rewrite Hspec. unfold transactionSpec, executionsOf.
      rewrite Hsegs, Hsegs', !executionsIn_app, !executionsIn_singleton.
      fold name. by rewrite (proj2 (String.eqb_neq _ _) Hne).
  - unfold windowSpec. rewrite Hsegs', last_snoc. left.
    rewrite Hwin', ?Hindex, ?He, ?Hn. fold name. fold expected.
    rewrite Hexec', arrayLength_snoc, Hcaptured', arrayLength_snoc.
    do 3 f_equal. lia.
  - rewrite Htrans. by apply NoDup_setProperty.
  - rewrite Hsamples', Hsamples, List.filter_app. cbn [List.filter].
    by rewrite Hopens, app_nil_r.
Qed.

Lemma reconstructs_step rows st sample st' :
  reconstructs rows st -> processSample st sample = Some st' ->
  reconstructs (rows ++ [sample]) st'.
Proof.
  intros Hrec Hstep. destruct (opensExecution sample) eqn:Hopens.
  - by eapply reconstructs_opens.
  - by eapply reconstructs_follows.
Qed.

Lemma parse_reconstructs csv r :
  parseJMeterResults csv = Some r ->
  exists st, r = buildResult st /\ reconstructs (samplesOf csv) st.
Proof.
  apply (parse_induction reconstructs);
    [apply reconstructs_initial|apply reconstructs_step].
Qed.

Lemma lookupOwn_map {A B} (f : A -> B) (object : list (string * A)) key :
  lookupOwn (map (fun '(k, v) => (k, f v)) object) key
  = f <$> lookupOwn object key.
Proof.
  induction object as [|[k v] object IH]; cbn; [done|].
  by destruct (String.eqb k key).
Qed.

(** X14: the transactions of the result are the file cut at its controller
    rows. The transaction of a name holds, in the order of the file, the
    controller rows of that name, and for each of them the first child
    requests among the rows up to the next controller row, as many as the
    row announces (none under the empty name); its counters count these
    controller rows, and its flat list of children is the concatenation of
    the children of its executions. A name without a controller row has no
    transaction. *)
Theorem transactions_are_segments csv r name :
  parseJMeterResults csv = Some r ->
  lookupOwn (Result.transactions r) name
  = summarize <$> transactionSpec name (samplesOf csv).
Proof.
  intros (st & -> & Hspec & _)%parse_reconstructs.
  cbn [buildResult Result.transactions].
  by rewrite lookupOwn_map, <- ownProperty_lookupOwn, Hspec.
Qed.

Lemma transactions_are_segments_witness :
  exists r,
    parseJMeterResults scenario_csv = Some r
    /\ lookupOwn (Result.transactions r) "Login"
       = summarize <$> transactionSpec "Login" (samplesOf scenario_csv).
Proof.
  eexists. split; [vm_compute; reflexivity|].
  match goal with
  | |- lookupOwn (Result.transactions ?r) _ = _ =>
      assert (parseJMeterResults scenario_csv = Some r) as Hr
        by (vm_compute; reflexivity);
      exact (transactions_are_segments scenario_csv r "Login" Hr)
  end.
Defined.

(** *** The controller rows and their transactions *)

Lemma segments_controllers rows :
  map fst (segments rows) = List.filter opensExecution rows.
Proof.
  induction rows as [|row rows IH] using rev_ind; [done|].
  rewrite segments_snoc, List.filter_app, <- IH. cbn [List.filter].
  unfold addRow. destruct (opensExecution row).
  - by rewrite map_app.
  - rewrite app_nil_r.
    destruct (segments rows) as [|[c f] segs _] using rev_ind; [done|].
    rewrite length_app. cbn [length].
    replace (pred (length segs + 1)) with (length segs + 0)%nat by lia.
    rewrite alter_app_r. cbn. by rewrite !map_app.
Qed.

Lemma executionsIn_controllers name segs :
  map fst (executionsIn name segs)
  = List.filter (fun c => String.eqb (Sample.label c) name) (map fst segs).
Proof.
  unfold executionsIn. induction segs as [|[c f] segs IH]; [done|].
  cbn [List.filter map fst]. destruct (String.eqb (Sample.label c) name); cbn;
    by rewrite IH.
Qed.

Lemma executionsOf_controllers name rows :
  map fst (executionsOf name rows)
  = List.filter (fun c => String.eqb (Sample.label c) name)
      (List.filter opensExecution rows).
Proof.
  unfold executionsOf. by rewrite executionsIn_controllers, segments_controllers.
Qed.

Lemma transactionSpec_Some name rows t :
  transactionSpec name rows = Some t ->
  Transaction.name t = name
  /\ Transaction.samples t
     = List.filter (fun c => String.eqb (Sample.label c) name)
         (List.filter opensExecution rows)
  /\ Transaction.samples t <> []
  /\ Transaction.totalSamples t = arrayLength (Transaction.samples t).
Proof.
  unfold transactionSpec. pose proof (executionsOf_controllers name rows) as Hc.
  destruct (executionsOf name rows) as [|e executions]; [done|].
  intros [= <-]. unfold transactionOf.
  cbn [Transaction.name Transaction.samples Transaction.totalSamples].
  by rewrite <- Hc.
Qed.

Lemma totalExecutions_sum (transactions : list (string * Transaction.t))
    (controllers : list Sample.t) :
  (forall name t, (name, t) ∈ transactions ->
     Transaction.totalSamples t
     = arrayLength
         (List.filter (fun c => String.eqb (Sample.label c) name) controllers)) ->
  NoDup (map fst transactions) ->
  (forall c, c ∈ controllers -> Sample.label c ∈ map fst transactions) ->
  totalExecutions (map (fun '(key, t) => (key, summarize t)) transactions)
  = arrayLength controllers.
Proof.
  intros Hcount Hnd Hcover.
  assert (totalExecutions (map (fun '(key, t) => (key, summarize t)) transactions)
          = foldr (fun key total =>
                     arrayLength (List.filter
                       (fun c => String.eqb (Sample.label c) key) controllers)
                     + total) 0 (map fst transactions)) as ->.
  { clear Hnd Hcover.
    induction transactions as [|[key t] transactions IH]; [done|].
    cbn [map foldr fst totalExecutions snd summarize Summary.transaction].
    fold (totalExecutions (map (fun '(key, t) => (key, summarize t)) transactions)).
    rewrite IH, (Hcount key t) by (intros; apply Hcount; by right) || by left.
    done. }
  clear Hcount. revert Hcover. generalize (map fst transactions) Hnd.
  clear transactions Hnd. intros keys Hnd.
  induction controllers as [|c controllers IH]; intros Hcover.
  - clear. induction keys as [|key keys IH]; [done|]. cbn in *. by rewrite IH.
  - assert (forall l,
              foldr (fun key total =>
                       arrayLength (List.filter
                         (fun c0 => String.eqb (Sample.label c0) key)
                         (c :: controllers)) + total) 0 l
              = foldr (fun key total =>
                         (if String.eqb (Sample.label c) key then 1 else 0)
                         + total) 0 l
                + foldr (fun key total =>
                           arrayLength (List.filter
                             (fun c0 => String.eqb (Sample.label c0) key)
                             controllers) + total) 0 l) as Hsplit.
    { induction l as [|key l IHl]; [done|]. cbn [foldr].
      rewrite IHl. cbn [List.filter].
      destruct (String.eqb (Sample.label c) key);
        unfold arrayLength; cbn [length]; lia. }
    rewrite Hsplit, IH by (intros; apply Hcover; by right).
    assert (foldr (fun key total =>
                     (if String.eqb (Sample.label c) key then 1 else 0) + total)
              0 keys = 1) as ->.
    { specialize (Hcover c ltac:(left)). revert Hcover. clear -Hnd.
      induction Hnd as [|key keys Hkey Hnd IH]; intros Hin.
      { by apply elem_of_nil in Hin. }
      cbn [foldr]. destruct (String.eqb_spec (Sample.label c) key) as [->|Hne].
      - assert (foldr (fun key0 total =>
                         (if String.eqb key key0 then 1 else 0) + total) 0 keys
                = 0) as ->; [|done].
        clear -Hkey. induction keys as [|k keys IH]; [done|].
        apply not_elem_of_cons in Hkey as [Hne Hkey]. cbn [foldr].
        by rewrite (proj2 (String.eqb_neq _ _) Hne), IH.
      - apply elem_of_cons in Hin as [Hin|Hin]; [done|]. by rewrite IH. }
    unfold arrayLength. rewrite length_cons. lia.
Qed.

(** X15: the controller rows of the file are shared out among the
    transactions by their label: the result lists them all, every
    transaction holds exactly those of its name (one at least), no name
    stands for two transactions, and the sample counts of the transactions
    add up to [totalSamples]. *)
Theorem controllers_are_partitioned csv r :
  parseJMeterResults csv = Some r ->
  let controllers := List.filter opensExecution (samplesOf csv) in
  Result.samples r = controllers
  /\ Result.totalSamples r = arrayLength controllers
  /\ NoDup (map fst (Result.transactions r))
  /\ (forall name summary,
        (name, summary) ∈ Result.transactions r ->
        let t := Summary.transaction summary in
        Transaction.name t = name
        /\ Transaction.samples t
           = List.filter (fun c => String.eqb (Sample.label c) name) controllers
        /\ Transaction.samples t <> []
        /\ Transaction.totalSamples t = arrayLength (Transaction.samples t))
  /\ (forall c, c ∈ controllers ->
        Sample.label c ∈ map fst (Result.transactions r))
  /\ totalExecutions (Result.transactions r) = Result.totalSamples r.
Proof.
  intros (st & -> & Hspec & _ & Hnd & Hsamples)%parse_reconstructs controllers.
  cbn [buildResult Result.samples Result.totalSamples Result.transactions].
  fold controllers in Hsamples. rewrite Hsamples.
  assert (map fst (map (fun '(key, transaction) => (key, summarize transaction))
                     (Scan.transactions st))
          = map fst (Scan.transactions st)) as Hkeys.
  { rewrite map_map. apply map_ext. by intros [key t]. }
  assert (forall name t, (name, t) ∈ Scan.transactions st ->
            transactionSpec name (samplesOf csv) = Some t) as Hin.
  { intros name t Ht. rewrite <- Hspec, ownProperty_lookupOwn.
    by apply lookupOwn_elem_of. }
  assert (forall c, c ∈ controllers ->
            Sample.label c ∈ map fst (Scan.transactions st)) as Hcover.
  { intros c Hc. destruct (ownProperty (Scan.transactions st) (Sample.label c))
      as [t|] eqn:Ht.
    - apply ownProperty_elem_of in Ht. apply list_elem_of_fmap.
      by exists (Sample.label c, t).
    - exfalso. rewrite Hspec in Ht. unfold transactionSpec in Ht.
      pose proof (executionsOf_controllers (Sample.label c) (samplesOf csv)) as E.
      destruct (executionsOf _ _); [|done]. fold controllers in E.
      assert (c ∈ List.filter
                (fun c0 => String.eqb (Sample.label c0) (Sample.label c))
                controllers) as Hc'.
      { apply list_elem_of_In, filter_In. split; [by apply list_elem_of_In|].
        apply String.eqb_refl. }
      rewrite <- E in Hc'. by apply elem_of_nil in Hc'. }
  split; [done|]. split; [done|]. split; [by rewrite Hkeys|].
  split; [|split; [by rewrite Hkeys|]].
  - intros name summary ([key t] & [= -> ->] & Ht)%list_elem_of_fmap.
    cbn [summarize Summary.transaction]. by apply transactionSpec_Some, Hin.
  - apply totalExecutions_sum; [|done..].
    intros name t Ht. apply Hin, transactionSpec_Some in Ht as (_ & Hs & _ & ->).
    by rewrite Hs.
Qed.

Lemma controllers_are_partitioned_witness :
  exists r,
    parseJMeterResults scenario_csv = Some r
    /\ Result.samples r = List.filter opensExecution (samplesOf scenario_csv)
    /\ totalExecutions (Result.transactions r) = Result.totalSamples r.
Proof.
  eexists. split; [vm_compute; reflexivity|].
  match goal with
  | |- Result.samples ?r = _ /\ _ =>
      assert (parseJMeterResults scenario_csv = Some r) as Hr
        by (vm_compute; reflexivity);
      destruct (controllers_are_partitioned scenario_csv r Hr)
        as (Hsamples & _ & _ & _ & _ & Hsum)
  end.
  exact (conj Hsamples Hsum).
Defined.

End reconstruction_whole.

(** ** The summary of a transaction *)

Section summaries.
Local Open Scope Z_scope.

Lemma uniqueByLabel_spec requests seen :
  let unique := uniqueByLabel requests seen in
  unique `sublist_of` requests
  /\ NoDup (map Sample.label unique)
  /\ (forall label,
        label ∈ map Sample.label unique
        <-> label ∈ map Sample.label requests /\ label ∉ seen)
  /\ (forall req,
        req ∈ unique ->
        head (List.filter
                (fun c => String.eqb (Sample.label c) (Sample.label req)) requests)
        = Some req).
Proof.
  revert seen. induction requests as [|x requests IH]; intros seen; cbv zeta.
  { cbn. split; [done|]. split; [constructor|]. split.
    - intros label. split; [by intros ?%elem_of_nil|by intros [?%elem_of_nil _]].
    - by intros req ?%elem_of_nil. }
  cbn [uniqueByLabel]. destruct (decide (Sample.label x ∈ seen)) as [Hseen|Hnew].
  - destruct (IH seen) as (Hsub & Hnd & Hlabels & Hfirst).
    split; [by apply sublist_cons|]. split; [done|]. split.
    + intros label. rewrite Hlabels. cbn [map]. rewrite elem_of_cons.
      split; [tauto|]. intros [[->|Hin] Hout]; done.
    + intros req Hreq. cbn [List.filter].
      destruct (String.eqb_spec (Sample.label x) (Sample.label req)) as [E|_];
        [|by apply Hfirst].
      exfalso. assert (Sample.label req ∈ map Sample.label
                         (uniqueByLabel requests seen)) as Hin.
      { apply list_elem_of_fmap. by exists req. }
      apply Hlabels in Hin as [_ Hout]. congruence.
  - destruct (IH ({[Sample.label x]} ∪ seen)) as (Hsub & Hnd & Hlabels & Hfirst).
    split; [by apply sublist_skip|]. split; [|split].
    + cbn [map]. apply NoDup_cons. split; [|done].
      intros Hin. apply Hlabels in Hin as [_ Hout]. set_solver.
    + intros label. cbn [map]. rewrite !elem_of_cons, Hlabels.
      split.
      * intros [->|[Hin Hout]]; [tauto|]. split; [tauto|set_solver].
      * intros [[->|Hin] Hout]; [tauto|].
        destruct (decide (label = Sample.label x)) as [->|Hne]; [tauto|].
        right. split; [done|set_solver].
    + intros req [->|Hreq]%elem_of_cons; cbn [List.filter].
      { by rewrite String.eqb_refl. }
      destruct (String.eqb_spec (Sample.label x) (Sample.label req)) as [E|_];
        [|by apply Hfirst].
      exfalso. assert (Sample.label req ∈ map Sample.label
                         (uniqueByLabel requests ({[Sample.label x]} ∪ seen)))
        as Hin.
      { apply list_elem_of_fmap. by exists req. }
      apply Hlabels in Hin as [_ Hout]. set_solver.
Qed.

(** X16: the unique child requests of a transaction are the first request
    of every label among its children: a sub-list of the children, in their
    order, with every label of the children once. *)
Theorem uniqueChildRequests_first_of_label transaction :
  let children := Transaction.childRequests transaction in
  let unique := Summary.uniqueChildRequests (summarize transaction) in
  unique `sublist_of` children
  /\ NoDup (map Sample.label unique)
  /\ (forall label,
        label ∈ map Sample.label unique <-> label ∈ map Sample.label children)
  /\ (forall req,
        req ∈ unique ->
        head (List.filter
                (fun c => String.eqb (Sample.label c) (Sample.label req)) children)
        = Some req).
Proof.
  cbv zeta. cbn [summarize Summary.uniqueChildRequests].
  destruct (uniqueByLabel_spec (Transaction.childRequests transaction) ∅)
    as (Hsub & Hnd & Hlabels & Hfirst).
  split; [done|]. split; [done|]. split; [|done].
  intros label. rewrite Hlabels. set_solver.
Qed.




End summaries.

(** ** The span of the test *)

Section span.
Local Open Scope Z_scope.











End span.

(** ** More on the concurrency inference *)

Section concurrency_more.
Local Open Scope Z_scope.

(** X20: with every thread number at 1 or more, a user type whose threads
    have a sample is counted as one instance at least. *)
Theorem countThreadInstances_positive
    allSamples rampUpWindowMs executionGapMs userType threadGroupNames :
  let matching :=
    samplesMatching (selectingNames userType threadGroupNames) allSamples in
  matching <> [] ->
  (forall sample n,
      sample ∈ matching ->
      threadNumber (Sample.threadName sample) = Some n -> 1 <= n) ->
  1 <= countThreadInstances allSamples rampUpWindowMs executionGapMs
         userType threadGroupNames.
Proof. intros matching Hne Hnumbers. by apply countInstances_positive. Qed.

Lemma countThreadInstances_positive_witness :
  1 <= countThreadInstances coordinator_samples 10000 30000 coordinatorType None.
Proof.
  apply countThreadInstances_positive.
  - by vm_compute.
  - intros sample n Hin.
    set (matching := samplesMatching (selectingNames coordinatorType None)
                       coordinator_samples) in Hin.
    vm_compute in matching. subst matching.
    repeat (apply elem_of_cons in Hin as [->|Hin];
            [intros Hn; vm_compute in Hn; injection Hn as <-; lia|]).
    by apply elem_of_nil in Hin.
Defined.

(** *** Sets in the order of insertion *)

Lemma distinct_from_snoc seen l x :
  distinct_from seen (l ++ [x])
  = distinct_from seen l
    ++ (if existsb (String.eqb x) (seen ++ l) then [] else [x]).
Proof.
  revert seen. induction l as [|y l IH]; intros seen; cbn [app distinct_from].
  - rewrite app_nil_r. by destruct (existsb (String.eqb x) seen).
  - destruct (existsb (String.eqb y) seen) eqn:Hy.
    + rewrite IH. f_equal. rewrite !existsb_app. cbn [existsb].
      destruct (String.eqb_spec x y) as [->|_]; [|done].
      by rewrite Hy.
    + cbn [app]. rewrite IH. do 2 f_equal.
      rewrite <- app_assoc. done.
Qed.

Lemma distinct_snoc l x :
  distinct (l ++ [x])
  = distinct l ++ (if existsb (String.eqb x) l then [] else [x]).
Proof. unfold distinct. by rewrite distinct_from_snoc. Qed.

Lemma distinct_elem_of l x : x ∈ distinct l <-> x ∈ l.
Proof.
  unfold distinct. rewrite distinct_from_elem_of, elem_of_nil. tauto.
Qed.



(** *** The groups *)

Lemma groupThreads_snoc names name :
  groupThreads (names ++ [name])
  = addThread (groupThreads names) (groupOf name) name.
Proof. unfold groupThreads. by rewrite fold_left_app. Qed.

Lemma addThread_fresh (groups : list string) (threadsOf : string -> list string)
    group name :
  group ∉ groups ->
  addThread (map (fun g => (g, threadsOf g)) groups) group name
  = map (fun g => (g, threadsOf g)) groups ++ [(group, [name])].
Proof.
  induction groups as [|g groups IH]; intros Hfresh; cbn [map addThread app].
  - done.
  - apply not_elem_of_cons in Hfresh as [Hne Hfresh].
    rewrite (proj2 (String.eqb_neq g group)) by congruence.
    by rewrite IH.
Qed.

Lemma addThread_known (groups : list string) (threadsOf : string -> list string)
    group name :
  NoDup groups -> group ∈ groups -> name ∉ threadsOf group ->
  addThread (map (fun g => (g, threadsOf g)) groups) group name
  = map (fun g => (g, if String.eqb g group
                      then threadsOf g ++ [name] else threadsOf g)) groups.
Proof.
  intros Hnd Hin Hname.
  induction groups as [|g groups IH]; cbn [map addThread].
  - by apply elem_of_nil in Hin.
  - apply NoDup_cons in Hnd as [Hg Hnd].
    destruct (String.eqb_spec g group) as [->|Hne].
    + assert (existsb (String.eqb name) (threadsOf group) = false) as ->.
      { apply not_true_is_false. by intros ?%existsb_eqb_elem_of. }
      f_equal. apply map_ext_in. intros g Hgin%list_elem_of_In.
      destruct (String.eqb_spec g group) as [->|_]; done.
    + apply elem_of_cons in Hin as [Hin|Hin]; [congruence|].
      by rewrite IH.
Qed.

Lemma groupThreads_groupsOf names :
  NoDup names -> groupThreads names = groupsOf names.
Proof.
  induction names as [|name names IH] using rev_ind; [done|].
  intros [Hnd [Hfresh _]]%NoDup_app. specialize (IH Hnd).
  assert (name ∉ names) as Hname.
  { intros Hin. by apply (Hfresh name Hin), list_elem_of_singleton. }
  rewrite groupThreads_snoc, IH. unfold groupsOf.
  rewrite map_app. cbn [map]. rewrite distinct_snoc.
  set (group := groupOf name).
  destruct (existsb (String.eqb group) (map groupOf names)) eqn:Hknown.
  - apply existsb_eqb_elem_of in Hknown. rewrite app_nil_r.
    rewrite addThread_known;
      [|apply distinct_from_NoDup|by apply distinct_elem_of|].
    + apply map_ext. intros g. rewrite List.filter_app. cbn [List.filter].
      fold group. rewrite String.eqb_sym.
      by destruct (String.eqb group g); rewrite ?app_nil_r.
    + intros [Hin _]%list_elem_of_In%filter_In. apply Hname.
      by apply list_elem_of_In.
  - assert (group ∉ map groupOf names) as Hnew.
    { intros Hin%existsb_eqb_elem_of. congruence. }
    rewrite addThread_fresh by by rewrite distinct_elem_of.
    rewrite map_app. cbn [map]. f_equal.
    + apply map_ext_in. intros g Hg%list_elem_of_In.
      apply (proj1 (distinct_elem_of _ _)) in Hg.
      rewrite List.filter_app. cbn [List.filter]. fold group.
      destruct (String.eqb_spec group g) as [<-|_]; [done|].
      by rewrite app_nil_r.
    + do 2 f_equal. rewrite List.filter_app. cbn [List.filter]. fold group.
      rewrite String.eqb_refl, filter_none; [done|].
      apply Forall_forall. intros n Hn. apply String.eqb_neq.
      intros Heq. apply Hnew. apply list_elem_of_fmap. by exists n.
Qed.

(** *** Counts that do not depend on the order *)

Lemma fold_left_max_spec (rest : list Z) n :
  fold_left Z.max rest n ∈ n :: rest
  /\ forall x, x ∈ n :: rest -> x <= fold_left Z.max rest n.
Proof.
  revert n. induction rest as [|y rest IH]; intros n; cbn [fold_left].
  - split; [left|]. by intros x ->%list_elem_of_singleton.
  - destruct (IH (Z.max n y)) as [Hin Hmax]. split.
    + apply elem_of_cons in Hin as [Hin|Hin]; [|by do 2 right].
      rewrite Hin. destruct (Z.max_spec n y) as [[_ ->]|[_ ->]];
        [right; left|left].
    + intros x [->|[->|Hx]%elem_of_cons]%elem_of_cons.
      * specialize (Hmax (Z.max n y) ltac:(left)). lia.
      * specialize (Hmax (Z.max n y) ltac:(left)). lia.
      * apply Hmax. by right.
Qed.


Lemma threadNumbers_Permutation names names' :
  names ≡ₚ names' -> threadNumbers names ≡ₚ threadNumbers names'.
Proof. intros Hperm. unfold threadNumbers. by rewrite Hperm. Qed.






(** *** The count by timing *)

#[local] Instance byTimestamp_transitive : Transitive byTimestamp.
Proof. unfold byTimestamp. intros a b c. lia. Qed.

#[local] Instance byTimestamp_total : Total byTimestamp.
Proof. unfold byTimestamp. intros a b. lia. Qed.

Lemma sorted_timestamps samples :
  map Sample.timestamp (merge_sort byTimestamp samples)
  = sortAscending (map Sample.timestamp samples).
Proof.
  apply (StronglySorted_unique Z.le).
  - pose proof (StronglySorted_merge_sort byTimestamp samples) as Hs.
    induction Hs as [|a l Hs IH Hall]; [constructor|].
    cbn [map]. constructor; [done|].
    apply Forall_fmap. eapply Forall_impl; [done|]. by intros b.
  - apply sortAscending_sorted.
  - by rewrite sortAscending_Permutation, merge_sort_Permutation.
Qed.





(** *** One thread name without a number *)

Lemma distinct_from_constant seen names name :
  Forall (fun n => n = name) names ->
  distinct_from seen names
  = if existsb (String.eqb name) seen then []
    else match names with [] => [] | _ => [name] end.
Proof.
  revert seen. induction names as [|n names IH]; intros seen Hall;
    cbn [distinct_from].
  - by destruct (existsb _ _).
  - apply Forall_cons_1 in Hall as [-> Hall].
    destruct (existsb (String.eqb name) seen) eqn:Hseen.
    + by rewrite IH, Hseen.
    + rewrite IH by done. rewrite existsb_app. cbn [existsb].
      by rewrite String.eqb_refl, orb_true_r.
Qed.

Lemma longPauses_nonneg gap timestamps : 0 <= longPauses gap timestamps.
Proof.
  induction timestamps as [|a [|b rest] IH]; [done..|].
  change (longPauses gap (a :: b :: rest))
    with ((if gap <? b - a then 1 else 0) + longPauses gap (b :: rest)).
  destruct (gap <? b - a); lia.
Qed.

Lemma firstTimestamps_length rest a gap :
  arrayLength (firstTimestamps rest true a gap) = longPauses gap (a :: rest).
Proof.
  revert a. induction rest as [|b rest IH]; intros a; [done|].
  change (longPauses gap (a :: b :: rest))
    with ((if gap <? b - a then 1 else 0) + longPauses gap (b :: rest)).
  cbn [firstTimestamps negb orb].
  unfold arrayLength in *. rewrite length_app, Nat2Z.inj_add, IH.
  destruct (gap <? b - a); cbn [length]; lia.
Qed.

Lemma firstTimestamps_separated rest a gap :
  StronglySorted Z.le (a :: rest) ->
  let firsts := firstTimestamps rest true a gap in
  StronglySorted (fun x y => x + gap < y) firsts
  /\ Forall (fun y => a + gap < y) firsts.
Proof.
  revert a. induction rest as [|b rest IH]; intros a Hs; cbv zeta.
  { cbn. split; constructor. }
  apply StronglySorted_inv in Hs as [Hs Hall].
  apply Forall_cons_1 in Hall as [Hab Hall].
  destruct (IH b Hs) as [Hsep Hafter].
  cbn [firstTimestamps negb orb].
  assert (Forall (fun y => a + gap < y) (firstTimestamps rest true b gap))
    as Hafter'.
  { eapply Forall_impl; [done|]. cbn. intros; lia. }
  destruct (Z.ltb_spec gap (b - a)); cbn [app].
  - split; [by constructor|]. constructor; [lia|done].
  - done.
Qed.

Lemma distinctZ_from_NoDup seen (l : list Z) :
  NoDup l -> (forall x, x ∈ l -> x ∉ seen) -> distinctZ_from seen l = l.
Proof.
  revert seen. induction l as [|x l IH]; intros seen Hnd Hfresh; [done|].
  apply NoDup_cons in Hnd as [Hx Hnd]. cbn [distinctZ_from].
  assert (existsb (Z.eqb x) seen = false) as ->.
  { apply not_true_is_false. intros (y & Hy & Heq)%existsb_exists.
    apply Z.eqb_eq in Heq. subst y.
    apply (Hfresh x); [left|by apply list_elem_of_In]. }
  f_equal. apply IH; [done|].
  intros y Hy [Hin|Hin]%elem_of_app.
  - by apply (Hfresh y); [right|].
  - apply list_elem_of_singleton in Hin. congruence.
Qed.

Lemma windows_distinct rampUp gap (firsts : list Z) :
  0 < rampUp <= gap ->
  StronglySorted (fun x y => x + gap < y) firsts ->
  distinctZ_from [] (map (fun ts => ts / rampUp) firsts)
  = map (fun ts => ts / rampUp) firsts.
Proof.
  intros Hramp Hs. apply distinctZ_from_NoDup; [|by intros x _ ?%elem_of_nil].
  induction Hs as [|x firsts Hs IH Hall]; [constructor|].
  cbn [map]. apply NoDup_cons. split; [|done].
  intros (y & Hxy & Hy)%list_elem_of_fmap.
  apply (proj1 (Forall_forall _ _) Hall) in Hy.
  assert (x / rampUp + 1 <= y / rampUp); [|lia].
  rewrite <- (Z.div_add x 1 rampUp) by lia.
  apply Z.div_le_mono; lia.
Qed.

(** X22: for a user type whose samples all bear one thread name without a
    thread number, and a ramp-up window no longer than the execution gap,
    the inferred count is one more than the number of pauses longer than the
    execution gap between one sample and the next in time. *)
Theorem single_thread_counts_pauses
    allSamples rampUpWindowMs executionGapMs userType threadGroupNames name :
  let matching :=
    samplesMatching (selectingNames userType threadGroupNames) allSamples in
  matching <> [] ->
  (forall sample, sample ∈ matching -> Sample.threadName sample = name) ->
  threadNumber name = None ->
  0 < rampUpWindowMs <= executionGapMs ->
  countThreadInstances allSamples rampUpWindowMs executionGapMs
    userType threadGroupNames
  = 1 + longPauses executionGapMs
          (sortAscending (map Sample.timestamp matching)).
Proof.
  intros matching Hne Hname Hnumber Hramp.
  unfold countThreadInstances, countInstances. fold matching.
  rewrite (proj2 (Z.eqb_neq _ 0)) by (pose proof (arrayLength_pos _ Hne); lia).
  assert (distinct (map Sample.threadName matching) = [name]) as ->.
  { unfold distinct. rewrite (distinct_from_constant _ _ name).
    - cbn [existsb]. by destruct matching.
    - apply Forall_fmap, Forall_forall. intros sample Hin. by apply Hname. }
  unfold countUnique, groupThreads, threadNumbers.
  cbn [fold_left addThread omap list_omap]. rewrite Hnumber.
  change (1 <? arrayLength [(groupOf name, [name])]) with false.
  change (1 <? arrayLength [name]) with false. cbv iota.
  unfold countByTiming. rewrite sorted_timestamps.
  pose proof (sortAscending_sorted (map Sample.timestamp matching)) as Hsorted.
  assert (sortAscending (map Sample.timestamp matching) <> []) as Hsome.
  { apply sortAscending_nonempty. by destruct matching. }
  destruct (sortAscending (map Sample.timestamp matching)) as [|a rest];
    [done|].
  cbn [firstTimestamps negb orb app].
  destruct (firstTimestamps_separated rest a executionGapMs Hsorted)
    as [Hsep Hafter].
  rewrite (windows_distinct rampUpWindowMs executionGapMs)
    by (done || by constructor).
  pose proof (firstTimestamps_length rest a executionGapMs) as Hlen.
  pose proof (longPauses_nonneg executionGapMs (a :: rest)).
  unfold arrayLength in *. rewrite length_map, length_cons.
  cbn [length]. lia.
Qed.

Lemma single_thread_counts_pauses_witness :
  countThreadInstances paused_samples 10000 30000 adminType None = 2.
Proof.
  rewrite (single_thread_counts_pauses paused_samples 10000 30000 adminType None
             "GT Admin").
  - by vm_compute.
  - by vm_compute.
  - intros sample Hin.
    set (matching := samplesMatching (selectingNames adminType None)
                       paused_samples) in Hin.
    vm_compute in matching. subst matching.
    repeat (apply elem_of_cons in Hin as [->|Hin]; [reflexivity|]).
    by apply elem_of_nil in Hin.
  - by vm_compute.
  - lia.
Defined.


(** *** The largest thread number of a group *)

Lemma digits_loop_of_uint_acc d acc :
  digits_loop isDigit digitValue 10 (NilEmpty.string_of_uint d) (Some (Z.pos acc))
  = Some (Z.pos (Pos.of_uint_acc d acc)).
Proof.
  revert acc.
  induction d as [|d IH|d IH|d IH|d IH|d IH|d IH|d IH|d IH|d IH|d IH]; intros acc;
    cbn [NilEmpty.string_of_uint digits_loop Pos.of_uint_acc]; [done|..];
    change (isDigit _) with true; cbv beta iota; rewrite <- IH; do 2 f_equal;
    cbn [default from_option id]; unfold digitValue; cbn; lia.
Qed.

Lemma digits_loop_of_uint d acc :
  default 0 acc = 0 ->
  digits_loop isDigit digitValue 10 (NilEmpty.string_of_uint d) acc
  = match d with
    | Decimal.Nil => acc
    | _ => Some (Z.of_N (Pos.of_uint d))
    end.
Proof.
  revert acc.
  induction d as [|d IH|d IH|d IH|d IH|d IH|d IH|d IH|d IH|d IH|d IH]; intros acc Hacc;
    cbn [NilEmpty.string_of_uint digits_loop Pos.of_uint]; [done|..];
    change (isDigit _) with true; cbv beta iota; rewrite Hacc.
  - rewrite IH by done. by destruct d.
  - apply (digits_loop_of_uint_acc d 1).
  - apply (digits_loop_of_uint_acc d 2).
  - apply (digits_loop_of_uint_acc d 3).
  - apply (digits_loop_of_uint_acc d 4).
  - apply (digits_loop_of_uint_acc d 5).
  - apply (digits_loop_of_uint_acc d 6).
  - apply (digits_loop_of_uint_acc d 7).
  - apply (digits_loop_of_uint_acc d 8).
  - apply (digits_loop_of_uint_acc d 9).
Qed.

(** [parseInt] reads back the number that was printed. *)
Lemma parseDigits_decimal k : 0 <= k -> parseDigits 10 (decimal k) = Some k.
Proof.
  intros Hk. unfold parseDigits, decimal, NilZero.string_of_uint.
  change (10 =? 16) with false. cbv iota.
  pose proof (DecimalN.Unsigned.of_to (Z.to_N k)) as Hround. unfold N.of_uint in Hround.
  destruct (N.to_uint (Z.to_N k)) as [|d|d|d|d|d|d|d|d|d|d] eqn:Hd;
    [cbn in Hround; assert (k = 0) as -> by lia; reflexivity|..];
    rewrite digits_loop_of_uint by done; rewrite Hround; f_equal; lia.
Qed.

Lemma nonEmptyDigits_decimal k : nonEmptyDigits (decimal k) = true.
Proof.
  destruct (decimal_digits k) as [Hdigits Hne]. unfold nonEmptyDigits.
  rewrite Hdigits, andb_true_r. unfold truthy.
  by destruct (String.eqb_spec (decimal k) "").
Qed.

Lemma parseInt10_decimal k : 0 <= k -> parseInt10 (decimal k) = Some k.
Proof.
  intros Hk. unfold parseInt10.
  destruct (decimal_digits k) as [Hdigits Hne].
  pose proof (parseDigits_decimal k Hk) as Hparse.
  destruct (decimal k) as [|c s]; [done|].
  cbn [allDigits] in Hdigits. apply andb_prop in Hdigits as [Hc _].
  rewrite trimStart_digit, stripSign_digit by done.
  by rewrite Hparse.
Qed.

Lemma dashNumberMatch_coordinator k :
  dashNumberMatch (coordinator k) = Some (decimal k).
Proof.
  pose proof (nonEmptyDigits_decimal k) as Hd. unfold coordinator.
  rewrite !append_cons, append_nil_l.
  cbn [dashNumberMatch Ascii.eqb Bool.eqb andb]. by rewrite Hd.
Qed.

Lemma threadNumber_coordinator k : 0 <= k -> threadNumber (coordinator k) = Some k.
Proof.
  intros Hk. unfold threadNumber.
  by rewrite dashNumberMatch_coordinator, parseInt10_decimal.
Qed.

Lemma groupOf_coordinator k : groupOf (coordinator k) = "District Coordinator".
Proof.
  pose proof (nonEmptyDigits_decimal k) as Hd. unfold coordinator.
  rewrite !append_cons, append_nil_l.
  generalize dependent (decimal k). intros d Hd.
  cbv -[nonEmptyDigits]. rewrite Hd. reflexivity.
Qed.

Lemma distinct_from_seen (g : string) seen l :
  g ∈ seen -> Forall (fun x => x = g) l -> distinct_from seen l = [].
Proof.
  revert seen. induction l as [|y l IH]; intros seen Hseen Hall; [done|].
  apply Forall_cons_1 in Hall as [Hy Hall]. subst y. cbn [distinct_from].
  rewrite (proj2 (existsb_eqb_elem_of g seen) Hseen). by apply IH.
Qed.

Lemma distinct_constant (g : string) l :
  l <> [] -> Forall (fun x => x = g) l -> distinct l = [g].
Proof.
  intros Hne Hall. destruct l as [|x l]; [done|].
  apply Forall_cons_1 in Hall as [Hx Hall]. subst x.
  unfold distinct. cbn [distinct_from existsb app].
  f_equal. apply (distinct_from_seen g); [by left|done].
Qed.

(** The samples of coordinators, whatever their thread numbers: one group,
    and the largest of the numbers. *)
Lemma coordinators_largest matching rampUpWindowMs executionGapMs (numbers : list Z) :
  numbers <> [] -> Forall (fun k => 0 <= k) numbers ->
  (forall name,
      name ∈ map Sample.threadName matching <-> name ∈ map coordinator numbers) ->
  let names := distinct (map Sample.threadName matching) in
  let count := countInstances matching rampUpWindowMs executionGapMs in
  map fst (groupThreads names) = ["District Coordinator"]
  /\ (forall k, k ∈ threadNumbers names <-> k ∈ numbers)
  /\ count ∈ numbers /\ Forall (fun k => k <= count) numbers.
Proof.
  intros Hsome Hnat Hexactly names count.
  assert (forall name, name ∈ names <-> exists k, name = coordinator k /\ k ∈ numbers)
    as Hnames.
  { intros name. unfold names. rewrite distinct_elem_of, Hexactly, list_elem_of_fmap.
    done. }
  assert (names <> []) as Hnamed.
  { destruct numbers as [|k numbers]; [done|]. intros Hnil.
    apply (elem_of_nil (coordinator k)). rewrite <- Hnil. apply Hnames.
    exists k. split; [done|left]. }
  assert (matching <> []) as Hmatching.
  { intros ->. by apply Hnamed. }
  assert (groupThreads names = [("District Coordinator", names)]) as Hgroups.
  { rewrite groupThreads_groupsOf by apply distinct_from_NoDup.
    unfold groupsOf.
    rewrite (distinct_constant "District Coordinator").
    - cbn [map]. do 2 f_equal. apply filter_all, Forall_forall.
      intros name (k & -> & _)%Hnames.
      by rewrite groupOf_coordinator.
    - by destruct names.
    - apply Forall_forall. intros g (name & -> & Hin)%list_elem_of_fmap.
      apply Hnames in Hin as (k & -> & _). apply groupOf_coordinator. }
  assert (forall k, k ∈ threadNumbers names <-> k ∈ numbers) as Hnumbers.
  { intros k. unfold threadNumbers. rewrite list_elem_of_omap. split.
    - intros (name & (j & -> & Hj)%Hnames & Hk).
      rewrite threadNumber_coordinator in Hk
        by (by apply (proj1 (Forall_forall _ _) Hnat)).
      by simplify_eq.
    - intros Hk. exists (coordinator k). split; [apply Hnames; eauto|].
      apply threadNumber_coordinator.
      by apply (proj1 (Forall_forall _ _) Hnat). }
  split; [by rewrite Hgroups|]. split; [done|].
  subst count. unfold countInstances.
  rewrite (proj2 (Z.eqb_neq _ 0)) by (pose proof (arrayLength_pos _ Hmatching); lia).
  fold names. unfold countUnique. rewrite Hgroups.
  change (1 <? arrayLength [("District Coordinator", names)]) with false. cbv iota.
  destruct (threadNumbers names) as [|n rest] eqn:Hn.
  { destruct numbers as [|k numbers]; [done|].
    exfalso. apply (elem_of_nil k), Hnumbers. left. }
  cbn [maxOf]. destruct (fold_left_max_spec rest n) as [Hin Hmax].
  split; [by apply Hnumbers|].
  apply Forall_forall. intros k Hk%Hnumbers. by apply Hmax.
Qed.

(** C8: for a user type whose pattern is District Coordinator, and samples
    whose matching thread names are exactly District Coordinator 1-1, 1-2
    and 1-3, in any order and any number of times, the names make one
    thread group, the numbers after their last dash are 1, 2 and 3, and the
    inferred concurrency is 3, the largest of them. It is the largest number
    and not the number of the names: whatever the numbers after the dash,
    the count is the largest of them. *)
Theorem three_coordinators_count_three
    allSamples rampUpWindowMs executionGapMs userType threadGroupNames :
  selectingNames userType threadGroupNames = ["District Coordinator"] ->
  let matching := samplesMatching ["District Coordinator"] allSamples in
  let names := distinct (map Sample.threadName matching) in
  let count :=
    countThreadInstances allSamples rampUpWindowMs executionGapMs
      userType threadGroupNames in
  ((forall name, name ∈ map Sample.threadName matching <-> name ∈ coordinators) ->
   map fst (groupThreads names) = ["District Coordinator"]
   /\ map dashNumberMatch coordinators = [Some "1"; Some "2"; Some "3"]
   /\ threadNumbers names ≡ₚ [1; 2; 3]
   /\ count = 3)
  /\ (forall numbers : list Z,
        numbers <> [] -> Forall (fun k => 0 <= k) numbers ->
        (forall name,
            name ∈ map Sample.threadName matching
            <-> name ∈ map coordinator numbers) ->
        map fst (groupThreads names) = ["District Coordinator"]
        /\ (forall k, k ∈ numbers ->
              dashNumberMatch (coordinator k) = Some (decimal k)
              /\ threadNumber (coordinator k) = Some k)
        /\ (forall k, k ∈ threadNumbers names <-> k ∈ numbers)
        /\ count ∈ numbers /\ Forall (fun k => k <= count) numbers).
Proof.
  intros Hselect matching names count.
  assert (count = countInstances matching rampUpWindowMs executionGapMs) as Hcount.
  { subst count matching. unfold countThreadInstances. by rewrite Hselect. }
  split.
  - intros Hexactly.
    destruct (coordinators_largest matching rampUpWindowMs executionGapMs [1; 2; 3])
      as (Hgroup & _ & Hin & Hmax); [done|by repeat constructor|done|].
    rewrite <- Hcount in *.
    split; [done|]. split; [by vm_compute|]. split.
    + assert (NoDup coordinators) as Hdistinct.
      { repeat constructor; rewrite ?elem_of_cons, ?elem_of_nil; intuition discriminate. }
      pose proof (distinct_Permutation _ _ Hdistinct Hexactly) as Hperm.
      fold matching in Hperm. fold names in Hperm.
      by rewrite (threadNumbers_Permutation _ _ Hperm).
    + apply Forall_cons_1 in Hmax as [_ [_ [H3 _]%Forall_cons_1]%Forall_cons_1].
      rewrite !elem_of_cons, elem_of_nil in Hin. lia.
  - intros numbers Hsome Hnat Hexactly.
    destruct (coordinators_largest matching rampUpWindowMs executionGapMs numbers)
      as (Hgroup & Hnumbers & Hin & Hmax); [done..|].
    rewrite <- Hcount in *.
    split; [done|]. split; [|done].
    intros k Hk. split; [apply dashNumberMatch_coordinator|].
    apply threadNumber_coordinator.
    by apply (proj1 (Forall_forall _ _) Hnat).
Qed.

Lemma three_coordinators_count_three_witness :
  countThreadInstances coordinator_samples 10000 30000 coordinatorType None = 3
  /\ countThreadInstances sparse_coordinator_samples 10000 30000 coordinatorType None
     = 7.
Proof.
  split.
  - apply (three_coordinators_count_three coordinator_samples 10000 30000
             coordinatorType None); [reflexivity|].
    intros name.
    set (names := map Sample.threadName
                    (samplesMatching ["District Coordinator"] coordinator_samples)).
    vm_compute in names. subst names. unfold coordinators.
    rewrite !elem_of_cons, !elem_of_nil. tauto.
  - destruct (proj2 (three_coordinators_count_three sparse_coordinator_samples
                       10000 30000 coordinatorType None eq_refl) [7; 2])
      as (_ & _ & _ & Hin & Hmax); [done|by repeat constructor| |].
    + intros name.
      set (names := map Sample.threadName
                      (samplesMatching ["District Coordinator"]
                         sparse_coordinator_samples)).
      vm_compute in names. subst names.
      set (names := map coordinator [7; 2]). vm_compute in names. subst names.
      done.
    + apply Forall_cons_1 in Hmax as [H7 _].
      rewrite !elem_of_cons, elem_of_nil in Hin. lia.
Defined.

End concurrency_more.

(** ** The environment of the test *)

Section environment.
Local Open Scope Z_scope.

Lemma takeWord_word s : allChars isWordChar (takeWord s) = true.
Proof.
  induction s as [|c s IH]; [done|]. cbn [takeWord].
  destruct (isWordChar c) eqn:Hc; [|done]. cbn [allChars]. by rewrite Hc.
Qed.

Lemma hostTail_word s word :
  hostTail s = Some word -> word <> "" /\ allChars isWordChar word = true.
Proof.
  unfold hostTail. destruct (truthy (takeWord s)) eqn:Hword; [|done].
  destruct (String.prefix _ _); [|done]. intros [= <-].
  split; [by destruct (takeWord s)|apply takeWord_word].
Qed.

Lemma environmentMatch_word url word :
  environmentMatch url = Some word ->
  word <> "" /\ allChars isWordChar word = true.
Proof.
  induction url as [|c url IH]; cbn [environmentMatch].
  - by vm_compute.
  - destruct (environmentAt (String c url)) as [w|] eqn:Hat; [|done].
    intros [= <-]. unfold environmentAt in Hat.
    destruct (String.prefix "app-" _); [|done].
    repeat case_match; simplify_eq; by eapply hostTail_word.
Qed.

Lemma toUpperCase_word word :
  allChars isWordChar word = true ->
  allChars isUpperWordChar (toUpperCase word) = true.
Proof.
  induction word as [|c word IH]; [done|]. cbn [allChars toUpperCase mapString].
  intros [Hc Hword]%andb_prop. fold (toUpperCase word). rewrite (IH Hword).
  rewrite andb_true_r. revert c Hc. apply (ascii_cases (fun c =>
    isWordChar c = true -> isUpperWordChar (toUpperCaseChar c) = true)).
  intros n Hn.
  assert (forallb (fun n =>
            let c := ascii_of_N n in
            implb (isWordChar c) (isUpperWordChar (toUpperCaseChar c)))
            (map N.of_nat (seq 0 256)) = true) as Hall
    by (vm_compute; reflexivity).
  rewrite forallb_forall in Hall. specialize (Hall n (below_256 n Hn)).
  cbv zeta in Hall. intros Hc. by rewrite Hc in Hall.
Qed.

(** X23: the environment is Unknown, or a word in capitals: it is never
    empty and holds capital letters, digits and underscores only. It is
    Unknown when no sample has a URL of an Azure web site. *)
Theorem environmentOf_shape allSamples :
  (environmentOf allSamples = "Unknown"
   \/ environmentOf allSamples <> ""
      /\ allChars isUpperWordChar (environmentOf allSamples) = true)
  /\ (Forall (fun sample =>
                includes (Sample.url sample) "azurewebsites.net" = false)
        allSamples ->
      environmentOf allSamples = "Unknown").
Proof.
  split.
  - induction allSamples as [|sample rest IH]; [by left|].
    cbn [environmentOf]. destruct (_ && _); [|done].
    destruct (environmentMatch (Sample.url sample)) as [word|] eqn:Hmatch;
      [|done].
    apply environmentMatch_word in Hmatch as [Hne Hword]. right. split.
    + by destruct word.
    + by apply toUpperCase_word.
  - induction 1 as [|sample rest Hurl _ IH]; [done|].
    cbn [environmentOf]. by rewrite Hurl, andb_false_r.
Qed.

Lemma environmentOf_shape_witness :
  environmentOf [requestTo "https://example.org/"; requestTo ""] = "Unknown".
Proof.
  apply environmentOf_shape. repeat constructor.
Defined.












End environment.

(** ** When the parser gives a result *)

Section results.
Local Open Scope Z_scope.

(** The names under which the pass holds a transaction are no inherited
    names, and no controller row read so far bears one. *)
Lemma plain_step rows st sample st' :
  plainNames rows
  /\ (forall name, is_Some (ownProperty (Scan.transactions st) name) ->
                   isInherited name = false) ->
  processSample st sample = Some st' ->
  plainNames (rows ++ [sample])
  /\ (forall name, is_Some (ownProperty (Scan.transactions st') name) ->
                   isInherited name = false).
Proof.
  intros [Hplain Hown] Hstep.
  destruct (opensExecution sample) eqn:Hopens.
  - apply processSample_opens in Hstep as (t & Ht & Htrans & _); [|done].
    assert (isInherited (Sample.label sample) = false) as Hlabel.
    { unfold transactionFor, getProperty in Ht.
      destruct (ownProperty (Scan.transactions st) (Sample.label sample)) eqn:E.
      - apply Hown. by rewrite E.
      - unfold isInherited. by destruct (existsb _ _). }
    split.
    + intros s [Hs| ->%list_elem_of_singleton]%elem_of_app; [by apply Hplain|].
      by intros _.
    + intros name. rewrite Htrans, ownProperty_setProperty.
      destruct (String.eqb_spec (Sample.label sample) name) as [<-|_]; [done|].
      apply Hown.
  - split.
    + intros s [Hs| ->%list_elem_of_singleton]%elem_of_app; [by apply Hplain|].
      congruence.
    + apply processSample_windowStep in Hstep.
      destruct Hstep as [? Hyes|_ Htrans _|name t children _ _ _ _ Ht _ Htrans _];
        [congruence|by rewrite Htrans|].
      intros name'. rewrite Htrans, ownProperty_setProperty.
      destruct (String.eqb_spec name name') as [<-|_]; [|apply Hown].
      intros _. apply Hown. by rewrite Ht.
Qed.

(** A result is given only for a file with two non-blank lines at least,
    a header that names the label and the elapsed column, and no controller
    row labelled like a property that every object inherits. *)
Lemma parseJMeterResults_Some_file csv r :
  parseJMeterResults csv = Some r ->
  2 <= arrayLength (csvLines csv)
  /\ "label" ∈ parseCSVLine (default "" (head (csvLines csv)))
  /\ "elapsed" ∈ parseCSVLine (default "" (head (csvLines csv)))
  /\ plainNames (samplesOf csv).
Proof.
  intros Hr.
  assert (plainNames (samplesOf csv)) as Hplain.
  { apply (parse_induction (fun rows st =>
      plainNames rows
      /\ (forall name, is_Some (ownProperty (Scan.transactions st) name) ->
                       isInherited name = false))) in Hr
      as (st & _ & Hplain & _); [done| |apply plain_step].
    split; [by intros s ?%elem_of_nil|]. by intros name [t Ht]. }
  unfold parseJMeterResults in Hr.
  destruct (Z.ltb_spec (arrayLength (csvLines csv)) 2); [done|].
  cbn [readColumns Columns.labelIndex Columns.elapsedIndex] in Hr.
  destruct (Z.eqb_spec (indexOf (parseCSVLine (default "" (head (csvLines csv))))
                          "label") (-1)) as [|Hlabel]; [done|].
  destruct (Z.eqb_spec (indexOf (parseCSVLine (default "" (head (csvLines csv))))
                          "elapsed") (-1)) as [|Helapsed]; [done|].
  split; [lia|]. split; [|split; [|done]].
  + destruct (decide ("label" ∈ parseCSVLine (default "" (head (csvLines csv)))))
      as [|Hout]; [done|]. by apply indexOf_missing in Hout.
  + destruct (decide ("elapsed" ∈ parseCSVLine (default "" (head (csvLines csv)))))
      as [|Hout]; [done|]. by apply indexOf_missing in Hout.
Qed.

(** X25: [parseJMeterResults] gives [null] for a file with fewer than two
    non-blank lines, for a header that does not name the label or the
    elapsed column, and for a file in which a controller row that is read
    is labelled like a property that every object inherits. *)
Theorem parseJMeterResults_null_cases csv :
  arrayLength (csvLines csv) < 2
  \/ "label" ∉ parseCSVLine (default "" (head (csvLines csv)))
  \/ "elapsed" ∉ parseCSVLine (default "" (head (csvLines csv)))
  \/ (exists sample,
        sample ∈ samplesOf csv /\ opensExecution sample = true
        /\ isInherited (Sample.label sample) = true) ->
  parseJMeterResults csv = None.
Proof.
  intros Hcases. destruct (parseJMeterResults csv) as [r|] eqn:Hr; [|done].
  exfalso. apply parseJMeterResults_Some_file in Hr as (Hlines & Hlabel & Helapsed & Hplain).
  destruct Hcases as [Hfew|[Hout|[Hout|(sample & Hin & Hopens & Hname)]]];
    [lia|done|done|].
  specialize (Hplain sample Hin Hopens). unfold isInherited in Hname. congruence.
Qed.

Lemma parseJMeterResults_null_cases_witness :
  parseJMeterResults inherited_csv = None.
Proof.
  apply parseJMeterResults_null_cases. do 3 right.
  set (samples := samplesOf inherited_csv). vm_compute in samples.
  lazymatch eval cbv delta [samples] in samples with
  | ?first :: _ => exists first
  end.
  subst samples. split; [by left|]. split; by vm_compute.
Defined.

(** *** Blank lines *)

Lemma splitLines_concat line lines :
  Forall (fun l => lacks LF l = true) (line :: lines) ->
  splitLines (String.concat (str LF) (line :: lines)) = line :: lines.
Proof.
  unfold splitLines. revert line.
  induction lines as [|next lines IH]; intros line Hall.
  - apply Forall_cons_1 in Hall as [Hline _]. cbn [String.concat].
    by rewrite split_loop_last, append_nil_l.
  - apply Forall_cons_1 in Hall as [Hline Hall].
    change (String.concat (str LF) (line :: next :: lines))
      with (line +:+ str LF +:+ String.concat (str LF) (next :: lines)).
    unfold str at 1. rewrite append_cons, append_nil_l.
    rewrite split_loop_line by done. rewrite append_nil_l. by rewrite IH.
Qed.

Lemma csvLines_concat lines :
  Forall (fun l => lacks LF l = true) lines ->
  csvLines (String.concat (str LF) lines)
  = List.filter (fun line => truthy (trim line)) lines.
Proof.
  intros Hall. unfold csvLines. destruct lines as [|line lines]; [done|].
  by rewrite splitLines_concat.
Qed.

Lemma filter_idempotent {A} (test : A -> bool) (l : list A) :
  List.filter test (List.filter test l) = List.filter test l.
Proof.
  induction l as [|x l IH]; [done|]. cbn [List.filter].
  destruct (test x) eqn:Hx; [|done]. cbn [List.filter]. by rewrite Hx, IH.
Qed.

Lemma parseJMeterResults_lines csv csv' :
  csvLines csv = csvLines csv' ->
  parseJMeterResults csv = parseJMeterResults csv'.
Proof. unfold parseJMeterResults. by intros ->. Qed.

(** X26: blank lines do not count, wherever they stand: a file and the
    file without its empty and white-space lines, those before the header
    included, give the same result. *)
Theorem blank_lines_are_dropped lines :
  Forall (fun l => lacks LF l = true) lines ->
  parseJMeterResults (String.concat (str LF) lines)
  = parseJMeterResults
      (String.concat (str LF)
         (List.filter (fun line => truthy (trim line)) lines)).
Proof.
  intros Hall. apply parseJMeterResults_lines.
  assert (Forall (fun l => lacks LF l = true)
            (List.filter (fun line => truthy (trim line)) lines)) as Hall'.
  { apply Forall_forall. intros l [Hl _]%list_elem_of_In%filter_In.
    by apply (proj1 (Forall_forall _ _) Hall), list_elem_of_In. }
  by rewrite (csvLines_concat _ Hall), (csvLines_concat _ Hall'),
    filter_idempotent.
Qed.

Lemma blank_lines_are_dropped_witness :
  parseJMeterResults
    (String.concat (str LF) [""; "label,elapsed"; "   "; "Login,500"; ""])
  = parseJMeterResults (String.concat (str LF) ["label,elapsed"; "Login,500"]).
Proof.
  exact (blank_lines_are_dropped [""; "label,elapsed"; "   "; "Login,500"; ""]
           ltac:(repeat constructor)).
Defined.

End results.
